(** * Clustering study: the clustering core of the lessons

    A shallow embedding of the algorithmic core of the repository

    - [src/AdvancedLesson.tsx]: [calcDistance], [kMeans], [dbscan];
      the data sets ([generateCirclePoints], [DATASETS]), the chart
      helpers ([splitIntoClusters], [jitterPoint]) and the handlers of
      the playground ([handleRun], [toggleRunVisibility], [deleteRun],
      [visibleRuns]);
    - [src/IntroductoryLesson.tsx]: [mulberry32], [clamp], [runKMeans],
      [generatePoints], [evaluate]; the handlers of the exercise
      ([handlePointClick], [handleRefresh], [handleConfirm]);

    followed by the properties of that core.

    Conventions of the embedding.

    - A JavaScript [number] that holds a coordinate or a distance is a
      real number ([R]): the finite values, with exact arithmetic.
      Rounding, [NaN] and the infinities are not part of the model
      ([Infinity] as the initial "best distance" is [None]).
    - A [number] that holds an index, a count, a cluster id or the
      32-bit state of the generator is an integer ([Z] or [nat]).
    - A call either returns, throws, or is still running when a step
      budget is used up: type [outcome].  Only unbounded loops
      ([while]) take a budget.
    - Arrays are lists; [a[i]] is the lookup [a !! i], [a[i] = v] is
      [<[i:=v]> a].
    - The limits of an engine (the call stack, the number of arguments
      of a spread call such as [Math.min(...dists)], memory) are not
      part of the model.
    - The state of a component is the record of its [useState] values
      and refs; a handler takes the state of the render it was created
      in to the state of the next render. *)

From Stdlib Require Import Reals Lra Lia ZArith.
From stdpp Require Import base decidable option list strings gmap.

(** ** Outcomes of a call *)

Inductive outcome (A : Type) : Type :=
| Done (a : A)           (* the call returned [a] *)
| Thrown (msg : string)  (* the call threw, e.g. a TypeError *)
| Spinning.              (* the step budget ran out inside a loop *)
Arguments Done {A} a.
Arguments Thrown {A} msg.
Arguments Spinning {A}.

#[global] Instance outcome_ret : MRet outcome := λ A a, Done a.
#[global] Instance outcome_bind : MBind outcome := λ A B f m,
  match m with
  | Done a => f a
  | Thrown msg => Thrown msg
  | Spinning => Spinning
  end.

#[global] Instance Rle_decision : RelDecision Rle := Rle_dec.
#[global] Instance Rlt_decision : RelDecision Rlt := Rlt_dec.
#[global] Instance Req_decision : EqDecision R := Req_dec_T.

(** ** AdvancedLesson.tsx *)

Module Advanced.

Inductive NormKey : Set := L1 | L2 | Linf.

Record Point : Type := mkPoint { x : R; y : R }.

(** [LabeledPoint extends Point]: a point and its [cluster];
    [-1] is noise. *)
Record LabeledPoint : Type := mkLabeled { point :> Point; cluster : Z }.

(** [Math.hypot(dx, dy)]. *)
Definition hypot (dx dy : R) : R := sqrt (dx * dx + dy * dy).

(** The [default: return 0] arm of the source is not reachable for a
    [NormKey]. *)
Definition calcDistance (a b : Point) (norm : NormKey) : R :=
  let dx := (x a - x b)%R in
  let dy := (y a - y b)%R in
  match norm with
  | L1 => (Rabs dx + Rabs dy)%R
  | L2 => hypot dx dy
  | Linf => Rmax (Rabs dx) (Rabs dy)
  end.

(** *** kMeans *)

(** [a[i]] for an index held in a number. *)
Definition at_index {A} (a : list A) (i : Z) : option A :=
  if bool_decide (0 ≤ i)%Z then a !! Z.to_nat i else None.

(** [{ ...points[idx] }].  For [undefined] the copy is [{}], an object
    without coordinates; that happens only when [points] is empty, and
    then no coordinate of a centroid is ever read. *)
Definition spread (o : option Point) : Point := default (mkPoint 0 0) o.

(** The random seeding of [kMeans]: the [while (cs.length < k)] loop.
    [random d] is what the [d]-th call of [Math.random()] returns;
    [seen] is the [Set] of indices already taken. *)
Fixpoint seedLoop (fuel : nat) (random : nat → R) (points : list Point) (k : Z)
    (draw : nat) (cs : list Point) (seen : gset Z) : outcome (list Point) :=
  if bool_decide (Z.of_nat (length cs) < k)%Z then
    match fuel with
    | O => Spinning
    | S fuel' =>
        let idx := Zfloor (random draw * INR (length points)) in
        if bool_decide (idx ∈ seen)
        then seedLoop fuel' random points k (S draw) cs seen
        else seedLoop fuel' random points k (S draw)
               (cs ++ [spread (at_index points idx)]) ({[idx]} ∪ seen)
    end
  else Done cs.

(** [const centroids = initialCentroids && initialCentroids.length === k
      ? initialCentroids.map((c) => ({ ...c })) : (() => { ... })()]. *)
Definition initCentroids (fuel : nat) (random : nat → R) (points : list Point)
    (k : Z) (initialCentroids : option (list Point)) : outcome (list Point) :=
  match initialCentroids with
  | Some ic =>
      if bool_decide (Z.of_nat (length ic) = k)
      then Done (map (λ c, mkPoint (x c) (y c)) ic)
      else seedLoop fuel random points k 0 [] ∅
  | None => seedLoop fuel random points k 0 [] ∅
  end.

(** [Math.min(...dists)]; [None] is [Infinity], the minimum of no
    numbers. *)
Definition Math_min (dists : list R) : option R :=
  match dists with
  | [] => None
  | d :: ds => Some (foldl Rmin d ds)
  end.

(** [dists.indexOf(v)], scanning from index [i]; [-1] when absent. *)
Fixpoint indexOfFrom (v : R) (dists : list R) (i : Z) : Z :=
  match dists with
  | [] => (-1)%Z
  | d :: ds => if bool_decide (d = v) then i else indexOfFrom v ds (i + 1)%Z
  end.

Definition indexOf (dists : list R) (v : option R) : Z :=
  match v with
  | Some m => indexOfFrom m dists 0
  | None => (-1)%Z
  end.

(** [dists.indexOf(Math.min(...dists))] for the point [p]. *)
Definition minIdx (p : Point) (centroids : list Point) (norm : NormKey) : Z :=
  let dists := map (λ c, calcDistance p c norm) centroids in
  indexOf dists (Math_min dists).

(** The assignment loop, [for (let i = 0; i < points.length; i++)],
    from index [i] on; [rest] are the points from [i] on. *)
Fixpoint assignLoop (centroids : list Point) (norm : NormKey) (i : nat)
    (rest : list Point) (labels : list Z) (changed : bool) : list Z * bool :=
  match rest with
  | [] => (labels, changed)
  | p :: rest' =>
      let m := minIdx p centroids norm in
      if bool_decide (labels !! i = Some m)
      then assignLoop centroids norm (S i) rest' labels changed
      else assignLoop centroids norm (S i) rest' (<[i:=m]> labels) true
  end.

Definition assignment (points centroids : list Point) (norm : NormKey)
    (labels : list Z) : list Z * bool :=
  assignLoop centroids norm 0 points labels false.

(** An entry of [sums]: [{ x, y, n }]. *)
Record Sum : Type := mkSum { sum_x : R; sum_y : R; sum_n : nat }.

(** [labels.forEach((lbl, idx) => { const p = points[idx];
      sums[lbl].x += p.x; ... })] from index [idx] on.  Reading a
    property of [undefined] throws. *)
Fixpoint accumulate (points : list Point) (idx : nat) (labels : list Z)
    (sums : list Sum) : outcome (list Sum) :=
  match labels with
  | [] => Done sums
  | lbl :: labels' =>
      match points !! idx, at_index sums lbl with
      | Some p, Some s =>
          accumulate points (S idx) labels'
            (<[Z.to_nat lbl := mkSum (sum_x s + x p) (sum_y s + y p) (S (sum_n s))]> sums)
      | _, _ => Thrown "TypeError: Cannot read properties of undefined"
      end
  end.

(** [sums.forEach((s, idx) => { if (s.n > 0) centroids[idx] = ... })]
    from index [idx] on.  Both arrays have length [k], so the write is
    always in range. *)
Fixpoint recentre (idx : nat) (sums : list Sum) (centroids : list Point)
    : list Point :=
  match sums with
  | [] => centroids
  | s :: sums' =>
      recentre (S idx) sums'
        (if bool_decide (0 < sum_n s)
         then <[idx := mkPoint (sum_x s / INR (sum_n s)) (sum_y s / INR (sum_n s))]> centroids
         else centroids)
  end.

(** The update step of one round. *)
Definition update (points : list Point) (k : Z) (labels : list Z)
    (centroids : list Point) : outcome (list Point) :=
  sums ← accumulate points 0 labels (replicate (Z.to_nat k) (mkSum 0 0 0));
  mret (recentre 0 sums centroids).

(** [for (let iter = 0; iter < maxIter; iter++)]. *)
Fixpoint lloyd (points : list Point) (k : Z) (norm : NormKey) (maxIter : nat)
    (centroids : list Point) (labels : list Z) : outcome (list Z) :=
  match maxIter with
  | O => Done labels
  | S maxIter' =>
      let '(labels', changed) := assignment points centroids norm labels in
      if negb changed then Done labels'
      else
        centroids' ← update points k labels' centroids;
        lloyd points k norm maxIter' centroids' labels'
  end.

(** [kMeans(points, k, norm, initialCentroids?, maxIter = 50)], for an
    integer [k]. *)
Definition kMeans (fuel : nat) (random : nat → R) (points : list Point) (k : Z)
    (norm : NormKey) (initialCentroids : option (list Point))
    (maxIter : option nat) : outcome (list LabeledPoint) :=
  if bool_decide (k ≤ 0)%Z then Done (map (λ p, mkLabeled p 0) points)
  else
    centroids ← initCentroids fuel random points k initialCentroids;
    labels ← lloyd points k norm (default 50 maxIter) centroids
               (replicate (length points) 0%Z);
    mret (zip_with mkLabeled points labels).

(** The rounds a run goes through (not in the source): for each round
    the centroids it starts from and the labels its assignment step
    leaves. *)
Fixpoint lloydRounds (points : list Point) (k : Z) (norm : NormKey)
    (maxIter : nat) (centroids : list Point) (labels : list Z)
    : list (list Point * list Z) :=
  match maxIter with
  | O => []
  | S maxIter' =>
      let '(labels', changed) := assignment points centroids norm labels in
      (centroids, labels') ::
      (if negb changed then []
       else match update points k labels' centroids with
            | Done centroids' => lloydRounds points k norm maxIter' centroids' labels'
            | _ => []
            end)
  end.

Definition kMeansRounds (fuel : nat) (random : nat → R) (points : list Point)
    (k : Z) (norm : NormKey) (initialCentroids : option (list Point))
    (maxIter : option nat) : list (list Point * list Z) :=
  if bool_decide (k ≤ 0)%Z then []
  else match initCentroids fuel random points k initialCentroids with
       | Done centroids =>
           lloydRounds points k norm (default 50 maxIter) centroids
             (replicate (length points) 0%Z)
       | _ => []
       end.

(** *** dbscan *)

Definition UNVISITED : Z := (-99)%Z.
Definition NOISE : Z := (-1)%Z.

(** [regionQuery(idx)]: the loop [for (let j = 0; j < points.length;
    j++)] from [j] on, for [a = points[idx]]. *)
Fixpoint regionQueryFrom (eps : R) (norm : NormKey) (a : Point) (j : nat)
    (rest : list Point) : list nat :=
  match rest with
  | [] => []
  | b :: rest' =>
      if bool_decide (calcDistance a b norm <= eps)%R
      then j :: regionQueryFrom eps norm a (S j) rest'
      else regionQueryFrom eps norm a (S j) rest'
  end.

(** [regionQuery] is only called with an index of [points]. *)
Definition regionQuery (points : list Point) (eps : R) (norm : NormKey)
    (idx : nat) : list nat :=
  match points !! idx with
  | Some a => regionQueryFrom eps norm a 0 points
  | None => []
  end.

(** [while (seedSet.length > 0)]: one unit of [fuel] per iteration. *)
Fixpoint expand (fuel : nat) (points : list Point) (eps : R) (minPts : Z)
    (norm : NormKey) (clusterId : Z) (labels : list Z) (seedSet : list nat)
    : option (list Z) :=
  match seedSet with
  | [] => Some labels
  | current :: seedSet' =>
      match fuel with
      | O => None
      | S fuel' =>
          let labels1 :=
            if bool_decide (labels !! current = Some NOISE)
            then <[current := clusterId]> labels else labels in
          if bool_decide (labels1 !! current ≠ Some UNVISITED)
          then expand fuel' points eps minPts norm clusterId labels1 seedSet'
          else
            let labels2 := <[current := clusterId]> labels1 in
            let currentNeighbors := regionQuery points eps norm current in
            if bool_decide (minPts ≤ Z.of_nat (length currentNeighbors))%Z
            then expand fuel' points eps minPts norm clusterId labels2
                   (seedSet' ++
                    (filter (λ n, (n ∉ seedSet') ∧ labels2 !! n = Some UNVISITED)
                            currentNeighbors))
            else expand fuel' points eps minPts norm clusterId labels2 seedSet'
      end
  end.

(** [for (let i = 0; i < points.length; i++)], over the indices
    [todo] still to come. *)
Fixpoint scan (fuel : nat) (points : list Point) (eps : R) (minPts : Z)
    (norm : NormKey) (todo : list nat) (labels : list Z) (clusterId : Z)
    : option (list Z) :=
  match todo with
  | [] => Some labels
  | i :: todo' =>
      if bool_decide (labels !! i ≠ Some UNVISITED)
      then scan fuel points eps minPts norm todo' labels clusterId
      else
        let neighbors := regionQuery points eps norm i in
        if bool_decide (Z.of_nat (length neighbors) < minPts)%Z
        then scan fuel points eps minPts norm todo' (<[i := NOISE]> labels) clusterId
        else
          match expand fuel points eps minPts norm clusterId
                  (<[i := clusterId]> labels) (filter (λ n, n ≠ i) neighbors) with
          | None => None
          | Some labels' =>
              scan fuel points eps minPts norm todo' labels' (clusterId + 1)%Z
          end
  end.

(** Every [while] loop of a run on [n] points ends within this many
    iterations (lemma [expand_total]). *)
Definition budget (n : nat) : nat := S n * S n.

Definition dbscan (points : list Point) (eps : R) (minPts : Z) (norm : NormKey)
    : outcome (list LabeledPoint) :=
  match scan (budget (length points)) points eps minPts norm
          (seq 0 (length points)) (replicate (length points) UNVISITED) 0%Z with
  | None => Spinning
  | Some labels => Done (zip_with mkLabeled points labels)
  end.

End Advanced.

(** ** IntroductoryLesson.tsx *)

Module Intro.

(** *** The world a call runs in

    A function [() => number] such as [Math.random] or the closure
    that [mulberry32] returns reads and writes state that outlives the
    call.  [cells] holds the captured variables of the closures
    created so far, [draws] counts the calls of [Math.random()]
    made so far. *)
Record World : Type := mkWorld { cells : gmap nat Z; draws : nat }.

Definition RandomFn : Type := World → R * World.

(** [Math.random]: the [d]-th call returns [ambient d]. *)
Definition Math_random (ambient : nat → R) : RandomFn :=
  λ w, (ambient (draws w), mkWorld (cells w) (S (draws w))).

(** *** mulberry32 *)

Definition toInt32 (n : Z) : Z := ((n + 2 ^ 31) mod 2 ^ 32 - 2 ^ 31)%Z.
Definition toUint32 (n : Z) : Z := (n mod 2 ^ 32)%Z.

(** [Math.imul(a, b)], [a ^ b], [a | b], [a >>> n]. *)
Definition imul (a b : Z) : Z := toInt32 (toInt32 a * toInt32 b).
Definition xor32 (a b : Z) : Z := toInt32 (Z.lxor (toInt32 a) (toInt32 b)).
Definition or32 (a b : Z) : Z := toInt32 (Z.lor (toInt32 a) (toInt32 b)).
Definition ushr (a n : Z) : Z := Z.shiftr (toUint32 a) n.

(** The number a call of the closure returns, from the value [a] has
    after [a += 0x6d2b79f5]. *)
Definition mulberry32_mix (a : Z) : R :=
  let t := a in
  let t := imul (xor32 t (ushr t 15)) (or32 t 1) in
  let t := xor32 t (t + imul (xor32 t (ushr t 7)) (or32 t 61))%Z in
  (IZR (ushr (xor32 t (ushr t 14)) 0) / 4294967296)%R.

(** The closure [() => { let t = (a += 0x6d2b79f5); ... }] whose
    captured [a] is the cell [l].  [a] is a number, not an [int32]: it
    grows with every call (and is exact below 2^53). *)
Definition mulberry32_next (l : nat) : RandomFn :=
  λ w, let a := (default 0 (cells w !! l) + 0x6d2b79f5)%Z in
       (mulberry32_mix a, mkWorld (<[l := a]> (cells w)) (draws w)).

(** [mulberry32(a)]: a new cell for [a], and the closure over it. *)
Definition mulberry32 (a : Z) : World → RandomFn * World :=
  λ w, let l := fresh (dom (cells w)) in
       (mulberry32_next l, mkWorld (<[l := a]> (cells w)) (draws w)).

(** *** Points *)

(** [{ x: number; y: number }]. *)
Record XY : Type := mkXY { x : R; y : R }.

(** [interface Point]; [isCorrect] is [None] while [undefined]. *)
Record Point : Type := mkPoint {
  id : nat;
  xy :> XY;
  colour : option string;
  clusterId : Z;
  isCorrect : option bool
}.

(** [clamp(v, min, max)]. *)
Definition clamp (v min max : R) : R := Rmin (Rmax v min) max.

(** *** Array.prototype.sort

    The order [sort] leaves when the comparator is not consistent, and
    the calls of the comparator it makes, are up to the engine.  An
    engine is a plan: which two elements to compare next, given the
    numbers the comparator returned so far, and the final order. *)
Inductive SortPlan (A : Type) : Type :=
| Sorted (result : list A)
| Compare (a b : A) (next : R → SortPlan A).
Arguments Sorted {A} result.
Arguments Compare {A} a b next.

Fixpoint runPlan {A} (compareFn : A → A → World → R * World)
    (plan : SortPlan A) (w : World) : list A * World :=
  match plan with
  | Sorted result => (result, w)
  | Compare a b next =>
      let '(c, w') := compareFn a b w in runPlan compareFn (next c) w'
  end.

(** [a.slice(0, k)] and the length of [Array.from({ length: k }, f)]. *)
Definition slice0 {A} (a : list A) (k : Z) : list A :=
  if bool_decide (0 ≤ k)%Z then take (Z.to_nat k) a
  else take (Z.to_nat (Z.of_nat (length a) + k)) a.

Definition toLength (k : Z) : nat := Z.to_nat k.

(** *** runKMeans *)

(** An entry of [buckets]. *)
Record Bucket : Type := mkBucket { sumX : R; sumY : R; cnt : nat }.

(** [d < bestD], where [bestD] starts as [Infinity] ([None]). *)
Definition closer (d : R) (bestD : option R) : bool :=
  match bestD with
  | None => true
  | Some b => bool_decide (d < b)%R
  end.

(** [centres.forEach((c, idx) => { const d = ...; if (d < bestD)
    { closest = idx; bestD = d; } })] from index [idx] on. *)
Fixpoint closestFrom (p : XY) (idx : nat) (centres : list XY) (closest : nat)
    (bestD : option R) : nat :=
  match centres with
  | [] => closest
  | c :: centres' =>
      let d := ((x p - x c) ^ 2 + (y p - y c) ^ 2)%R in
      if closer d bestD
      then closestFrom p (S idx) centres' idx (Some d)
      else closestFrom p (S idx) centres' closest bestD
  end.

Definition nearestCentre (p : XY) (centres : list XY) : nat :=
  closestFrom p 0 centres 0 None.

Definition TypeError : string := "TypeError: Cannot read properties of undefined".

(** [pts.forEach((p) => { ...; buckets[closest].sumX += p.x; ... })]. *)
Fixpoint fillBuckets (centres : list XY) (pts : list XY) (buckets : list Bucket)
    : outcome (list Bucket) :=
  match pts with
  | [] => Done buckets
  | p :: pts' =>
      let closest := nearestCentre p centres in
      match buckets !! closest with
      | Some b =>
          fillBuckets centres pts'
            (<[closest := mkBucket (sumX b + x p) (sumY b + y p) (S (cnt b))]> buckets)
      | None => Thrown TypeError
      end
  end.

(** [centres.map((c, i) => buckets[i].cnt ? { x: ..., y: ... } : c)]
    from index [i] on. *)
Fixpoint moveCentres (i : nat) (centres : list XY) (buckets : list Bucket)
    : outcome (list XY) :=
  match centres with
  | [] => Done []
  | c :: centres' =>
      match buckets !! i with
      | Some b =>
          let c' := if bool_decide (cnt b ≠ 0)
                    then mkXY (sumX b / INR (cnt b)) (sumY b / INR (cnt b))
                    else c in
          rest ← moveCentres (S i) centres' buckets;
          mret (c' :: rest)
      | None => Thrown TypeError
      end
  end.

(** [for (let t = 0; t < iters; t++)]. *)
Fixpoint refine (iters : nat) (pts : list XY) (k : Z) (centres : list XY)
    : outcome (list XY) :=
  match iters with
  | O => Done centres
  | S iters' =>
      buckets ← fillBuckets centres pts (replicate (toLength k) (mkBucket 0 0 0));
      centres' ← moveCentres 0 centres buckets;
      refine iters' pts k centres'
  end.

Section Engine.

(** What [Math.random()] returns, call by call, and the engine's
    [sort]. *)
Variable ambient : nat → R.
Variable sortPlan : ∀ A : Type, list A → SortPlan A.

(** [runKMeans(pts, k, iters = 8, rnd = Math.random)]. *)
Definition runKMeans (pts : list XY) (k : Z) (iters : option nat)
    (rnd : option RandomFn) (w : World) : outcome (list XY) * World :=
  let rnd := default (Math_random ambient) rnd in
  let '(shuffled, w') :=
    runPlan (λ _ _ w, let '(r, w') := rnd w in ((0.5 - r)%R, w'))
            (sortPlan XY pts) w in
  let centres := map (λ p, mkXY (x p) (y p)) (slice0 shuffled k) in
  (refine (default 8 iters) pts k centres, w').

(** *** generatePoints *)

Definition CLUSTER_COUNT : Z := 3.
Definition PULL : R := (6 / 10)%R.
Definition X_MIN : R := 50.
Definition X_MAX : R := 430.
Definition Y_MIN : R := 50.
Definition Y_MAX : R := 270.

(** [Array.from({ length: n }, () => ({ x: rnd() * ..., y: rnd() * ... }))]. *)
Fixpoint throwPoints (rnd : RandomFn) (n : nat) (w : World) : list XY * World :=
  match n with
  | O => ([], w)
  | S n' =>
      let '(rx, w1) := rnd w in
      let '(ry, w2) := rnd w1 in
      let '(rest, w3) := throwPoints rnd n' w2 in
      (mkXY (rx * (X_MAX - X_MIN) + X_MIN) (ry * (Y_MAX - Y_MIN) + Y_MIN) :: rest, w3)
  end.

(** The body of [raw.map((p, id) => { ... })]. *)
Definition pull (centres : list XY) (p : XY) (id : nat) : outcome Point :=
  let cluster := nearestCentre p centres in
  match centres !! cluster with
  | Some c =>
      let x' := clamp (x p + (x c - x p) * PULL) X_MIN X_MAX in
      let y' := clamp (y p + (y c - y p) * PULL) Y_MIN Y_MAX in
      Done (mkPoint id (mkXY x' y') None (Z.of_nat cluster) None)
  | None => Thrown TypeError
  end.

Fixpoint pullAll (centres : list XY) (id : nat) (raw : list XY)
    : outcome (list Point) :=
  match raw with
  | [] => Done []
  | p :: raw' =>
      q ← pull centres p id;
      rest ← pullAll centres (S id) raw';
      mret (q :: rest)
  end.

(** [generatePoints(n = 10, k = CLUSTER_COUNT, rnd = Math.random)]. *)
Definition generatePoints (n : option Z) (k : option Z) (rnd : option RandomFn)
    (w : World) : outcome (list Point) * World :=
  let n := default 10%Z n in
  let k := default CLUSTER_COUNT k in
  let rnd := default (Math_random ambient) rnd in
  let '(raw, w1) := throwPoints rnd (toLength n) w in
  let '(centres, w2) := runKMeans raw k (Some 8) (Some rnd) w1 in
  (centres ← centres; pullAll centres 0 raw, w2).

(** [generatePoints(n, k, mulberry32(seed))], the way [INITIAL_POINTS]
    is computed. *)
Definition generate (n k seed : Z) (w : World) : outcome (list Point) * World :=
  let '(rnd, w1) := mulberry32 seed w in
  generatePoints (Some n) (Some k) (Some rnd) w1.

End Engine.

(** *** evaluate *)

(** A string is truthy unless it is empty; [null] is falsy. *)
Definition truthy (c : option string) : bool :=
  match c with
  | None => false
  | Some EmptyString => false
  | Some (String _ _) => true
  end.

(** [{ ...p, isCorrect: b }]. *)
Definition withCorrect (p : Point) (b : bool) : Point :=
  mkPoint (id p) (xy p) (colour p) (clusterId p) (Some b).

Definition sameClusterConsistent (pts : list Point) (p : Point) : bool :=
  forallb (λ q, bool_decide (clusterId q ≠ clusterId p)
                || bool_decide (colour q = colour p)) pts.

Definition noOtherClusterSharesColour (pts : list Point) (p : Point) : bool :=
  forallb (λ q, bool_decide (clusterId q = clusterId p)
                || bool_decide (colour q ≠ colour p)) pts.

(** The result [{ updated, correctCount }]. *)
Record Evaluation : Type := mkEvaluation { updated : list Point; correctCount : nat }.

Definition evaluate (pts : list Point) : Evaluation :=
  let updated :=
    map (λ p, if negb (truthy (colour p)) then withCorrect p false
              else withCorrect p (sameClusterConsistent pts p
                                  && noOtherClusterSharesColour pts p)) pts in
  mkEvaluation updated
    (length (filter (λ p, isCorrect p = Some true) updated)).

End Intro.

(** ** Arrays and objects by reference

    What a caller can observe of a call beyond the values: which of
    its objects and arrays were written, and whether what comes back is
    new.  Here [kMeans], [dbscan] and [evaluate] run on a heap of
    cells.  Every statement of the source that reads, creates or writes
    an object or an array of objects is a step on the heap, in the
    order of the source: [points[i]], [p.x], [{ ...p }],
    [a.map(...)], [cs.push(...)], [sums[lbl].x += ...],
    [centroids[idx] = ...].  Arrays of numbers ([labels], [dists],
    [neighbors], [seedSet]) and the [Set] [seen] hold no reference and
    are created inside the call: they stay values.  The numeric part of
    a statement ([calcDistance], [indexOf], [Math.min]) is the function
    of module [Advanced] or [Intro]. *)

Module Heap.

Abbreviation loc := nat (only parsing).

(** A cell holds an object or an array of references to objects. *)
Inductive cell (O : Type) : Type :=
| Obj (o : O)
| Arr (refs : list loc).
Arguments Obj {O} o.
Arguments Arr {O} refs.

Abbreviation heap O := (gmap loc (cell O)) (only parsing).

(** A program: from the heap it starts in to its outcome, with the
    heap it leaves. *)
Definition prog (O A : Type) : Type := heap O → outcome (A * heap O).

#[global] Instance prog_ret {O} : MRet (prog O) := λ A a h, Done (a, h).
#[global] Instance prog_bind {O} : MBind (prog O) := λ A B f m h,
  match m h with
  | Done (a, h') => f a h'
  | Thrown msg => Thrown msg
  | Spinning => Spinning
  end.

Definition TypeError : string := "TypeError: Cannot read properties of undefined".

Section Cells.
Context {O : Type}.

Definition throw {A} (msg : string) : prog O A := λ _, Thrown msg.
Definition spin {A} : prog O A := λ _, Spinning.

(** A new cell, at an address not in use. *)
Definition alloc (c : cell O) (h : heap O) : loc * heap O :=
  let l := fresh (dom h) in (l, <[l := c]> h).

(** [{ ... }] and [[...]]: a new object, a new array. *)
Definition newObject (o : O) : prog O loc := λ h, Done (alloc (Obj o) h).
Definition newArrayOf (refs : list loc) : prog O loc := λ h, Done (alloc (Arr refs) h).

(** Reading the properties of the object at [r], the elements of the
    array at [a]. *)
Definition getObject (r : loc) : prog O O := λ h,
  match h !! r with
  | Some (Obj o) => Done (o, h)
  | _ => Thrown TypeError
  end.

Definition getArray (a : loc) : prog O (list loc) := λ h,
  match h !! a with
  | Some (Arr refs) => Done (refs, h)
  | _ => Thrown TypeError
  end.

(** Writing properties of the object at [r]; writing the elements of
    the array at [a] ([a[i] = r'], [a.push(r')]). *)
Definition setObject (r : loc) (o : O) : prog O unit := λ h,
  match h !! r with
  | Some (Obj _) => Done (tt, <[r := Obj o]> h)
  | _ => Thrown TypeError
  end.

Definition setArray (a : loc) (refs : list loc) : prog O unit := λ h,
  match h !! a with
  | Some (Arr _) => Done (tt, <[a := Arr refs]> h)
  | _ => Thrown TypeError
  end.

(** The objects an array refers to, read one after the other. *)
Fixpoint getObjects (refs : list loc) : prog O (list O) :=
  match refs with
  | [] => mret []
  | r :: refs' => o ← getObject r; os ← getObjects refs'; mret (o :: os)
  end.

Definition readObjects (a : loc) : prog O (list O) :=
  refs ← getArray a; getObjects refs.

(** The callback of a [map] that returns a new object, on the
    elements [items], each with what the callback needs beside it (its
    index, its label). *)
Fixpoint newObjects {A} (f : A → O → prog O O) (items : list (A * loc))
    : prog O (list loc) :=
  match items with
  | [] => mret []
  | (x, r) :: items' =>
      o ← getObject r;
      o' ← f x o;
      r' ← newObject o';
      rest ← newObjects f items';
      mret (r' :: rest)
  end.

(** [a.map(f)], for an [f] that returns a new object. *)
Definition mapNew (f : nat → O → prog O O) (a : loc) : prog O loc :=
  refs ← getArray a;
  outs ← newObjects f (zip (seq 0 (length refs)) refs);
  newArrayOf outs.

(** [Array.from({ length: n }, () => ({ ... }))]. *)
Fixpoint arrayFrom (n : nat) (o : O) : prog O (list loc) :=
  match n with
  | 0 => mret []
  | S n' => r ← newObject o; rest ← arrayFrom n' o; mret (r :: rest)
  end.

Definition readObject (h : heap O) (r : loc) : option O :=
  match h !! r with
  | Some (Obj o) => Some o
  | _ => None
  end.

(** The objects an array refers to, in order. *)
Definition readArray (h : heap O) (a : loc) : option (list O) :=
  match h !! a with
  | Some (Arr refs) => mapM (readObject h) refs
  | _ => None
  end.

End Cells.

(** An object of AdvancedLesson.tsx: a [Point], a [LabeledPoint], or an
    entry [{ x, y, n }] of [sums]. *)
Inductive object : Type :=
| Plain (p : Advanced.Point)
| Labeled (lp : Advanced.LabeledPoint)
| Sums (s : Advanced.Sum).

(** The [x] and [y] of an object. *)
Definition asPoint (o : object) : Advanced.Point :=
  match o with
  | Plain p => p
  | Labeled lp => Advanced.point lp
  | Sums s => Advanced.mkPoint (Advanced.sum_x s) (Advanced.sum_y s)
  end.

(** [points.map((p, i) => ({ ...p, cluster: labels[i] }))]; [labels]
    has the length of [points]. *)
Definition mapLabelled (points : loc) (labels : list Z) : prog object loc :=
  refs ← getArray points;
  outs ← newObjects (λ label p, mret (Labeled (Advanced.mkLabeled (asPoint p) label)))
            (zip labels refs);
  newArrayOf outs.

(** *** kMeans *)

(** The seeding loop [while (cs.length < k)], on the new array [cs]. *)
Fixpoint seedLoop (fuel : nat) (random : nat → R) (points cs : loc) (k : Z)
    (draw : nat) (seen : gset Z) : prog object unit :=
  crefs ← getArray cs;
  if bool_decide (Z.of_nat (length crefs) < k)%Z then
    match fuel with
    | O => spin
    | S fuel' =>
        prefs ← getArray points;
        let idx := Zfloor (random draw * INR (length prefs)) in
        if bool_decide (idx ∈ seen)
        then seedLoop fuel' random points cs k (S draw) seen
        else
          o ← match Advanced.at_index prefs idx with
              | Some r => getObject r
              | None => mret (Plain (Advanced.spread None))
              end;
          r' ← newObject o;
          crefs ← getArray cs;
          setArray cs (crefs ++ [r']);;
          seedLoop fuel' random points cs k (S draw) ({[idx]} ∪ seen)
    end
  else mret tt.

(** [const centroids = initialCentroids && initialCentroids.length === k
      ? initialCentroids.map((c) => ({ ...c })) : (() => { ... })()]. *)
Definition initCentroids (fuel : nat) (random : nat → R) (points : loc) (k : Z)
    (initialCentroids : option loc) : prog object loc :=
  let seeded : prog object loc :=
    cs ← newArrayOf [];
    seedLoop fuel random points cs k 0 ∅;;
    mret cs in
  match initialCentroids with
  | Some a =>
      irefs ← getArray a;
      if bool_decide (Z.of_nat (length irefs) = k)
      then mapNew (λ _ c, mret c) a
      else seeded
  | None => seeded
  end.

(** The assignment loop over the elements [prefs] of [points], from
    index [i] on. *)
Fixpoint assignLoop (centroids : loc) (norm : Advanced.NormKey) (i : nat)
    (prefs : list loc) (labels : list Z) (changed : bool)
    : prog object (list Z * bool) :=
  match prefs with
  | [] => mret (labels, changed)
  | pr :: prefs' =>
      p ← getObject pr;
      cs ← readObjects centroids;
      let m := Advanced.minIdx (asPoint p) (asPoint <$> cs) norm in
      if bool_decide (labels !! i = Some m)
      then assignLoop centroids norm (S i) prefs' labels changed
      else assignLoop centroids norm (S i) prefs' (<[i:=m]> labels) true
  end.

(** [sums[lbl]], an entry of [sums]. *)
Definition getSums (r : loc) : prog object Advanced.Sum :=
  o ← getObject r;
  match o with
  | Sums s => mret s
  | _ => throw "TypeError: not an entry of sums"
  end.

(** [labels.forEach((lbl, idx) => { const p = points[idx];
      sums[lbl].x += p.x; sums[lbl].y += p.y; sums[lbl].n += 1; })]. *)
Fixpoint accumulate (points sums : loc) (idx : nat) (labels : list Z)
    : prog object unit :=
  match labels with
  | [] => mret tt
  | lbl :: labels' =>
      prefs ← getArray points;
      srefs ← getArray sums;
      match prefs !! idx, Advanced.at_index srefs lbl with
      | Some pr, Some sr =>
          p ← getObject pr;
          s ← getSums sr;
          setObject sr
            (Sums (Advanced.mkSum
                     (Advanced.sum_x s + Advanced.x (asPoint p))
                     (Advanced.sum_y s + Advanced.y (asPoint p))
                     (S (Advanced.sum_n s))));;
          accumulate points sums (S idx) labels'
      | _, _ => throw TypeError
      end
  end.

(** [sums.forEach((s, idx) => { if (s.n > 0) centroids[idx] =
      { x: s.x / s.n, y: s.y / s.n }; })].  [sums] and [centroids] both
    have [k] elements, so [idx] is an index of [centroids]. *)
Fixpoint recentre (centroids : loc) (idx : nat) (srefs : list loc)
    : prog object unit :=
  match srefs with
  | [] => mret tt
  | sr :: srefs' =>
      s ← getSums sr;
      (if bool_decide (0 < Advanced.sum_n s)
       then
         c ← newObject
               (Plain (Advanced.mkPoint
                         (Advanced.sum_x s / INR (Advanced.sum_n s))
                         (Advanced.sum_y s / INR (Advanced.sum_n s))));
         crefs ← getArray centroids;
         setArray centroids (<[idx := c]> crefs)
       else mret tt);;
      recentre centroids (S idx) srefs'
  end.

(** The update step of one round. *)
Definition update (points centroids : loc) (k : Z) (labels : list Z)
    : prog object unit :=
  srefs ← arrayFrom (Z.to_nat k) (Sums (Advanced.mkSum 0 0 0));
  sums ← newArrayOf srefs;
  accumulate points sums 0 labels;;
  srefs ← getArray sums;
  recentre centroids 0 srefs.

(** [for (let iter = 0; iter < maxIter; iter++)]. *)
Fixpoint lloyd (points centroids : loc) (k : Z) (norm : Advanced.NormKey)
    (maxIter : nat) (labels : list Z) : prog object (list Z) :=
  match maxIter with
  | O => mret labels
  | S maxIter' =>
      prefs ← getArray points;
      round ← assignLoop centroids norm 0 prefs labels false;
      if negb round.2 then mret round.1
      else
        update points centroids k round.1;;
        lloyd points centroids k norm maxIter' round.1
  end.

(** [kMeans(points, k, norm, initialCentroids?, maxIter = 50)], for an
    integer [k]. *)
Definition kMeans (fuel : nat) (random : nat → R) (points : loc) (k : Z)
    (norm : Advanced.NormKey) (initialCentroids : option loc)
    (maxIter : option nat) : prog object loc :=
  if bool_decide (k ≤ 0)%Z
  then mapNew (λ _ p, mret (Labeled (Advanced.mkLabeled (asPoint p) 0))) points
  else
    centroids ← initCentroids fuel random points k initialCentroids;
    prefs ← getArray points;
    labels ← lloyd points centroids k norm (default 50 maxIter)
               (replicate (length prefs) 0%Z);
    mapLabelled points labels.

(** *** dbscan *)

(** [regionQuery(idx)]: reads [points[idx]] and every [points[j]]. *)
Definition regionQuery (points : loc) (eps : R) (norm : Advanced.NormKey)
    (idx : nat) : prog object (list nat) :=
  pts ← readObjects points;
  mret (Advanced.regionQuery (asPoint <$> pts) eps norm idx).

Fixpoint expand (fuel : nat) (points : loc) (eps : R) (minPts : Z)
    (norm : Advanced.NormKey) (clusterId : Z) (labels : list Z)
    (seedSet : list nat) : prog object (list Z) :=
  match seedSet with
  | [] => mret labels
  | current :: seedSet' =>
      match fuel with
      | O => spin
      | S fuel' =>
          let labels1 :=
            if bool_decide (labels !! current = Some Advanced.NOISE)
            then <[current := clusterId]> labels else labels in
          if bool_decide (labels1 !! current ≠ Some Advanced.UNVISITED)
          then expand fuel' points eps minPts norm clusterId labels1 seedSet'
          else
            let labels2 := <[current := clusterId]> labels1 in
            currentNeighbors ← regionQuery points eps norm current;
            if bool_decide (minPts ≤ Z.of_nat (length currentNeighbors))%Z
            then expand fuel' points eps minPts norm clusterId labels2
                   (seedSet' ++
                    (filter (λ n, (n ∉ seedSet') ∧
                                  labels2 !! n = Some Advanced.UNVISITED)
                            currentNeighbors))
            else expand fuel' points eps minPts norm clusterId labels2 seedSet'
      end
  end.

Fixpoint scan (fuel : nat) (points : loc) (eps : R) (minPts : Z)
    (norm : Advanced.NormKey) (todo : list nat) (labels : list Z)
    (clusterId : Z) : prog object (list Z) :=
  match todo with
  | [] => mret labels
  | i :: todo' =>
      if bool_decide (labels !! i ≠ Some Advanced.UNVISITED)
      then scan fuel points eps minPts norm todo' labels clusterId
      else
        neighbors ← regionQuery points eps norm i;
        if bool_decide (Z.of_nat (length neighbors) < minPts)%Z
        then scan fuel points eps minPts norm todo'
               (<[i := Advanced.NOISE]> labels) clusterId
        else
          labels' ← expand fuel points eps minPts norm clusterId
                      (<[i := clusterId]> labels)
                      (filter (λ n, n ≠ i) neighbors);
          scan fuel points eps minPts norm todo' labels' (clusterId + 1)%Z
  end.

(** [dbscan(points, eps, minPts, norm)]. *)
Definition dbscan (points : loc) (eps : R) (minPts : Z)
    (norm : Advanced.NormKey) : prog object loc :=
  prefs ← getArray points;
  labels ← scan (Advanced.budget (length prefs)) points eps minPts norm
             (seq 0 (length prefs))
             (replicate (length prefs) Advanced.UNVISITED) 0%Z;
  mapLabelled points labels.

(** *** evaluate *)

(** The callback of [pts.map]: the two [pts.every(...)] read every
    element of [pts]. *)
Definition mark (pts : loc) (p : Intro.Point) : prog Intro.Point Intro.Point :=
  if negb (Intro.truthy (Intro.colour p)) then mret (Intro.withCorrect p false)
  else
    qs ← readObjects pts;
    mret (Intro.withCorrect p
            (Intro.sameClusterConsistent qs p
             && Intro.noOtherClusterSharesColour qs p)).

(** [evaluate(pts)] returns [{ updated, correctCount }]: the new array
    and the count.  [updated.filter(...)] makes an array of its own,
    of which the length is kept. *)
Definition evaluate (pts : loc) : prog Intro.Point (loc * nat) :=
  updated ← mapNew (λ _ p, mark pts p) pts;
  us ← readObjects updated;
  urefs ← getArray updated;
  let kept := filter (λ rp, Intro.isCorrect rp.2 = Some true) (zip urefs us) in
  newArrayOf kept.*1;;
  mret (updated, length kept).

(** What [mark] returns for [p] when [qs] are the points of [pts]. *)
Definition marked (qs : list Intro.Point) (p : Intro.Point) : Intro.Point :=
  if negb (Intro.truthy (Intro.colour p)) then Intro.withCorrect p false
  else Intro.withCorrect p
         (Intro.sameClusterConsistent qs p
          && Intro.noOtherClusterSharesColour qs p).

(** [out] is a fresh copy of the array [input]: nothing that was in
    the heap has changed, [out] and its elements are new cells, and the
    [i]-th element of [out] is [same] as the [i]-th element of
    [input]. *)
Definition freshCopy {O} (same : O → O → Prop) (h : heap O) (input : loc)
    (out : loc) (h' : heap O) : Prop :=
  h ⊆ h' ∧ h !! out = None ∧
  ∃ ins outs,
    h !! input = Some (Arr ins) ∧ h' !! out = Some (Arr outs) ∧
    length outs = length ins ∧ NoDup outs ∧
    ∀ i r, ins !! i = Some r →
      ∃ r' o o', outs !! i = Some r' ∧ h !! r' = None ∧
                 h !! r = Some (Obj o) ∧ h' !! r' = Some (Obj o') ∧ same o o'.

(** Every reference of [refs] is to an object of [h]. *)
Definition objectsAt {O} (h : heap O) (refs : list loc) : Prop :=
  Forall (λ r, ∃ o, h !! r = Some (Obj o)) refs.

(** [a] is an array of objects in [h]. *)
Definition arrayOf {O} (h : heap O) (a : loc) : Prop := is_Some (readArray h a).

(** The element of the result for an element of [points]: a labelled
    point with its coordinates. *)
Definition labelledCopy (o o' : object) : Prop :=
  ∃ lp, o' = Labeled lp ∧
        Advanced.x (Advanced.point lp) = Advanced.x (asPoint o) ∧
        Advanced.y (Advanced.point lp) = Advanced.y (asPoint o).

(** The element of [updated] for an element of [pts]: all of it but
    [isCorrect]. *)
Definition evaluatedCopy (p p' : Intro.Point) : Prop :=
  Intro.id p' = Intro.id p ∧
  Intro.x (Intro.xy p') = Intro.x (Intro.xy p) ∧
  Intro.y (Intro.xy p') = Intro.y (Intro.xy p) ∧
  Intro.colour p' = Intro.colour p ∧
  Intro.clusterId p' = Intro.clusterId p.

(** A heap with one array, at address 1, of one point, the origin. *)
Definition singleton : heap object :=
  <[1 := Arr [0]]> (<[0 := Obj (Plain (Advanced.mkPoint 0 0))]> ∅).

(** A heap with one array, at address 2, of two points. *)
Definition pair : heap object :=
  <[2 := Arr [0; 1]]>
    (<[1 := Obj (Plain (Advanced.mkPoint 3 4))]>
       (<[0 := Obj (Plain (Advanced.mkPoint 1 2))]> ∅)).

(** A heap of the exercise with one array, at address 2, of two
    points of different clusters: one coloured, one not yet. *)
Definition coloured : heap Intro.Point :=
  <[2 := Arr [0; 1]]>
    (<[1 := Obj (Intro.mkPoint 1 (Intro.mkXY 100 200) None 1 None)]>
       (<[0 := Obj (Intro.mkPoint 0 (Intro.mkXY 60 70) (Some "red") 0 None)]> ∅)).

End Heap.

(** ** Notions used in the statements *)

Module Notions.
Import Advanced.

(** The number of points [dbscan] has not visited yet. *)
Definition pending (labels : list Z) : nat :=
  length (filter (λ l, l = UNVISITED) labels).

(** How the labels of [dbscan] move: a label stays, or goes from
    "unvisited" or "noise" to noise or a cluster id. *)
Definition relabel (labels labels' : list Z) : Prop :=
  length labels' = length labels ∧
  ∀ j, labels' !! j = labels !! j ∨
       ∃ l c, labels !! j = Some l ∧ (l = UNVISITED ∨ l = NOISE) ∧
              labels' !! j = Some c ∧ (c = NOISE ∨ 0 ≤ c)%Z.

(** The point at index [i] is isolated: every other point is farther
    than [eps] from it. *)
Definition isolated (points : list Point) (eps : R) (norm : NormKey)
    (i : nat) : Prop :=
  ∃ p, points !! i = Some p ∧
       ∀ j q, j ≠ i → points !! j = Some q → (eps < calcDistance p q norm)%R.

(** [dbscan] returns, and labels the point at index [i] as noise. *)
Definition noiseAt (points : list Point) (eps : R) (minPts : Z)
    (norm : NormKey) (i : nat) : Prop :=
  ∃ result lp, dbscan points eps minPts norm = Done result ∧
               result !! i = Some lp ∧ cluster lp = NOISE.

(** A label of the output: noise, or a cluster id. *)
Definition finalLabel (l : Z) : Prop := l = NOISE ∨ (0 ≤ l)%Z.

(** [label] is the index of a centroid nearest to [p], and the first
    such index. *)
Definition nearestFirst (p : Point) (centroids : list Point) (norm : NormKey)
    (label : Z) : Prop :=
  ∃ j c, label = Z.of_nat j ∧ centroids !! j = Some c ∧
    (∀ j' c', centroids !! j' = Some c' →
       (calcDistance p c norm <= calcDistance p c' norm)%R) ∧
    (∀ j' c', j' < j → centroids !! j' = Some c' →
       (calcDistance p c norm < calcDistance p c' norm)%R).

(** What an assignment step must leave: every point labelled with its
    first nearest centroid. *)
Definition assigned (points : list Point) (norm : NormKey)
    (round : list Point * list Z) : Prop :=
  ∀ i p, points !! i = Some p →
    ∃ label, round.2 !! i = Some label ∧ nearestFirst p round.1 norm label.

(** The indices the first [d] draws of the random seeding give, for
    [n] points. *)
Definition drawn (random : nat → R) (n d : nat) : gset Z :=
  list_to_set ((λ j, Zfloor (random j * INR n)) <$> seq 0 d).

(** [Math.random()] returns a number in [0, 1). *)
Definition unitInterval (random : nat → R) : Prop :=
  ∀ d, (0 <= random d < 1)%R.

Definition origin : Point := mkPoint 0 0.

(** A call fails with an error. *)
Definition failsFast {A} (o : outcome A) : Prop := ∃ msg, o = Thrown msg.

End Notions.

Module Simulation.
Import Intro.

(** Two functions [() => number], each on its own world, that return
    the same numbers as long as the worlds are [related], and keep them
    so. *)
Definition inStep (related : World → World → Prop) (f g : RandomFn) : Prop :=
  ∀ w w', related w w' →
    (f w).1 = (g w').1 ∧ related (f w).2 (g w').2.

(** The captured variable of one closure in [w] holds what the captured
    variable of the other holds in [w']. *)
Definition sameCell (l l' : nat) (w w' : World) : Prop :=
  cells w !! l = cells w' !! l'.

End Simulation.

Module Validation.
Import Intro.

(** (a) every other point of the cluster of [p], the point at index
    [i], has the colour of [p]. *)
Definition clusterAgrees (pts : list Point) (i : nat) (p : Point) : Prop :=
  ∀ j q, j ≠ i → pts !! j = Some q →
    clusterId q = clusterId p → colour q = colour p.

(** (b) no point of another cluster has the colour of [p]. *)
Definition colourUnshared (pts : list Point) (p : Point) : Prop :=
  ∀ j q, pts !! j = Some q →
    clusterId q ≠ clusterId p → colour q ≠ colour p.

(** The point at index [i] of the result is marked correct. *)
Definition markedCorrect (e : Evaluation) (i : nat) : Prop :=
  ∃ q, updated e !! i = Some q ∧ isCorrect q = Some true.

(** The number of points of the result that are marked correct. *)
Definition numberCorrect (e : Evaluation) : nat :=
  length (filter (λ q, isCorrect q = Some true) (updated e)).

(** What the validator does on [pts], where [coloured] says which
    colours count as a colour. *)
Definition validates (coloured : option string → Prop) (pts : list Point) : Prop :=
  let e := evaluate pts in
  (∀ i p, pts !! i = Some p → coloured (colour p) →
     (markedCorrect e i ↔ clusterAgrees pts i p ∧ colourUnshared pts p)) ∧
  (∀ i p, pts !! i = Some p → ¬ coloured (colour p) → ¬ markedCorrect e i) ∧
  correctCount e = numberCorrect e ∧
  length (updated e) = length pts ∧
  Forall (λ q, isCorrect q ≠ None) (updated e).

(** Ten points in clusters of sizes 3, 3 and 4, coloured cluster by
    cluster with the three colours of the palette, but for point 0,
    which has the colour [first]. *)
Definition scatter (first : string) : list Point :=
  let red := "#e74c3c"%string in
  let yellow := "#f1c40f"%string in
  let green := "#2e7d32"%string in
  [mkPoint 0 (mkXY 60 60) (Some first) 0 None;
   mkPoint 1 (mkXY 70 65) (Some red) 0 None;
   mkPoint 2 (mkXY 65 80) (Some red) 0 None;
   mkPoint 3 (mkXY 300 200) (Some yellow) 1 None;
   mkPoint 4 (mkXY 310 210) (Some yellow) 1 None;
   mkPoint 5 (mkXY 305 190) (Some yellow) 1 None;
   mkPoint 6 (mkXY 400 60) (Some green) 2 None;
   mkPoint 7 (mkXY 410 70) (Some green) 2 None;
   mkPoint 8 (mkXY 405 80) (Some green) 2 None;
   mkPoint 9 (mkXY 395 75) (Some green) 2 None].

End Validation.

(** ** AdvancedLesson.tsx: datasets and chart helpers *)

Module Chart.
Import Advanced.

(** [generateCirclePoints(cx, cy, r, n)]: [Array.from({ length: n },
    (_, i) => ...)], with [Math.cos], [Math.sin] and [Math.PI] as the
    cosine, the sine and pi. *)
Definition generateCirclePoints (cx cy r : R) (n : Z) : list Point :=
  map (λ i : nat,
         let angle := (2 * PI * INR i / IZR n)%R in
         mkPoint (cx + r * cos angle) (cy + r * sin angle))
      (seq 0 (Z.to_nat n)).

Inductive DatasetKey : Set := dataset1 | dataset2.

(** [DATASETS[key].points]. *)
Definition DATASETS (key : DatasetKey) : list Point :=
  match key with
  | dataset1 =>
      generateCirclePoints 1 1 (12 / 10) 60 ++ generateCirclePoints 5 5 (12 / 10) 60
  | dataset2 =>
      generateCirclePoints 0 0 (15 / 10) 120 ++ generateCirclePoints 0 0 3 120
  end.

(** A [Map<number, Point[]>]: the entries, in the order the keys were
    first set. *)
Definition ClusterMap : Type := list (Z * list LabeledPoint).

(** [map.get(key)]. *)
Fixpoint mapGet (m : ClusterMap) (key : Z) : option (list LabeledPoint) :=
  match m with
  | [] => None
  | (k, v) :: m' => if bool_decide (k = key) then Some v else mapGet m' key
  end.

(** [map.set(key, v)]: a key that is there keeps its place. *)
Fixpoint mapSet (m : ClusterMap) (key : Z) (v : list LabeledPoint) : ClusterMap :=
  match m with
  | [] => [(key, v)]
  | (k, v') :: m' =>
      if bool_decide (k = key) then (k, v) :: m' else (k, v') :: mapSet m' key v
  end.

(** [splitIntoClusters(points)]: [arr = map.get(p.cluster) ?? [];
    arr.push(p); map.set(p.cluster, arr)] for each point. *)
Definition splitIntoClusters (points : list LabeledPoint) : ClusterMap :=
  foldl (λ m p,
           let arr := default [] (mapGet m (cluster p)) in
           mapSet m (cluster p) (arr ++ [p]))
        [] points.

Definition JITTER_STEP : R := (18 / 100)%R.

(** [jitterPoint(p, offsetIndex)]; [%] is the remainder with the sign of
    the dividend, [Math.floor(offsetIndex / 3)] the quotient rounded
    down. *)
Definition jitterPoint (p : Point) (offsetIndex : Z) : Point :=
  let dxFactor := (Z.rem offsetIndex 3 - 1)%Z in
  let dyFactor := (offsetIndex / 3 - 1)%Z in
  mkPoint (x p + IZR dxFactor * JITTER_STEP) (y p + IZR dyFactor * JITTER_STEP).

(** The points of the cluster [c], in input order. *)
Definition members (c : Z) (points : list LabeledPoint) : list LabeledPoint :=
  filter (λ p, cluster p = c) points.

End Chart.

(** ** Notions for the further properties of kMeans and dbscan *)

Module Clusters.
Import Advanced.

(** The sum of a list of numbers. *)
Definition total (l : list R) : R := foldr Rplus 0%R l.



(** [j] is a core point: at least [minPts] points, itself included, are
    within [eps] of it. *)
Definition core (points : list Point) (eps : R) (minPts : Z) (norm : NormKey)
    (j : nat) : Prop :=
  (minPts ≤ Z.of_nat (length (regionQuery points eps norm j)))%Z.

(** One step inside the cluster [c]: from a point of [c] to a point of
    [c] within [eps] of it. *)
Definition hop (points : list Point) (eps : R) (norm : NormKey)
    (labels : list Z) (c : Z) (j j' : nat) : Prop :=
  labels !! j = Some c ∧ labels !! j' = Some c ∧
  j' ∈ regionQuery points eps norm j.

(** The labels of [result]. *)
Definition labelsOf (result : list LabeledPoint) : list Z := cluster <$> result.

(** How the labels move while the cluster [c] grows: a label stays, or
    goes from "unvisited" or "noise" to [c]. *)
Definition joins (c : Z) (labels labels' : list Z) : Prop :=
  length labels' = length labels ∧
  ∀ j, labels' !! j = labels !! j ∨
       ((labels !! j = Some UNVISITED ∨ labels !! j = Some NOISE) ∧
        labels' !! j = Some c).

(** What holds of the labels when [n] clusters are complete: every
    label is "unvisited", noise or one of the ids below [n]; a noise
    point is not a core point; and every cluster has a core point from
    which each of its points is reached by hops inside the cluster. *)
Definition clustered (points : list Point) (eps : R) (minPts : Z)
    (norm : NormKey) (labels : list Z) (n : Z) : Prop :=
  (∀ j l, labels !! j = Some l →
          l = UNVISITED ∨ l = NOISE ∨ (0 ≤ l < n)%Z) ∧
  (∀ j, labels !! j = Some NOISE → ¬ core points eps minPts norm j) ∧
  (∀ c, (0 ≤ c < n)%Z →
     ∃ root, labels !! root = Some c ∧ core points eps minPts norm root ∧
             ∀ j, labels !! j = Some c →
                  rtc (hop points eps norm labels c) root j).

End Clusters.

(** ** What an engine's [sort] may do *)

Module Engines.
Import Intro.

(** [P] holds of every order a plan can end with, whatever the
    comparator returns. *)
Fixpoint everyLeaf {A} (P : list A → Prop) (plan : SortPlan A) : Prop :=
  match plan with
  | Sorted result => P result
  | Compare _ _ next => ∀ c, everyLeaf P (next c)
  end.

(** [sort] rearranges the array: the order it leaves may depend on the
    comparator, the elements do not. *)
Definition rearranges (sortPlan : ∀ A : Type, list A → SortPlan A) : Prop :=
  ∀ (A : Type) (l : list A), everyLeaf (λ result, result ≡ₚ l) (sortPlan A l).

(** The squared distance [(p.x - c.x) ** 2 + (p.y - c.y) ** 2] that
    [runKMeans] and [generatePoints] compare. *)
Definition squaredDistance (p c : XY) : R :=
  ((x p - x c) ^ 2 + (y p - y c) ^ 2)%R.

(** The numbers [n] calls of [rnd] return, one after the other. *)
Fixpoint callTimes (rnd : RandomFn) (n : nat) (w : World) : list R * World :=
  match n with
  | O => ([], w)
  | S n' =>
      let '(r, w1) := rnd w in
      let '(rest, w2) := callTimes rnd n' w1 in
      (r :: rest, w2)
  end.

End Engines.

(** ** IntroductoryLesson.tsx: the handlers of the exercise

    The state of the component is the tuple of its [useState] values.
    A handler runs on the state of the render it was created in and
    leaves the state of the next one; [setTimeout] calls are what it
    returns beside the state. *)

Module Exercise.
Import Intro.

Inductive Severity : Set := Success | Error.

Record Snackbar : Type := mkSnackbar {
  open : bool;
  message : string;
  severity : Severity
}.

Record Result : Type := mkResult {
  attempted : bool;
  success : bool;
  correctCount : nat
}.

Record State : Type := mkState {
  selectedColour : option string;
  points : list Point;
  snackbar : Snackbar;
  congratsOpen : bool;
  result : Result
}.

(** [setTimeout(() => { if (onComplete) onComplete(); }, delay)]. *)
Inductive Timeout : Set := CallOnComplete (delay : Z).

(** The state of the first render, over the scatter [initial]. *)
Definition mount (initial : list Point) : State :=
  mkState None initial (mkSnackbar false EmptyString Success) false
    (mkResult false false 0).

(** [handlePointClick(id)]. *)
Definition handlePointClick (id : nat) (s : State) : State :=
  if negb (truthy (selectedColour s)) then s
  else mkState (selectedColour s)
         (map (λ p, if bool_decide (Intro.id p = id)
                    then mkPoint (Intro.id p) (xy p) (selectedColour s)
                           (clusterId p) None
                    else p) (points s))
         (snackbar s) (congratsOpen s) (result s).

(** [handleRefresh()]. *)
Definition handleRefresh (s : State) : State :=
  mkState None
    (map (λ p, mkPoint (Intro.id p) (xy p) None (clusterId p) None) (points s))
    (snackbar s) (congratsOpen s) (mkResult false false 0).

(** [handleConfirm()]. *)
Definition handleConfirm (s : State) : State * list Timeout :=
  if existsb (λ p, negb (truthy (colour p))) (points s)
  then (mkState (selectedColour s) (points s)
          (mkSnackbar true "Please colour every point first!" Error)
          (congratsOpen s) (result s), [])
  else
    let e := evaluate (points s) in
    let allCorrect := bool_decide (Intro.correctCount e = length (points s)) in
    let result' := mkResult true allCorrect (Intro.correctCount e) in
    if allCorrect
    then (mkState (selectedColour s) (updated e) (snackbar s) true result',
          [CallOnComplete 2500])
    else (mkState (selectedColour s) (updated e) (snackbar s) (congratsOpen s)
            result', []).

(** What the user can do: click a swatch, click a point, press Refresh
    or Confirm, close one of the two snackbars. *)
Inductive Event : Type :=
| SelectColour (c : string)
| PointClick (id : nat)
| Refresh
| Confirm
| CloseSnackbar
| CloseCongrats.

Definition handle (e : Event) (s : State) : State :=
  match e with
  | SelectColour c =>
      mkState (Some c) (points s) (snackbar s) (congratsOpen s) (result s)
  | PointClick id => handlePointClick id s
  | Refresh => handleRefresh s
  | Confirm => (handleConfirm s).1
  | CloseSnackbar =>
      mkState (selectedColour s) (points s)
        (mkSnackbar false (message (snackbar s)) (severity (snackbar s)))
        (congratsOpen s) (result s)
  | CloseCongrats =>
      mkState (selectedColour s) (points s) (snackbar s) false (result s)
  end.

Definition run (events : list Event) (s : State) : State :=
  foldl (λ s e, handle e s) s events.

(** What the handlers leave alone: the id, the place and the hidden
    cluster of a point. *)
Definition geometry (p : Point) : nat * XY * Z := (Intro.id p, xy p, clusterId p).

End Exercise.

(** ** AdvancedLesson.tsx: the handlers of the playground

    The state of the component: its [useState] values and its two
    refs.  The three text fields are read through [parseInt] and
    [parseFloat]; a handler is given the numbers these return
    ([kParsed], [epsParsed], [minPtsParsed]), numbers being integers and
    reals here as everywhere else: a field that does not parse gives
    [NaN], which the model does not cover.  The id of a run,
    [`${Date.now()}-${Math.random().toString(36).slice(2, 7)}`], is
    given as [runId]; it takes the first random number of the call.
    [paramsDesc], a text made of the parameters, is kept as the
    parameters; the cache key [`${datasetKey}-${k}`] as the pair, and
    the empty key as [None]. *)

Module Playground.
Import Advanced Chart.

Inductive MethodKey : Set := KMeans | DBSCAN.

#[global] Instance DatasetKey_eq_dec : EqDecision DatasetKey.
Proof. solve_decision. Defined.

Definition COLORS : list string :=
  ["#1976d2"; "#d32f2f"; "#388e3c"; "#fbc02d"; "#7b1fa2"; "#0097a7"; "#5d4037"]%string.

Inductive Params : Type :=
| KParams (k : Z)
| DensityParams (eps : R) (minPts : Z).

Record SavedRun : Type := mkRun {
  id : string;
  dataset : DatasetKey;
  method : MethodKey;
  paramsDesc : Params;
  norm : NormKey;
  points : list LabeledPoint;
  visible : bool;
  colorSeed : Z;
  offsetIndex : Z
}.

Record State : Type := mkState {
  datasetKey : DatasetKey;
  methodKey : MethodKey;
  normKey : NormKey;
  runs : list SavedRun;
  warning : string;
  initialCentroidsRef : option (list Point);
  centroidKeyRef : option (DatasetKey * Z)
}.

(** The state of the first render. *)
Definition mount : State := mkState dataset1 KMeans L2 [] EmptyString None None.

Definition CAP_WARNING : string :=
  "You can save at most three results per dataset. Please delete some before adding new ones.".

(** [!initialCentroidsRef.current]: [null] is falsy, an array is not. *)
Definition isNull {A} (o : option A) : bool :=
  match o with
  | None => true
  | Some _ => false
  end.

(** [handleRun()].  [random d] is what the [d]-th call of
    [Math.random()] in this call returns: the call for the id is
    number 0, the seeding loop starts with number 1.  [kMeans] is given
    [k] centroids after a seeding and draws no number then; otherwise
    its first call of [Math.random()] would be number 1. *)
Definition handleRun (fuel : nat) (random : nat → R) (runId : string)
    (kParsed : Z) (epsParsed : R) (minPtsParsed : Z) (s : State)
    : outcome State :=
  let existingCount :=
    length (filter (λ r, dataset r = datasetKey s) (runs s)) in
  if bool_decide (3 ≤ existingCount)
  then Done (mkState (datasetKey s) (methodKey s) (normKey s) (runs s)
               CAP_WARNING (initialCentroidsRef s) (centroidKeyRef s))
  else
    let pts := DATASETS (datasetKey s) in
    let save (result : list LabeledPoint) (params : Params)
             (refs : option (list Point) * option (DatasetKey * Z)) : State :=
      mkState (datasetKey s) (methodKey s) (normKey s)
        (runs s ++
         [mkRun runId (datasetKey s) (methodKey s) params (normKey s) result true
            (Z.of_nat (length (runs s)) mod Z.of_nat (length COLORS))
            (Z.of_nat (length (runs s)) mod 9)])
        EmptyString refs.1 refs.2 in
    match methodKey s with
    | KMeans =>
        let k := Z.max 1 kParsed in
        let cacheKey := (datasetKey s, k) in
        refs ← (if negb (bool_decide (centroidKeyRef s = Some cacheKey))
                   || isNull (initialCentroidsRef s)
                then centroids ← seedLoop fuel random pts k 1 [] ∅;
                     mret (Some centroids, Some cacheKey)
                else mret (initialCentroidsRef s, centroidKeyRef s));
        result ← kMeans fuel (λ d, random (S d)) pts k (normKey s) refs.1 None;
        mret (save result (KParams k) refs)
    | DBSCAN =>
        let eps := Rmax (1 / 10000) epsParsed in
        let minPts := Z.max 1 minPtsParsed in
        result ← dbscan pts eps minPts (normKey s);
        mret (save result (DensityParams eps minPts)
                (initialCentroidsRef s, centroidKeyRef s))
    end.

(** [toggleRunVisibility(id)]. *)
Definition toggleRunVisibility (i : string) (prev : list SavedRun)
    : list SavedRun :=
  map (λ r, if bool_decide (id r = i)
            then mkRun (id r) (dataset r) (method r) (paramsDesc r) (norm r)
                   (points r) (negb (visible r)) (colorSeed r) (offsetIndex r)
            else r) prev.

(** [deleteRun(id)]. *)
Definition deleteRun (i : string) (prev : list SavedRun) : list SavedRun :=
  filter (λ r, id r ≠ i) prev.

(** [visibleRuns]. *)
Definition visibleRuns (s : State) : list SavedRun :=
  filter (λ r, dataset r = datasetKey s ∧ visible r = true) (runs s).

(** [v && setDatasetKey(v)], and the effect that runs when
    [datasetKey] has changed: it empties the cache and the warning. *)
Definition selectDataset (v : option DatasetKey) (s : State) : State :=
  match v with
  | Some key =>
      if bool_decide (key = datasetKey s) then s
      else mkState key (methodKey s) (normKey s) (runs s) EmptyString None None
  | None => s
  end.

(** [v && setMethodKey(v)] and [v && setNormKey(v)]. *)
Definition selectMethod (v : option MethodKey) (s : State) : State :=
  mkState (datasetKey s) (default (methodKey s) v) (normKey s) (runs s)
    (warning s) (initialCentroidsRef s) (centroidKeyRef s).

Definition selectNorm (v : option NormKey) (s : State) : State :=
  mkState (datasetKey s) (methodKey s) (default (normKey s) v) (runs s)
    (warning s) (initialCentroidsRef s) (centroidKeyRef s).

Definition withRuns (s : State) (rs : list SavedRun) : State :=
  mkState (datasetKey s) (methodKey s) (normKey s) rs
    (warning s) (initialCentroidsRef s) (centroidKeyRef s).

(** What the user can do. *)
Inductive Event : Type :=
| Run (fuel : nat) (random : nat → R) (runId : string)
      (kParsed : Z) (epsParsed : R) (minPtsParsed : Z)
| Toggle (i : string)
| Delete (i : string)
| SelectDataset (v : option DatasetKey)
| SelectMethod (v : option MethodKey)
| SelectNorm (v : option NormKey).

Definition handle (e : Event) (s : State) : outcome State :=
  match e with
  | Run fuel random runId kParsed epsParsed minPtsParsed =>
      handleRun fuel random runId kParsed epsParsed minPtsParsed s
  | Toggle i => Done (withRuns s (toggleRunVisibility i (runs s)))
  | Delete i => Done (withRuns s (deleteRun i (runs s)))
  | SelectDataset v => Done (selectDataset v s)
  | SelectMethod v => Done (selectMethod v s)
  | SelectNorm v => Done (selectNorm v s)
  end.

(** The states the component can be in. *)
Inductive reachable : State → Prop :=
| reachable_mount : reachable mount
| reachable_handle e s s' :
    reachable s → handle e s = Done s' → reachable s'.

(** The number of saved runs of a data set. *)
Definition saved (d : DatasetKey) (s : State) : nat :=
  length (filter (λ r, dataset r = d) (runs s)).

(** The run that [handleRun] appends. *)
Definition newRun (runId : string) (s : State) (params : Params)
    (result : list LabeledPoint) : SavedRun :=
  mkRun runId (datasetKey s) (methodKey s) params (normKey s) result true
    (Z.of_nat (length (runs s)) mod 7) (Z.of_nat (length (runs s)) mod 9).

(** What every state of the component satisfies. *)
Definition wellFormed (s : State) : Prop :=
  (∀ d, saved d s ≤ 3) ∧
  Forall (λ r, (0 ≤ offsetIndex r < 9)%Z ∧
               (0 ≤ colorSeed r < Z.of_nat (length COLORS))%Z ∧
               point <$> points r = DATASETS (dataset r)) (runs s) ∧
  (∀ d k, centroidKeyRef s = Some (d, k) →
     d = datasetKey s ∧ (1 ≤ k)%Z ∧
     ∃ cs, initialCentroidsRef s = Some cs ∧ Z.of_nat (length cs) = k).

End Playground.

(** * Properties *)

Section Metric.
Import Advanced.
Local Open Scope R_scope.

Lemma hypot_nonneg dx dy : 0 <= hypot dx dy.
Proof. apply sqrt_pos. Qed.

Lemma hypot_sqr dx dy : hypot dx dy * hypot dx dy = dx * dx + dy * dy.
Proof. unfold hypot. apply sqrt_sqrt. nra. Qed.

Lemma Rabs_sqr_eq r : Rabs r * Rabs r = r * r.
Proof. unfold Rabs. destruct (Rcase_abs r); lra. Qed.

Lemma hypot_ge_l dx dy : Rabs dx <= hypot dx dy.
Proof.
  pose proof (hypot_nonneg dx dy) as Hh.
  pose proof (hypot_sqr dx dy) as Hs.
  pose proof (Rabs_sqr_eq dx) as Ha.
  pose proof (Rabs_pos dx) as Hp.
  destruct (Rle_lt_dec (Rabs dx) (hypot dx dy)) as [|Hlt]; [done|].
  exfalso. nra.
Qed.

Lemma hypot_comm dx dy : hypot dx dy = hypot dy dx.
Proof. unfold hypot. f_equal. lra. Qed.

Lemma hypot_le_sum dx dy : hypot dx dy <= Rabs dx + Rabs dy.
Proof.
  pose proof (hypot_nonneg dx dy) as Hh.
  pose proof (hypot_sqr dx dy) as Hs.
  pose proof (Rabs_sqr_eq dx) as Ha.
  pose proof (Rabs_sqr_eq dy) as Hb.
  pose proof (Rabs_pos dx) as Hp.
  pose proof (Rabs_pos dy) as Hq.
  destruct (Rle_lt_dec (hypot dx dy) (Rabs dx + Rabs dy)) as [|Hlt]; [done|].
  exfalso. nra.
Qed.

Lemma calcDistance_nonneg a b m : 0 <= calcDistance a b m.
Proof.
  unfold calcDistance. destruct m.
  - pose proof (Rabs_pos (x a - x b)). pose proof (Rabs_pos (y a - y b)). lra.
  - apply hypot_nonneg.
  - eapply Rle_trans; [apply Rabs_pos|apply Rmax_l].
Qed.

Lemma calcDistance_sym a b m : calcDistance a b m = calcDistance b a m.
Proof.
  unfold calcDistance, hypot. destruct m.
  - by rewrite (Rabs_minus_sym (x a)), (Rabs_minus_sym (y a)).
  - f_equal. lra.
  - by rewrite (Rabs_minus_sym (x a)), (Rabs_minus_sym (y a)).
Qed.

Lemma calcDistance_zero_iff a b m : calcDistance a b m = 0 ↔ a = b.
Proof.
  destruct a as [ax ay], b as [bx b_y]. unfold calcDistance. simpl. split.
  - intros H0.
    assert (Rabs (ax - bx) = 0 ∧ Rabs (ay - b_y) = 0) as [Hx Hy].
    { pose proof (Rabs_pos (ax - bx)) as Hp. pose proof (Rabs_pos (ay - b_y)) as Hq.
      destruct m.
      - lra.
      - pose proof (hypot_ge_l (ax - bx) (ay - b_y)) as H1.
        pose proof (hypot_ge_l (ay - b_y) (ax - bx)) as H2.
        rewrite (hypot_comm (ay - b_y)) in H2. lra.
      - pose proof (Rmax_l (Rabs (ax - bx)) (Rabs (ay - b_y))).
        pose proof (Rmax_r (Rabs (ax - bx)) (Rabs (ay - b_y))). lra. }
    f_equal.
    + destruct (Req_dec (ax - bx) 0) as [|Hne]; [lra|].
      by apply Rabs_no_R0 in Hne.
    + destruct (Req_dec (ay - b_y) 0) as [|Hne]; [lra|].
      by apply Rabs_no_R0 in Hne.
  - intros [= -> ->]. unfold hypot.
    replace (bx - bx) with 0 by lra. replace (b_y - b_y) with 0 by lra.
    rewrite Rabs_R0. destruct m.
    + lra.
    + replace (0 * 0 + 0 * 0) with 0 by lra. apply sqrt_0.
    + apply Rmax_left. lra.
Qed.

(** The worked distances of the lessons. *)
Example manhattan_scenario : calcDistance (mkPoint 2 5) (mkPoint 6 1) L1 = 8.
Proof.
  unfold calcDistance. simpl. unfold Rabs.
  repeat destruct (Rcase_abs _); lra.
Qed.

Example euclidean_scenario : calcDistance (mkPoint 3 3) (mkPoint 7 6) L2 = 5.
Proof.
  unfold calcDistance, hypot. simpl.
  replace ((3 - 7) * (3 - 7) + (3 - 6) * (3 - 6)) with (5 * 5) by lra.
  apply sqrt_square. lra.
Qed.

Example chebyshev_scenario : calcDistance (mkPoint 0 2) (mkPoint 4 5) Linf = 4.
Proof.
  unfold calcDistance. simpl. unfold Rmax, Rabs.
  repeat destruct (Rcase_abs _); destruct (Rle_dec _ _); lra.
Qed.

(** C7: for every pair of 2D points, the Chebyshev distance is at most the
    Euclidean distance, which is at most the Manhattan distance. *)
Theorem C7_norm_ordering (a b : Point) :
  calcDistance a b Linf <= calcDistance a b L2 ∧
  calcDistance a b L2 <= calcDistance a b L1.
Proof.
  unfold calcDistance. split.
  - apply Rmax_lub; [apply hypot_ge_l|].
    rewrite hypot_comm. apply hypot_ge_l.
  - apply hypot_le_sum.
Qed.

(** C8: for every metric kind and all points a and b, the distance is
    defined (a real number, never negative), symmetric in its two points,
    and zero exactly when the two points are equal. *)
Theorem C8_metric_symmetric_zero (a b : Point) (m : NormKey) :
  (∃ d : R, calcDistance a b m = d ∧ 0 <= d) ∧
  calcDistance a b m = calcDistance b a m ∧
  (calcDistance a b m = 0 ↔ a = b).
Proof.
  split; [|split].
  - eexists. split; [reflexivity|]. apply calcDistance_nonneg.
  - apply calcDistance_sym.
  - apply calcDistance_zero_iff.
Qed.

End Metric.

(** ** dbscan *)

Section Dbscan.
Import Advanced Notions.

Variables (points : list Point) (eps : R) (minPts : Z) (norm : NormKey).

Lemma regionQueryFrom_elem a j rest i :
  i ∈ regionQueryFrom eps norm a j rest ↔
  ∃ b, j ≤ i ∧ rest !! (i - j) = Some b ∧ (calcDistance a b norm <= eps)%R.
Proof.
  revert j. induction rest as [|b rest IH]; intros j; simpl.
  - split; [by intros ?%elem_of_nil|by intros (? & ? & ? & ?)].
  - case_bool_decide as Hd.
    + rewrite elem_of_cons, IH. split.
      * intros [->|(c & Hle & Hc & Hdc)].
        -- exists b. by rewrite Nat.sub_diag.
        -- exists c. split; [lia|]. split; [|done].
           by replace (i - j) with (S (i - S j)) by lia.
      * intros (c & Hle & Hc & Hdc).
        destruct (decide (i = j)) as [->|Hne]; [by left|right].
        exists c. split; [lia|]. split; [|done].
        by replace (i - j) with (S (i - S j)) in Hc by lia.
    + rewrite IH. split.
      * intros (c & Hle & Hc & Hdc). exists c. split; [lia|]. split; [|done].
        by replace (i - j) with (S (i - S j)) by lia.
      * intros (c & Hle & Hc & Hdc).
        destruct (decide (i = j)) as [->|Hne].
        -- rewrite Nat.sub_diag in Hc. by simplify_eq/=.
        -- exists c. split; [lia|]. split; [|done].
           by replace (i - j) with (S (i - S j)) in Hc by lia.
Qed.

Lemma regionQueryFrom_length a j rest :
  length (regionQueryFrom eps norm a j rest) ≤ length rest.
Proof.
  revert j. induction rest as [|b rest IH]; intros j; simpl; [done|].
  case_bool_decide; simpl; specialize (IH (S j)); lia.
Qed.

Lemma regionQueryFrom_NoDup a j rest : NoDup (regionQueryFrom eps norm a j rest).
Proof.
  revert j. induction rest as [|b rest IH]; intros j; simpl; [constructor|].
  case_bool_decide; [|done]. constructor; [|done].
  rewrite regionQueryFrom_elem. intros (? & ? & _). lia.
Qed.

Lemma regionQuery_elem idx i :
  i ∈ regionQuery points eps norm idx ↔
  ∃ a b, points !! idx = Some a ∧ points !! i = Some b ∧
         (calcDistance a b norm <= eps)%R.
Proof.
  unfold regionQuery. destruct (points !! idx) as [a|] eqn:Ha.
  - rewrite regionQueryFrom_elem. rewrite Nat.sub_0_r. split.
    + intros (b & _ & ? & ?). by exists a, b.
    + intros (a' & b & ? & ? & ?). simplify_eq. exists b. split; [lia|done].
  - split; [by intros ?%elem_of_nil|by intros (? & ? & ? & _)].
Qed.

Lemma regionQuery_length idx :
  length (regionQuery points eps norm idx) ≤ length points.
Proof.
  unfold regionQuery. destruct (points !! idx); [|simpl; lia].
  apply regionQueryFrom_length.
Qed.

Lemma regionQuery_NoDup idx : NoDup (regionQuery points eps norm idx).
Proof.
  unfold regionQuery. destruct (points !! idx); [|constructor].
  apply regionQueryFrom_NoDup.
Qed.

Lemma pending_le labels : pending labels ≤ length labels.
Proof. apply length_filter. Qed.

Lemma pending_insert_visited labels i l c :
  labels !! i = Some l → l ≠ UNVISITED → c ≠ UNVISITED →
  pending (<[i := c]> labels) = pending labels.
Proof.
  unfold pending. revert i. induction labels as [|l0 labels IH]; intros [|i]; simpl; try done.
  - intros [= ->] Hl Hc. rewrite !filter_cons. by rewrite !decide_False.
  - intros Hi Hl Hc. rewrite !filter_cons. specialize (IH i Hi Hl Hc).
    destruct (decide (l0 = UNVISITED)); simpl; by rewrite IH.
Qed.

Lemma pending_insert_unvisited labels i c :
  labels !! i = Some UNVISITED → c ≠ UNVISITED →
  S (pending (<[i := c]> labels)) = pending labels.
Proof.
  unfold pending. revert i. induction labels as [|l0 labels IH]; intros [|i]; simpl; try done.
  - intros [= ->] Hc. rewrite !filter_cons. rewrite decide_False by done.
    by rewrite decide_True by done.
  - intros Hi Hc. rewrite !filter_cons. specialize (IH i Hi Hc).
    destruct (decide (l0 = UNVISITED)); simpl; by rewrite <- IH.
Qed.

Lemma relabel_refl labels : relabel labels labels.
Proof. split; [done|]. intros j. by left. Qed.

Lemma relabel_trans l1 l2 l3 : relabel l1 l2 → relabel l2 l3 → relabel l1 l3.
Proof.
  intros [Hlen1 H1] [Hlen2 H2]. split; [congruence|]. intros j.
  destruct (H2 j) as [E2|(l & c & Hl & Hfrom & Hc & Hto)].
  - rewrite E2. apply H1.
  - destruct (H1 j) as [E1|(l' & c' & Hl' & Hfrom' & Hc' & Hto')].
    + right. exists l, c. by rewrite <- E1.
    + right. by exists l', c.
Qed.

Lemma relabel_insert labels i l c :
  labels !! i = Some l → l = UNVISITED ∨ l = NOISE → (c = NOISE ∨ 0 ≤ c)%Z →
  relabel labels (<[i := c]> labels).
Proof.
  intros Hi Hl Hc. split; [apply length_insert|]. intros j.
  destruct (decide (i = j)) as [<-|Hne].
  - right. exists l, c. split; [done|]. split; [done|]. split; [|done].
    apply list_lookup_insert_eq. by eapply lookup_lt_Some.
  - left. by apply list_lookup_insert_ne.
Qed.

Lemma relabel_visited labels labels' j :
  relabel labels labels' → labels !! j ≠ Some UNVISITED →
  labels' !! j ≠ Some UNVISITED.
Proof.
  intros [_ H] Hj. destruct (H j) as [->|(l & c & Hl & Hfrom & -> & Hto)]; [done|].
  unfold UNVISITED, NOISE in *. intros [= ->]. lia.
Qed.

Lemma expand_relabel fuel clusterId labels seedSet labels' :
  (0 ≤ clusterId)%Z →
  expand fuel points eps minPts norm clusterId labels seedSet = Some labels' →
  relabel labels labels'.
Proof.
  intros Hc. revert labels seedSet.
  induction fuel as [|fuel IH]; intros labels [|current seedSet]; simpl;
    try (intros [= <-]; apply relabel_refl); try done.
  set (labels1 := if bool_decide (labels !! current = Some NOISE)
                  then <[current := clusterId]> labels else labels).
  assert (relabel labels labels1) as H1.
  { unfold labels1. case_bool_decide as Hn; [|apply relabel_refl].
    eapply relabel_insert; eauto. }
  case_bool_decide as Hv.
  - intros ?%IH. by eapply relabel_trans.
  - assert (relabel labels1 (<[current := clusterId]> labels1)) as H2.
    { eapply relabel_insert; eauto. }
    case_bool_decide; intros ?%IH; eapply relabel_trans; eauto;
      eapply relabel_trans; eauto.
Qed.

Lemma expand_total fuel clusterId labels seedSet :
  (0 ≤ clusterId)%Z →
  pending labels * S (length points) + length seedSet ≤ fuel →
  is_Some (expand fuel points eps minPts norm clusterId labels seedSet).
Proof.
  intros Hc. assert (clusterId ≠ UNVISITED) as Hcu by (unfold UNVISITED; lia).
  revert labels seedSet.
  induction fuel as [|fuel IH]; intros labels [|current seedSet]; simpl;
    try done; try (intros; lia).
  intros Hfuel.
  set (labels1 := if bool_decide (labels !! current = Some NOISE)
                  then <[current := clusterId]> labels else labels).
  assert (pending labels1 = pending labels) as Hp1.
  { unfold labels1. case_bool_decide as Hn; [|done].
    eapply pending_insert_visited; eauto. }
  case_bool_decide as Hv.
  - apply IH. lia.
  - pose proof (pending_insert_unvisited labels1 current clusterId Hv Hcu) as Hp2.
    case_bool_decide.
    + apply IH. rewrite length_app.
      pose proof (length_filter
        (λ n, (n ∉ seedSet) ∧ <[current:=clusterId]> labels1 !! n = Some UNVISITED)
        (regionQuery points eps norm current)) as Hf.
      pose proof (regionQuery_length current). nia.
    + apply IH. nia.
Qed.

(** A larger budget does not change what a loop returns. *)
Lemma expand_more_fuel fuel fuel' clusterId labels seedSet labels' :
  expand fuel points eps minPts norm clusterId labels seedSet = Some labels' →
  fuel ≤ fuel' →
  expand fuel' points eps minPts norm clusterId labels seedSet = Some labels'.
Proof.
  revert fuel' labels seedSet.
  induction fuel as [|fuel IH]; intros [|fuel'] labels [|current seedSet];
    simpl; try done; try (intros; lia).
  intros Hrun Hle. assert (fuel ≤ fuel') as Hle' by lia.
  repeat case_bool_decide; by apply IH.
Qed.

Lemma scan_more_fuel fuel fuel' todo labels clusterId labels' :
  scan fuel points eps minPts norm todo labels clusterId = Some labels' →
  fuel ≤ fuel' →
  scan fuel' points eps minPts norm todo labels clusterId = Some labels'.
Proof.
  intros Hrun Hle. revert labels clusterId Hrun.
  induction todo as [|i todo IH]; intros labels clusterId; simpl; [done|].
  case_bool_decide; [by apply IH|]. case_bool_decide; [by apply IH|].
  destruct (expand fuel _ _ _ _ _ _ _) as [labels2|] eqn:He; [|done].
  rewrite (expand_more_fuel _ _ _ _ _ _ He Hle). by apply IH.
Qed.

Lemma expand_untouched fuel clusterId labels seedSet labels' i :
  expand fuel points eps minPts norm clusterId labels seedSet = Some labels' →
  i ∉ seedSet → (∀ c, c ≠ i → i ∉ regionQuery points eps norm c) →
  labels' !! i = labels !! i.
Proof.
  intros Hrun Hi Hfar. revert labels seedSet Hrun Hi.
  induction fuel as [|fuel IH]; intros labels [|current seedSet]; simpl;
    try (by intros [= <-]); try done.
  intros Hrun [Hne Hi]%not_elem_of_cons.
  assert (current ≠ i) as Hne' by congruence.
  set (labels1 := if bool_decide (labels !! current = Some NOISE)
                  then <[current := clusterId]> labels else labels) in *.
  assert (labels1 !! i = labels !! i) as H1.
  { unfold labels1. destruct (bool_decide _); [|done].
    by apply list_lookup_insert_ne. }
  assert (<[current := clusterId]> labels1 !! i = labels !! i) as H2.
  { by rewrite list_lookup_insert_ne. }
  case_bool_decide.
  - rewrite <- H1. by eapply IH.
  - case_bool_decide.
    + rewrite <- H2. eapply IH; [done|].
      rewrite not_elem_of_app. split; [done|].
      rewrite list_elem_of_filter. intros [_ Hin]. by eapply Hfar.
    + rewrite <- H2. by eapply IH.
Qed.

Lemma scan_relabel fuel todo labels clusterId labels' :
  (0 ≤ clusterId)%Z →
  scan fuel points eps minPts norm todo labels clusterId = Some labels' →
  relabel labels labels'.
Proof.
  revert labels clusterId. induction todo as [|i todo IH]; intros labels clusterId Hc; simpl.
  - intros [= <-]. apply relabel_refl.
  - case_bool_decide as Hv; [by apply IH|].
    case_bool_decide.
    + intros ?%IH; [|done]. eapply relabel_trans; [|done].
      eapply relabel_insert; eauto.
    + destruct (expand _ _ _ _ _ _ _ _) as [labels2|] eqn:He; [|done].
      intros ?%IH; [|lia]. apply expand_relabel in He; [|done].
      eapply relabel_trans; [|done]. eapply relabel_trans; [|done].
      eapply relabel_insert; eauto.
Qed.

Lemma scan_visits fuel todo labels clusterId labels' i :
  (0 ≤ clusterId)%Z →
  scan fuel points eps minPts norm todo labels clusterId = Some labels' →
  i ∈ todo → labels' !! i ≠ Some UNVISITED.
Proof.
  revert labels clusterId. induction todo as [|i0 todo IH]; intros labels clusterId Hc; simpl.
  - by intros _ ?%elem_of_nil.
  - intros Hrun [->|Hin]%elem_of_cons.
    + revert Hrun. case_bool_decide as Hv.
      * intros ?%scan_relabel; [|done]. by eapply relabel_visited.
      * pose proof (lookup_lt_Some _ _ _ Hv) as Hlt.
        case_bool_decide.
        -- intros ?%scan_relabel; [|done]. eapply relabel_visited; [done|].
           rewrite list_lookup_insert_eq by done. done.
        -- destruct (expand _ _ _ _ _ _ _ _) as [labels2|] eqn:He; [|done].
           intros ?%scan_relabel; [|lia]. apply expand_relabel in He; [|done].
           eapply relabel_visited; [done|]. eapply relabel_visited; [done|].
           rewrite list_lookup_insert_eq by done.
           unfold UNVISITED. intros [= ->]. lia.
    + revert Hrun. case_bool_decide; [by eauto|]. case_bool_decide; [by eauto|].
      destruct (expand _ _ _ _ _ _ _ _) as [labels2|] eqn:He; [|done].
      intros Hrun. eapply IH; [|done..]. lia.
Qed.

Lemma scan_total fuel todo labels clusterId :
  (0 ≤ clusterId)%Z → length labels = length points →
  budget (length points) ≤ fuel →
  is_Some (scan fuel points eps minPts norm todo labels clusterId).
Proof.
  intros Hc Hlen Hfuel. revert labels clusterId Hc Hlen.
  induction todo as [|i todo IH]; intros labels clusterId Hc Hlen; simpl; [done|].
  case_bool_decide as Hv; [by apply IH|].
  case_bool_decide.
  - apply IH; [done|]. by rewrite length_insert.
  - destruct (expand_total fuel clusterId (<[i := clusterId]> labels)
                (filter (λ n, n ≠ i) (regionQuery points eps norm i)) Hc)
      as [labels2 He].
    { pose proof (pending_le (<[i := clusterId]> labels)) as Hp.
      rewrite length_insert, Hlen in Hp.
      pose proof (length_filter (λ n, n ≠ i) (regionQuery points eps norm i)).
      pose proof (regionQuery_length i).
      assert (S (pending (<[i := clusterId]> labels)) = pending labels) as Hp2.
      { apply pending_insert_unvisited; [done|]. unfold UNVISITED. lia. }
      pose proof (pending_le labels) as Hp3. rewrite Hlen in Hp3.
      unfold budget in Hfuel. nia. }
    rewrite He. apply IH; [lia|].
    apply expand_relabel in He as [-> _]; [|done]. by rewrite length_insert.
Qed.

Lemma scan_isolated fuel todo labels clusterId labels' i :
  isolated points eps norm i → (2 ≤ minPts)%Z → NoDup todo →
  scan fuel points eps minPts norm todo labels clusterId = Some labels' →
  (i ∈ todo → labels !! i = Some UNVISITED) →
  (i ∉ todo → labels !! i = Some NOISE) →
  labels' !! i = Some NOISE.
Proof.
  intros (p & Hp & Hiso) Hmin.
  assert (∀ c, c ≠ i → i ∉ regionQuery points eps norm c) as Hfar.
  { intros c Hc (a & b & Ha & Hb & Hd)%regionQuery_elem. simplify_eq.
    specialize (Hiso c a Hc Ha). rewrite calcDistance_sym in Hd. lra. }
  assert (length (regionQuery points eps norm i) ≤ 1) as Hself.
  { pose proof (regionQuery_NoDup i) as Hnd.
    assert (∀ j, j ∈ regionQuery points eps norm i → j = i) as Hall.
    { intros j (a & b & Ha & Hb & Hd)%regionQuery_elem. simplify_eq.
      destruct (decide (j = i)) as [|Hne]; [done|].
      specialize (Hiso j b Hne Hb). lra. }
    destruct (regionQuery points eps norm i) as [|j1 [|j2 l]]; simpl; [lia..|].
    exfalso. apply NoDup_cons in Hnd as [Hnd _]. apply Hnd.
    rewrite (Hall j1), (Hall j2); [left|set_solver..]. }
  revert labels clusterId.
  induction todo as [|i0 todo IH]; intros labels clusterId Hnd; simpl.
  - intros [= <-] _ Hout. apply Hout, not_elem_of_nil.
  - apply NoDup_cons in Hnd as [Hi0 Hnd]. intros Hrun Hin Hout.
    destruct (decide (i0 = i)) as [->|Hne].
    + assert (labels !! i = Some UNVISITED) as Hu by (apply Hin; left).
      rewrite bool_decide_eq_false_2 in Hrun by (intros Hv; by apply Hv).
      rewrite bool_decide_eq_true_2 in Hrun by lia.
      eapply IH; [done..| |]; [done|]. intros _.
      apply list_lookup_insert_eq. by eapply lookup_lt_Some.
    + assert (i ∈ todo → labels !! i = Some UNVISITED) as Hin'.
      { intros ?. apply Hin. by right. }
      assert (i ∉ todo → labels !! i = Some NOISE) as Hout'.
      { intros ?. apply Hout. rewrite not_elem_of_cons. split; [congruence|done]. }
      revert Hrun. case_bool_decide; [by eauto|]. case_bool_decide.
      * intros Hrun. eapply IH; [done..| |];
          rewrite list_lookup_insert_ne by done; done.
      * destruct (expand _ _ _ _ _ _ _ _) as [labels2|] eqn:He; [|done].
        intros Hrun.
        assert (labels2 !! i = labels !! i) as Heq.
        { erewrite expand_untouched; [|done| |done].
          - by rewrite list_lookup_insert_ne.
          - rewrite list_elem_of_filter. intros [_ ?]. by eapply Hfar. }
        eapply IH; [done..| |]; rewrite Heq; done.
Qed.

(** One step of the scan at a core point that has no neighbour but
    itself: it becomes a cluster of its own. *)
Lemma scan_core_alone fuel i todo labels clusterId :
  labels !! i = Some UNVISITED →
  (minPts ≤ Z.of_nat (length (regionQuery points eps norm i)))%Z →
  filter (λ n, n ≠ i) (regionQuery points eps norm i) = [] →
  scan fuel points eps minPts norm (i :: todo) labels clusterId =
  scan fuel points eps minPts norm todo (<[i := clusterId]> labels) (clusterId + 1)%Z.
Proof.
  intros Hu Hcore Halone. simpl.
  rewrite bool_decide_eq_false_2 by (intros Hv; by apply Hv).
  rewrite bool_decide_eq_false_2 by lia.
  rewrite Halone. by destruct fuel.
Qed.

(** The budget of [dbscan] is not observable: every budget that large
    gives the same labels. *)
Lemma scan_budget fuel todo labels clusterId :
  (0 ≤ clusterId)%Z → length labels = length points →
  budget (length points) ≤ fuel →
  scan fuel points eps minPts norm todo labels clusterId =
  scan (budget (length points)) points eps minPts norm todo labels clusterId.
Proof.
  intros Hc Hlen Hfuel.
  destruct (scan_total (budget (length points)) todo labels clusterId)
    as [labels' Hrun]; [done..|].
  rewrite Hrun. by eapply scan_more_fuel.
Qed.

(** [dbscan] returns on every input; the labels it returns. *)
Lemma dbscan_returns :
  ∃ labels,
    dbscan points eps minPts norm = Done (zip_with mkLabeled points labels) ∧
    scan (budget (length points)) points eps minPts norm
      (seq 0 (length points)) (replicate (length points) UNVISITED) 0%Z
      = Some labels ∧
    length labels = length points ∧
    Forall finalLabel labels.
Proof.
  destruct (scan_total (budget (length points)) (seq 0 (length points))
              (replicate (length points) UNVISITED) 0%Z) as [labels Hrun];
    [done|apply length_replicate|done|].
  exists labels. unfold dbscan. rewrite Hrun. split; [done|]. split; [done|].
  pose proof (scan_relabel _ _ _ _ _ (Z.le_refl 0) Hrun) as [Hlen Hstep].
  rewrite length_replicate in Hlen. split; [done|].
  apply Forall_lookup. intros j l Hj.
  assert (j < length points) as Hlt by (rewrite <- Hlen; by eapply lookup_lt_Some).
  destruct (Hstep j) as [Hsame|(l0 & c & _ & _ & Hc & Hfin)].
  - exfalso. eapply (scan_visits _ _ _ _ _ j (Z.le_refl 0) Hrun).
    + apply elem_of_seq. lia.
    + rewrite Hsame. by apply lookup_replicate_2.
  - by simplify_eq.
Qed.

End Dbscan.

Section DbscanClaims.
Import Advanced Notions.

Lemma dbscan_labelled points eps minPts norm :
  ∃ result,
    dbscan points eps minPts norm = Done result ∧
    length result = length points ∧
    Forall (λ lp, finalLabel (cluster lp) ∧ cluster lp ≠ UNVISITED) result.
Proof.
  destruct (dbscan_returns points eps minPts norm) as (labels & Hd & _ & Hlen & Hfin).
  eexists. split; [done|]. split.
  - rewrite length_zip_with. lia.
  - apply Forall_lookup. intros i lp (p & l & -> & Hp & Hl)%lookup_zip_with_Some.
    simpl. rewrite Forall_lookup in Hfin. specialize (Hfin i l Hl).
    split; [done|]. destruct Hfin as [->|?]; unfold UNVISITED, NOISE; lia.
Qed.

(** C4: for every input to densityCluster with eps > 0 and minPts ≥ 1,
    the call returns one labelled point per input point, and every label
    is -1 or a cluster id ≥ 0; the internal "unvisited" value -99 never
    appears in the output. *)
Theorem C4_dbscan_labels_final points eps minPts norm :
  (0 < eps)%R → (1 ≤ minPts)%Z →
  ∃ result,
    dbscan points eps minPts norm = Done result ∧
    length result = length points ∧
    Forall (λ lp, (cluster lp = (-1)%Z ∨ (0 ≤ cluster lp)%Z) ∧
                  cluster lp ≠ UNVISITED) result.
Proof. intros _ _. apply dbscan_labelled. Qed.

Lemma C4_witness :
  (0 < 1)%R ∧ (1 ≤ 4)%Z ∧
  ∃ result,
    dbscan [mkPoint 0 0; mkPoint 1 0] 1 4 L2 = Done result ∧
    length result = 2 ∧
    Forall (λ lp, (cluster lp = (-1)%Z ∨ (0 ≤ cluster lp)%Z) ∧
                  cluster lp ≠ UNVISITED) result.
Proof.
  split; [lra|]. split; [lia|].
  apply (C4_dbscan_labels_final [mkPoint 0 0; mkPoint 1 0] 1 4 L2); [lra|lia].
Defined.

(** C3, amended: for every input, every eps > 0, every minPts ≥ 2 and
    every metric, a point whose distance to every other point exceeds eps
    is labelled -1 in the output of densityCluster. *)
Theorem C3_isolated_point_is_noise points eps minPts norm i :
  (0 < eps)%R → (2 ≤ minPts)%Z →
  isolated points eps norm i → noiseAt points eps minPts norm i.
Proof.
  intros _ Hmin Hiso.
  destruct (dbscan_returns points eps minPts norm) as (labels & Hd & Hrun & Hlen & _).
  destruct Hiso as (p & Hp & Hiso).
  assert (labels !! i = Some NOISE) as Hl.
  { eapply scan_isolated; [by exists p|done|apply NoDup_seq|done| |].
    - intros _. apply lookup_replicate_2. by eapply lookup_lt_Some.
    - intros Hout. exfalso. apply Hout, elem_of_seq.
      apply lookup_lt_Some in Hp. lia. }
  exists (zip_with mkLabeled points labels), (mkLabeled p NOISE).
  split; [done|]. split; [|done].
  apply lookup_zip_with_Some. by exists p, NOISE.
Qed.

End DbscanClaims.

Section DbscanExamples.
Import Advanced Notions.

Lemma regionQuery_single p eps norm :
  regionQuery [p] eps norm 0 = if bool_decide (0 <= eps)%R then [0] else [].
Proof.
  unfold regionQuery. simpl.
  by rewrite (proj2 (calcDistance_zero_iff p p norm)).
Qed.

(** A single point, [eps = 1], [minPts = 1]: the point is its own
    cluster 0. *)
Lemma dbscan_single_minPts1 :
  dbscan [origin] 1 1 L1 = Done [mkLabeled origin 0].
Proof.
  assert (regionQuery [origin] 1 L1 0 = [0]) as Hq.
  { rewrite regionQuery_single. by rewrite bool_decide_eq_true_2 by lra. }
  unfold dbscan. simpl length. simpl seq. simpl replicate.
  rewrite scan_core_alone; rewrite ?Hq; done.
Qed.

(** A single point, [eps = -1], [minPts = 0]: no neighbourhood at all,
    and still cluster 0. *)
Lemma dbscan_single_out_of_domain :
  dbscan [origin] (-1) 0 L1 = Done [mkLabeled origin 0].
Proof.
  assert (regionQuery [origin] (-1) L1 0 = []) as Hq.
  { rewrite regionQuery_single. by rewrite bool_decide_eq_false_2 by lra. }
  unfold dbscan. simpl length. simpl seq. simpl replicate.
  rewrite scan_core_alone; rewrite ?Hq; done.
Qed.

Lemma C3_witness :
  (0 < 1)%R ∧ (2 ≤ 2)%Z ∧
  isolated [origin; mkPoint 5 0] 1 L1 0 ∧
  noiseAt [origin; mkPoint 5 0] 1 2 L1 0.
Proof.
  assert (isolated [origin; mkPoint 5 0] 1 L1 0) as Hiso.
  { exists origin. split; [done|]. intros [|[|j]] q Hj Hq; simplify_eq/=.
    unfold calcDistance. simpl. unfold Rabs.
    repeat destruct (Rcase_abs _); lra. }
  split; [lra|]. split; [lia|]. split; [exact Hiso|].
  apply (C3_isolated_point_is_noise [origin; mkPoint 5 0] 1 2 L1 0);
    [lra|lia|exact Hiso].
Defined.

(** C3 as stated fails for minPts = 1: a single point is isolated, and
    it is labelled with cluster id 0, not with -1. *)
Lemma C3_counterexample :
  (0 < 1)%R ∧ (1 ≤ 1)%Z ∧
  isolated [origin] 1 L1 0 ∧ ¬ noiseAt [origin] 1 1 L1 0.
Proof.
  split; [lra|]. split; [lia|]. split.
  - exists origin. split; [done|]. intros [|j] q Hj Hq; simplify_eq/=.
  - intros (result & lp & Hrun & Hlp & Hnoise).
    rewrite dbscan_single_minPts1 in Hrun. by simplify_eq/=.
Qed.

End DbscanExamples.

(** ** kMeans *)

Section KMeans.
Import Advanced Notions.

Lemma foldl_Rmin_le_init d ds : (foldl Rmin d ds <= d)%R.
Proof.
  revert d. induction ds as [|e ds IH]; intros d; simpl; [lra|].
  eapply Rle_trans; [apply IH|apply Rmin_l].
Qed.

Lemma foldl_Rmin_le d ds e : e ∈ ds → (foldl Rmin d ds <= e)%R.
Proof.
  revert d. induction ds as [|e0 ds IH]; intros d; simpl.
  - by intros ?%elem_of_nil.
  - intros [->|Hin]%elem_of_cons; [|by apply IH].
    eapply Rle_trans; [apply foldl_Rmin_le_init|apply Rmin_r].
Qed.

Lemma foldl_Rmin_elem d ds : foldl Rmin d ds ∈ d :: ds.
Proof.
  revert d. induction ds as [|e ds IH]; intros d; simpl; [left|].
  specialize (IH (Rmin d e)). apply elem_of_cons in IH as [->|Hin].
  - unfold Rmin. destruct (Rle_dec d e); [left|right; left].
  - right. by right.
Qed.

Lemma indexOfFrom_spec v dists i0 :
  v ∈ dists →
  ∃ n, indexOfFrom v dists i0 = (i0 + Z.of_nat n)%Z ∧ dists !! n = Some v ∧
       ∀ n', n' < n → dists !! n' ≠ Some v.
Proof.
  revert i0. induction dists as [|d dists IH]; intros i0; simpl.
  - by intros ?%elem_of_nil.
  - intros Hin. case_bool_decide as Hd.
    + exists 0. subst. split; [lia|]. split; [done|]. intros; lia.
    + apply elem_of_cons in Hin as [->|Hin]; [done|].
      destruct (IH (i0 + 1)%Z Hin) as (n & Hn & Hv & Hfirst).
      exists (S n). split; [lia|]. split; [done|].
      intros [|n'] Hlt; simpl; [congruence|]. apply Hfirst. lia.
Qed.

(** [dists.indexOf(Math.min(...dists))] is the first index of a nearest
    centroid, as soon as there is a centroid. *)
Lemma minIdx_spec p centroids norm :
  centroids ≠ [] → nearestFirst p centroids norm (minIdx p centroids norm).
Proof.
  intros Hne. unfold minIdx.
  set (dists := map (λ c, calcDistance p c norm) centroids).
  destruct dists as [|d ds] eqn:Hd.
  { destruct centroids; [done|discriminate]. }
  change (nearestFirst p centroids norm (indexOfFrom (foldl Rmin d ds) (d :: ds) 0)).
  pose proof (foldl_Rmin_elem d ds) as Hin.
  destruct (indexOfFrom_spec _ _ 0%Z Hin) as (n & Hn & Hv & Hfirst).
  rewrite <- Hd in Hv, Hfirst. unfold dists in *.
  apply list_lookup_fmap_Some in Hv as (c & Hm & Hc).
  exists n, c. rewrite Hn. split; [lia|]. split; [done|]. split.
  - intros j' c' Hc'. rewrite <- Hm.
    assert (calcDistance p c' norm ∈ d :: ds) as Hc'in.
    { rewrite <- Hd. apply list_elem_of_fmap. exists c'. split; [done|].
      by eapply list_elem_of_lookup_2. }
    apply elem_of_cons in Hc'in as [->|?];
      [apply foldl_Rmin_le_init|by apply foldl_Rmin_le].
  - intros j' c' Hlt Hc'. rewrite <- Hm.
    assert (calcDistance p c' norm ∈ d :: ds) as Hc'in.
    { rewrite <- Hd. apply list_elem_of_fmap. exists c'. split; [done|].
      by eapply list_elem_of_lookup_2. }
    assert (foldl Rmin d ds <= calcDistance p c' norm)%R as Hle.
    { apply elem_of_cons in Hc'in as [->|?];
        [apply foldl_Rmin_le_init|by apply foldl_Rmin_le]. }
    destruct Hle as [|Heq]; [done|]. exfalso. apply (Hfirst j' Hlt).
    rewrite list_lookup_fmap, Hc'. simpl. by rewrite Heq.
Qed.

Lemma minIdx_range p centroids norm :
  centroids ≠ [] →
  (0 ≤ minIdx p centroids norm < Z.of_nat (length centroids))%Z.
Proof.
  intros (j & c & -> & Hc & _)%(minIdx_spec p centroids norm).
  apply lookup_lt_Some in Hc. lia.
Qed.

Lemma assignLoop_spec centroids norm i rest labels changed :
  i + length rest ≤ length labels →
  let labels' := (assignLoop centroids norm i rest labels changed).1 in
  length labels' = length labels ∧
  (∀ j, j < i → labels' !! j = labels !! j) ∧
  (∀ j p, rest !! j = Some p → labels' !! (i + j) = Some (minIdx p centroids norm)).
Proof.
  revert i labels changed.
  induction rest as [|q rest IH]; intros i labels changed Hlen; simpl in *.
  - split; [done|]. split; [done|]. intros j p. by rewrite lookup_nil.
  - assert (∀ labels0 changed0, length labels0 = length labels →
      labels0 !! i = Some (minIdx q centroids norm) →
      (∀ j, j < i → labels0 !! j = labels !! j) →
      let labels' := (assignLoop centroids norm (S i) rest labels0 changed0).1 in
      length labels' = length labels ∧
      (∀ j, j < i → labels' !! j = labels !! j) ∧
      (∀ j p, (q :: rest) !! j = Some p →
              labels' !! (i + j) = Some (minIdx p centroids norm))) as Hstep.
    { intros labels0 changed0 Hlen0 Hi Hbelow.
      destruct (IH (S i) labels0 changed0) as (Hl & Hb & Ha); [lia|].
      simpl. split; [congruence|]. split.
      - intros j Hj. rewrite Hb by lia. by apply Hbelow.
      - intros [|j] p Hp; simpl in Hp.
        + simplify_eq. rewrite Nat.add_0_r, Hb by lia. done.
        + replace (i + S j) with (S i + j) by lia. by apply Ha. }
    case_bool_decide as Hsame.
    + by apply Hstep.
    + apply Hstep.
      * apply length_insert.
      * apply list_lookup_insert_eq. lia.
      * intros j Hj. apply list_lookup_insert_ne. lia.
Qed.

Lemma assignment_spec points centroids norm labels :
  length labels = length points →
  let labels' := (assignment points centroids norm labels).1 in
  length labels' = length points ∧
  ∀ i p, points !! i = Some p → labels' !! i = Some (minIdx p centroids norm).
Proof.
  intros Hlen. unfold assignment.
  destruct (assignLoop_spec centroids norm 0 points labels false) as (Hl & _ & Ha);
    [simpl; lia|].
  simpl. split; [congruence|]. intros i p Hp. by apply (Ha i p).
Qed.

Lemma recentre_length idx sums centroids :
  length (recentre idx sums centroids) = length centroids.
Proof.
  revert idx centroids. induction sums as [|s sums IH]; intros idx centroids; simpl; [done|].
  rewrite IH. case_bool_decide; [apply length_insert|done].
Qed.

Lemma accumulate_done points idx labels sums :
  idx + length labels ≤ length points →
  Forall (λ l, 0 ≤ l < Z.of_nat (length sums))%Z labels →
  ∃ sums', accumulate points idx labels sums = Done sums' ∧
           length sums' = length sums.
Proof.
  revert idx sums. induction labels as [|l labels IH]; intros idx sums Hlen Hrange; simpl.
  - by exists sums.
  - apply Forall_cons in Hrange as [Hl Hrange]. simpl in Hlen.
    destruct (lookup_lt_is_Some_2 points idx) as [p ->]; [lia|].
    unfold at_index. rewrite bool_decide_eq_true_2 by lia.
    destruct (lookup_lt_is_Some_2 sums (Z.to_nat l)) as [s ->]; [lia|].
    destruct (IH (S idx)
      (<[Z.to_nat l := mkSum (sum_x s + x p) (sum_y s + y p) (S (sum_n s))]> sums))
      as (sums' & -> & Hs).
    + lia.
    + by rewrite length_insert.
    + exists sums'. by rewrite Hs, length_insert.
Qed.

Lemma update_done points k labels centroids :
  length labels = length points →
  Forall (λ l, 0 ≤ l < k)%Z labels →
  ∃ centroids', update points k labels centroids = Done centroids' ∧
                length centroids' = length centroids.
Proof.
  intros Hlen Hrange. unfold update.
  destruct (accumulate_done points 0 labels (replicate (Z.to_nat k) (mkSum 0 0 0)))
    as (sums & -> & _).
  - lia.
  - rewrite length_replicate. eapply Forall_impl; [done|]. simpl. intros; lia.
  - eexists. split; [done|]. apply recentre_length.
Qed.

Lemma assignment_range points centroids norm labels :
  centroids ≠ [] → length labels = length points →
  Forall (λ l, 0 ≤ l < Z.of_nat (length centroids))%Z
         (assignment points centroids norm labels).1.
Proof.
  intros Hne Hlen.
  destruct (assignment_spec points centroids norm labels Hlen) as [Hl Ha].
  apply Forall_lookup. intros i l Hi.
  destruct (lookup_lt_is_Some_2 points i) as [p Hp].
  { rewrite <- Hl. by eapply lookup_lt_Some. }
  rewrite (Ha i p Hp) in Hi. simplify_eq. by apply minIdx_range.
Qed.

(** The bounded loop of [kMeans] returns, and never throws, once there
    are [k > 0] centroids. *)
Lemma lloyd_done points k norm maxIter centroids labels :
  centroids ≠ [] → Z.of_nat (length centroids) = k →
  length labels = length points →
  ∃ labels', lloyd points k norm maxIter centroids labels = Done labels' ∧
             length labels' = length points.
Proof.
  revert centroids labels.
  induction maxIter as [|maxIter IH]; intros centroids labels Hne Hk Hlen; simpl.
  - by exists labels.
  - pose proof (assignment_spec points centroids norm labels Hlen) as [Hl _].
    pose proof (assignment_range points centroids norm labels Hne Hlen) as Hr.
    destruct (assignment points centroids norm labels) as [labels1 changed].
    simpl in *. destruct changed; simpl; [|by exists labels1].
    rewrite Hk in Hr.
    destruct (update_done points k labels1 centroids Hl Hr) as (cs' & -> & Hcs).
    simpl. apply IH; [|congruence|done].
    intros ->. destruct centroids; [done|discriminate].
Qed.

(** Every round of the loop leaves each point with its first nearest
    centroid. *)
Lemma lloydRounds_assigned points k norm maxIter centroids labels :
  centroids ≠ [] → Z.of_nat (length centroids) = k →
  length labels = length points →
  Forall (assigned points norm) (lloydRounds points k norm maxIter centroids labels).
Proof.
  revert centroids labels.
  induction maxIter as [|maxIter IH]; intros centroids labels Hne Hk Hlen; simpl.
  - constructor.
  - pose proof (assignment_spec points centroids norm labels Hlen) as [Hl Ha].
    pose proof (assignment_range points centroids norm labels Hne Hlen) as Hr.
    destruct (assignment points centroids norm labels) as [labels1 changed].
    simpl in *. constructor.
    + intros i p Hp. exists (minIdx p centroids norm). simpl.
      split; [by apply Ha|by apply minIdx_spec].
    + destruct changed; simpl; [|constructor].
      rewrite Hk in Hr.
      destruct (update_done points k labels1 centroids Hl Hr) as (cs' & -> & Hcs).
      apply IH; [|congruence|done].
      intros ->. destruct centroids; [done|discriminate].
Qed.

(** The labels the loop returns are those of its last round. *)
Lemma lloyd_last_round points k norm maxIter centroids labels labels' :
  lloyd points k norm maxIter centroids labels = Done labels' →
  labels' = default labels (snd <$> last (lloydRounds points k norm maxIter centroids labels)).
Proof.
  revert centroids labels.
  induction maxIter as [|maxIter IH]; intros centroids labels; simpl.
  - by intros [= <-].
  - destruct (assignment points centroids norm labels) as [labels1 changed].
    destruct changed; simpl; [|by intros [= <-]].
    destruct (update points k labels1 centroids) as [cs'| |]; simpl; try done.
    intros Hrun. apply IH in Hrun. rewrite Hrun. clear.
    destruct (lloydRounds points k norm maxIter cs' labels1) as [|r rs]; [done|].
    rewrite last_cons_cons.
    destruct (last (r :: rs)) eqn:Hl; [done|]. by apply last_None in Hl.
Qed.

Lemma seedLoop_length fuel random points k draw cs seen cs' :
  (Z.of_nat (length cs) ≤ k)%Z →
  seedLoop fuel random points k draw cs seen = Done cs' →
  Z.of_nat (length cs') = k.
Proof.
  revert draw cs seen.
  induction fuel as [|fuel IH]; intros draw cs seen Hle; simpl.
  - case_bool_decide; [done|]. intros [= <-]. lia.
  - case_bool_decide; [|intros [= <-]; lia].
    case_bool_decide; apply IH; [done|].
    rewrite length_app. simpl. lia.
Qed.

Lemma seedLoop_no_throw fuel random points k draw cs seen msg :
  seedLoop fuel random points k draw cs seen ≠ Thrown msg.
Proof.
  revert draw cs seen.
  induction fuel as [|fuel IH]; intros draw cs seen; simpl.
  - by case_bool_decide.
  - case_bool_decide; [|done]. case_bool_decide; apply IH.
Qed.

Lemma initCentroids_length fuel random points k initialCentroids cs :
  (0 < k)%Z →
  initCentroids fuel random points k initialCentroids = Done cs →
  Z.of_nat (length cs) = k.
Proof.
  intros Hk. unfold initCentroids.
  destruct initialCentroids as [ic|].
  - case_bool_decide as Hic.
    + intros [= <-]. by rewrite length_map.
    + apply seedLoop_length. simpl. lia.
  - apply seedLoop_length. simpl. lia.
Qed.

Lemma initCentroids_no_throw fuel random points k initialCentroids msg :
  initCentroids fuel random points k initialCentroids ≠ Thrown msg.
Proof.
  unfold initCentroids. destruct initialCentroids as [ic|].
  - case_bool_decide; [done|apply seedLoop_no_throw].
  - apply seedLoop_no_throw.
Qed.

(** A call of [kMeans] is still seeding when its budget is used up, or
    it returns the points with one label each; it never throws. *)
Lemma kMeans_outcome fuel random points k norm initialCentroids maxIter :
  kMeans fuel random points k norm initialCentroids maxIter = Spinning ∨
  ∃ labels, length labels = length points ∧
    kMeans fuel random points k norm initialCentroids maxIter
    = Done (zip_with mkLabeled points labels).
Proof.
  unfold kMeans. case_bool_decide as Hk.
  - right. exists (replicate (length points) 0%Z).
    split; [apply length_replicate|]. f_equal.
    clear. induction points as [|p points IH]; simpl; [done|]. by rewrite IH.
  - destruct (initCentroids fuel random points k initialCentroids) as [cs|msg|] eqn:Hinit.
    + right. assert (0 < k)%Z as Hpos by lia.
      pose proof (initCentroids_length _ _ _ _ _ _ Hpos Hinit) as Hlen.
      destruct (lloyd_done points k norm (default 50 maxIter) cs
                  (replicate (length points) 0%Z)) as (labels & Hrun & Hl).
      * intros ->. simpl in Hlen. lia.
      * done.
      * apply length_replicate.
      * exists labels. split; [done|]. simpl. by rewrite Hrun.
    + by apply initCentroids_no_throw in Hinit.
    + by left.
Qed.

(** With [k > 0] and [k] initial centroids supplied, [kMeans] returns. *)
Lemma kMeans_supplied_returns fuel random points k norm ic maxIter :
  Z.of_nat (length ic) = k →
  ∃ labels, length labels = length points ∧
    kMeans fuel random points k norm (Some ic) maxIter
    = Done (zip_with mkLabeled points labels).
Proof.
  intros Hic.
  destruct (kMeans_outcome fuel random points k norm (Some ic) maxIter) as [Hspin|?];
    [|done].
  exfalso. revert Hspin. unfold kMeans. case_bool_decide; [done|].
  simpl. rewrite bool_decide_eq_true_2 by done. simpl.
  destruct (lloyd_done points k norm (default 50 maxIter)
              (map (λ c, mkPoint (x c) (y c)) ic)
              (replicate (length points) 0%Z)) as (labels & -> & _); try done.
  - intros Hnil. apply (f_equal length) in Hnil. rewrite length_map in Hnil.
    simpl in Hnil. lia.
  - by rewrite length_map.
  - apply length_replicate.
Qed.

(** What [kMeans] returns are the labels of the last round it went
    through (all 0 if there was none). *)
Lemma kMeans_last_round fuel random points k norm initialCentroids maxIter result :
  (0 < k)%Z →
  kMeans fuel random points k norm initialCentroids maxIter = Done result →
  result = zip_with mkLabeled points
    (default (replicate (length points) 0%Z)
       (snd <$> last (kMeansRounds fuel random points k norm initialCentroids maxIter))).
Proof.
  intros Hk. unfold kMeans, kMeansRounds.
  rewrite !bool_decide_eq_false_2 by lia.
  destruct (initCentroids fuel random points k initialCentroids) as [cs| |];
    simpl; try done.
  destruct (lloyd _ _ _ _ _ _) as [labels| |] eqn:Hrun; simpl; try done.
  intros [= <-]. by rewrite (lloyd_last_round _ _ _ _ _ _ _ Hrun).
Qed.

Lemma random_index {A} random (points : list A) draw :
  unitInterval random → points ≠ [] →
  (0 ≤ Zfloor (random draw * INR (length points)) < Z.of_nat (length points))%Z.
Proof.
  intros Hunit Hne. specialize (Hunit draw).
  assert (0 < INR (length points))%R as Hn.
  { apply lt_0_INR. destruct points; [done|simpl; lia]. }
  pose proof (Zfloor_bound (random draw * INR (length points))) as [Hlo Hhi].
  split.
  - assert (-1 < Zfloor (random draw * INR (length points)))%Z; [|lia].
    apply lt_IZR. nra.
  - apply lt_IZR. rewrite <- INR_IZR_INZ. nra.
Qed.

Lemma size_below (seen : gset Z) n :
  (∀ i, i ∈ seen → (0 ≤ i < Z.of_nat n)%Z) → size seen ≤ n.
Proof.
  intros Hseen.
  assert (seen ⊆ list_to_set (seqZ 0 (Z.of_nat n))) as Hsub.
  { intros i Hi. apply elem_of_list_to_set, elem_of_seqZ.
    specialize (Hseen i Hi). lia. }
  apply subseteq_size in Hsub.
  rewrite size_list_to_set in Hsub by apply NoDup_seqZ.
  rewrite length_seqZ in Hsub. lia.
Qed.

(** Random seeding never collects more distinct indices than there are
    points: with [k] larger than that, the loop goes on for ever. *)
Lemma seedLoop_spins fuel random points k draw cs (seen : gset Z) :
  unitInterval random → points ≠ [] → (Z.of_nat (length points) < k)%Z →
  length cs = size seen →
  (∀ i, i ∈ seen → (0 ≤ i < Z.of_nat (length points))%Z) →
  seedLoop fuel random points k draw cs seen = Spinning.
Proof.
  intros Hunit Hne Hk. revert draw cs seen.
  induction fuel as [|fuel IH]; intros draw cs seen Hlen Hseen; simpl;
    pose proof (size_below seen (length points) Hseen) as Hsize;
    (rewrite bool_decide_eq_true_2 by lia); [done|].
  pose proof (random_index random points draw Hunit Hne) as Hidx.
  case_bool_decide as Hin; [by apply IH|].
  apply IH.
  - rewrite length_app, size_union by (by apply disjoint_singleton_l).
    rewrite size_singleton. simpl. lia.
  - intros i [->%elem_of_singleton|?]%elem_of_union; [done|by apply Hseen].
Qed.

Lemma drawn_S random n d :
  drawn random n (S d) = {[Zfloor (random d * INR n)]} ∪ drawn random n d.
Proof.
  unfold drawn. rewrite seq_S, fmap_app, list_to_set_app_L. simpl.
  by rewrite (right_id_L ∅ (∪)), (comm_L (∪)).
Qed.

(** Random seeding ends as soon as the draws have given [k] distinct
    indices. *)
Lemma seedLoop_ends fuel random points k draw cs seen :
  seen = drawn random (length points) draw → length cs = size seen →
  (k ≤ Z.of_nat (size (drawn random (length points) (draw + fuel))))%Z →
  ∃ cs', seedLoop fuel random points k draw cs seen = Done cs'.
Proof.
  revert draw cs seen.
  induction fuel as [|fuel IH]; intros draw cs seen Hseen Hlen Hk; simpl.
  - rewrite Nat.add_0_r, <- Hseen in Hk.
    rewrite bool_decide_eq_false_2 by lia. by eexists.
  - case_bool_decide; [|by eexists].
    replace (draw + S fuel) with (S draw + fuel) in Hk by lia.
    case_bool_decide as Hin; apply IH; try done.
    + rewrite drawn_S, <- Hseen. symmetry.
      by apply subseteq_union_1_L, singleton_subseteq_l.
    + by rewrite drawn_S, <- Hseen.
    + rewrite length_app, size_union by (by apply disjoint_singleton_l).
      rewrite size_singleton. simpl. lia.
Qed.

Lemma seedLoop_more_fuel fuel fuel' random points k draw cs seen cs' :
  seedLoop fuel random points k draw cs seen = Done cs' → fuel ≤ fuel' →
  seedLoop fuel' random points k draw cs seen = Done cs'.
Proof.
  revert fuel' draw cs seen.
  induction fuel as [|fuel IH]; intros [|fuel'] draw cs seen; simpl;
    case_bool_decide; try done; try (intros; lia).
  intros Hrun Hle. assert (fuel ≤ fuel') as Hle' by lia.
  case_bool_decide; by apply IH.
Qed.

(** With [k > 0], [kMeans] returns once its budget covers draws that
    give [k] distinct indices. *)
Lemma kMeans_seeded_returns fuel random points k norm initialCentroids maxIter :
  (k ≤ Z.of_nat (size (drawn random (length points) fuel)))%Z →
  kMeans fuel random points k norm initialCentroids maxIter ≠ Spinning.
Proof.
  intros Hk Hspin.
  destruct (seedLoop_ends fuel random points k 0 [] ∅) as [cs Hseed]; try done.
  revert Hspin. unfold kMeans. case_bool_decide as Hpos; [done|].
  destruct (initCentroids fuel random points k initialCentroids) as [cs'|msg|] eqn:Hinit.
  - simpl. assert (0 < k)%Z as Hpos' by lia.
    pose proof (initCentroids_length _ _ _ _ _ _ Hpos' Hinit) as Hlen.
    destruct (lloyd_done points k norm (default 50 maxIter) cs'
                (replicate (length points) 0%Z)) as (labels & -> & _); try done.
    + intros ->. simpl in Hlen. lia.
    + apply length_replicate.
  - by apply initCentroids_no_throw in Hinit.
  - revert Hinit. unfold initCentroids.
    destruct initialCentroids as [ic|]; [case_bool_decide; [done|]|]; congruence.
Qed.

Lemma kMeans_spins fuel random points k norm maxIter :
  unitInterval random → points ≠ [] → (Z.of_nat (length points) < k)%Z →
  kMeans fuel random points k norm None maxIter = Spinning.
Proof.
  intros Hunit Hne Hk. unfold kMeans.
  rewrite bool_decide_eq_false_2 by lia. simpl.
  by rewrite seedLoop_spins.
Qed.

(** C5: the assignment step of partition gives every point the index of
    a centroid at minimal distance under the chosen metric, and among
    several centroids at that distance the one with the lowest index,
    whatever the labels were before; so it is in every assignment round
    of a run of partition.  The rounds are those of the run: what
    partition returns are the labels of its last round, so each
    returned label is the first nearest centroid of that round. *)
Theorem C5_assignment_nearest_lowest_index
    fuel random points k norm initialCentroids maxIter :
  (∀ centroids labels,
     centroids ≠ [] → length labels = length points →
     assigned points norm
       (centroids, (assignment points centroids norm labels).1)) ∧
  Forall (assigned points norm)
    (kMeansRounds fuel random points k norm initialCentroids maxIter) ∧
  (∀ result,
     (0 < k)%Z →
     kMeans fuel random points k norm initialCentroids maxIter = Done result →
     result = zip_with mkLabeled points
       (default (replicate (length points) 0%Z)
          (snd <$> last (kMeansRounds fuel random points k norm
                           initialCentroids maxIter)))) ∧
  (∀ result centroids labels,
     (0 < k)%Z →
     kMeans fuel random points k norm initialCentroids maxIter = Done result →
     last (kMeansRounds fuel random points k norm initialCentroids maxIter)
       = Some (centroids, labels) →
     ∀ i lp, result !! i = Some lp →
       points !! i = Some (point lp) ∧
       nearestFirst (point lp) centroids norm (cluster lp)).
Proof.
  assert (Forall (assigned points norm)
            (kMeansRounds fuel random points k norm initialCentroids maxIter))
    as Hrounds.
  { unfold kMeansRounds. case_bool_decide as Hk; [constructor|].
    destruct (initCentroids fuel random points k initialCentroids) as [cs| |] eqn:Hinit;
      try constructor.
    assert (Z.of_nat (length cs) = k) as Hlen.
    { eapply initCentroids_length; [lia|done]. }
    apply lloydRounds_assigned; [|done|apply length_replicate].
    intros ->. simpl in Hlen. lia. }
  split.
  { intros centroids labels Hne Hlen i p Hp.
    destruct (assignment_spec points centroids norm labels Hlen) as [_ Hall].
    exists (minIdx p centroids norm). split; [by apply Hall|].
    by apply minIdx_spec. }
  split; [done|]. split; [intros result Hk Hrun; by apply kMeans_last_round|].
  intros result centroids labels Hk Hrun Hlast i lp Hi.
  pose proof (kMeans_last_round _ _ _ _ _ _ _ _ Hk Hrun) as Hresult.
  rewrite Hlast in Hresult. simpl in Hresult. subst result.
  apply lookup_zip_with_Some in Hi as (p & label & -> & Hp & Hlabel).
  simpl. split; [done|].
  rewrite Forall_forall in Hrounds.
  destruct (Hrounds (centroids, labels)) with (i := i) (p := p)
    as (label' & Hlabel' & Hnear); [by apply last_Some_elem_of|done|].
  simpl in Hlabel', Hnear. by simplify_eq.
Qed.

(** A run with two centroids and one point half-way: one round, the
    tie goes to centroid 0. *)
Example kMeans_tie_round :
  kMeansRounds 0 (λ _, 0%R) [mkPoint 1 0] 2 L1
    (Some [mkPoint 0 0; mkPoint 2 0]) (Some 1)
  = [([mkPoint 0 0; mkPoint 2 0], [0%Z])].
Proof.
  unfold kMeansRounds. rewrite bool_decide_eq_false_2 by lia. simpl.
  unfold assignment. simpl.
  assert (minIdx (mkPoint 1 0) [mkPoint 0 0; mkPoint 2 0] L1 = 0%Z) as ->; [|done].
  unfold minIdx, calcDistance. simpl.
  replace (1 - 0)%R with 1%R by lra. replace (1 - 2)%R with (-1)%R by lra.
  replace (0 - 0)%R with 0%R by lra.
  rewrite bool_decide_eq_true_2; [done|].
  unfold Rmin, Rabs. repeat destruct (Rcase_abs _); destruct (Rle_dec _ _); lra.
Qed.

Lemma C5_witness :
  kMeans 0 (λ _, 0%R) [mkPoint 1 0] 2 L1
    (Some [mkPoint 0 0; mkPoint 2 0]) (Some 1)
  = Done [mkLabeled (mkPoint 1 0) 0] ∧
  nearestFirst (mkPoint 1 0) [mkPoint 0 0; mkPoint 2 0] L1 0.
Proof.
  destruct (kMeans_supplied_returns 0 (λ _, 0%R) [mkPoint 1 0] 2 L1
              [mkPoint 0 0; mkPoint 2 0] (Some 1) eq_refl)
    as (labels & _ & Hrun).
  destruct (C5_assignment_nearest_lowest_index 0 (λ _, 0%R) [mkPoint 1 0] 2 L1
              (Some [mkPoint 0 0; mkPoint 2 0]) (Some 1))
    as (_ & _ & Hlast & Hnear).
  pose proof (Hlast _ ltac:(lia) Hrun) as Hresult.
  rewrite kMeans_tie_round in Hresult.
  assert (zip_with mkLabeled [mkPoint 1 0] labels = [mkLabeled (mkPoint 1 0) 0])
    as Heq by exact Hresult.
  rewrite Heq in Hrun. split; [exact Hrun|].
  apply (Hnear _ [mkPoint 0 0; mkPoint 2 0] [0%Z] ltac:(lia) Hrun
           ltac:(by rewrite kMeans_tie_round) 0 (mkLabeled (mkPoint 1 0) 0) eq_refl).
Defined.

(** C6: for every input and every k ≤ 0, partition returns (it is not
    an error) the input points, each labelled 0. *)
Theorem C6_kMeans_nonpositive_k
    fuel random points k norm initialCentroids maxIter :
  (k ≤ 0)%Z →
  ∃ result,
    kMeans fuel random points k norm initialCentroids maxIter = Done result ∧
    map point result = points ∧
    Forall (λ lp, cluster lp = 0%Z) result.
Proof.
  intros Hk. exists (map (λ p, mkLabeled p 0) points). split; [|split].
  - unfold kMeans. by rewrite bool_decide_eq_true_2.
  - rewrite map_map. simpl. apply map_id.
  - apply Forall_map. simpl. by apply Forall_true.
Qed.

Lemma C6_witness :
  (-1 ≤ 0)%Z ∧
  ∃ result,
    kMeans 0 (λ _, 0%R) [mkPoint 1 2; mkPoint 3 4] (-1) L2 None None = Done result ∧
    map point result = [mkPoint 1 2; mkPoint 3 4] ∧
    Forall (λ lp, cluster lp = 0%Z) result.
Proof.
  split; [lia|].
  apply (C6_kMeans_nonpositive_k 0 (λ _, 0%R) [mkPoint 1 2; mkPoint 3 4] (-1) L2 None None).
  lia.
Defined.

End KMeans.

(** ** evaluate *)

Section Evaluate.
Import Intro Validation.

Lemma sameClusterConsistent_spec pts i p :
  pts !! i = Some p →
  sameClusterConsistent pts p = true ↔ clusterAgrees pts i p.
Proof.
  intros Hp. unfold sameClusterConsistent, clusterAgrees.
  rewrite forallb_forall. split.
  - intros Hall j q _ Hq Hc.
    assert (In q pts) as Hin by (by apply list_elem_of_In, list_elem_of_lookup_2 with j).
    specialize (Hall q Hin). apply orb_true_iff in Hall as [Hne|Heq].
    + by apply bool_decide_eq_true_1 in Hne.
    + by apply bool_decide_eq_true_1 in Heq.
  - intros Hall q [j Hq]%list_elem_of_In%list_elem_of_lookup_1.
    apply orb_true_iff.
    destruct (decide (clusterId q = clusterId p)) as [Hc|Hc].
    + right. apply bool_decide_eq_true_2.
      destruct (decide (j = i)) as [->|Hji]; [by simplify_eq|by eapply Hall].
    + left. by apply bool_decide_eq_true_2.
Qed.

Lemma noOtherClusterSharesColour_spec pts p :
  noOtherClusterSharesColour pts p = true ↔ colourUnshared pts p.
Proof.
  unfold noOtherClusterSharesColour, colourUnshared.
  rewrite forallb_forall. split.
  - intros Hall j q Hq Hc.
    assert (In q pts) as Hin by (by apply list_elem_of_In, list_elem_of_lookup_2 with j).
    specialize (Hall q Hin). apply orb_true_iff in Hall as [Heq|Hne].
    + by apply bool_decide_eq_true_1 in Heq.
    + by apply bool_decide_eq_true_1 in Hne.
  - intros Hall q [j Hq]%list_elem_of_In%list_elem_of_lookup_1.
    apply orb_true_iff.
    destruct (decide (clusterId q = clusterId p)) as [Hc|Hc].
    + left. by apply bool_decide_eq_true_2.
    + right. apply bool_decide_eq_true_2. by eapply Hall.
Qed.

Lemma evaluate_lookup pts i p :
  pts !! i = Some p →
  updated (evaluate pts) !! i =
  Some (withCorrect p (truthy (colour p) && sameClusterConsistent pts p
                       && noOtherClusterSharesColour pts p)).
Proof.
  intros Hp. unfold evaluate. simpl.
  rewrite list_lookup_fmap, Hp. simpl. by destruct (truthy (colour p)).
Qed.

Lemma evaluate_marked pts i p :
  pts !! i = Some p →
  markedCorrect (evaluate pts) i ↔
  truthy (colour p) = true ∧ clusterAgrees pts i p ∧ colourUnshared pts p.
Proof.
  intros Hp. unfold markedCorrect. rewrite (evaluate_lookup pts i p Hp).
  rewrite <- (sameClusterConsistent_spec pts i p Hp).
  rewrite <- (noOtherClusterSharesColour_spec pts p). split.
  - intros (q & [= <-] & Hq). simpl in Hq.
    injection Hq as Hq. by apply andb_true_iff in Hq as [[? ?]%andb_true_iff ?].
  - intros (-> & -> & ->). eexists. split; [done|]. done.
Qed.

(** C1, amended: a point whose colour is neither null nor the empty
    string is marked correct if and only if (a) every other point of its
    cluster has the same colour and (b) no point of another cluster has
    that colour; a point whose colour is null or the empty string is
    marked incorrect; correctCount is the number of points marked
    correct; the result has one element per point, each with isCorrect
    set. *)
Theorem C1_validator_bijection_check pts :
  validates (λ c, truthy c = true) pts.
Proof.
  unfold validates. simpl. split; [|split; [|split; [|split]]].
  - intros i p Hp Hc. rewrite (evaluate_marked pts i p Hp). tauto.
  - intros i p Hp Hc. rewrite (evaluate_marked pts i p Hp). tauto.
  - done.
  - apply length_map.
  - apply Forall_map. apply Forall_true. intros p. simpl.
    by destruct (truthy (colour p)).
Qed.

(** C1 as stated fails on a point whose colour is the empty string: it
    is not null, (a) and (b) hold, and the point is marked incorrect. *)
Lemma C1_counterexample :
  ¬ validates (λ c, c ≠ None)
      [mkPoint 0 (mkXY 0 0) (Some EmptyString) 0 None].
Proof.
  intros (Hiff & _).
  specialize (Hiff 0 (mkPoint 0 (mkXY 0 0) (Some EmptyString) 0 None) eq_refl).
  simpl in Hiff. destruct Hiff as [_ Hmark]; [done|].
  destruct Hmark as (q & Hq & Hcorrect).
  - split.
    + intros [|j] q Hj Hq; [done|]. by simpl in Hq.
    + intros [|j] q Hq; [by simplify_eq/=|]. by simpl in Hq.
  - by simplify_eq/=.
Qed.

(** With point 0 in red, as the rest of its cluster, all ten points are
    correct.  With point 0 in the colour of cluster 1, the points of
    cluster 0 and of cluster 1 are incorrect. *)
Example evaluate_all_correct :
  correctCount (evaluate (scatter "#e74c3c")) = 10.
Proof. reflexivity. Qed.

Example evaluate_shared_colour :
  let e := evaluate (scatter "#f1c40f") in
  correctCount e = 4 ∧
  isCorrect <$> updated e =
  Some <$> [false; false; false; false; false; false; true; true; true; true].
Proof. split; reflexivity. Qed.

End Evaluate.

(** ** generatePoints *)

Section Generator.
Import Intro Simulation.

Variable related : World → World → Prop.
Variables f g : RandomFn.
Hypothesis Hfg : inStep related f g.

Lemma throwPoints_inStep n w w' :
  related w w' →
  (throwPoints f n w).1 = (throwPoints g n w').1 ∧
  related (throwPoints f n w).2 (throwPoints g n w').2.
Proof.
  revert w w'. induction n as [|n IH]; intros w w' Hw; simpl; [done|].
  destruct (Hfg w w' Hw) as [Hx Hw1].
  destruct (f w) as [rx w1], (g w') as [rx' w1']. simpl in *. subst rx'.
  destruct (Hfg w1 w1' Hw1) as [Hy Hw2].
  destruct (f w1) as [ry w2], (g w1') as [ry' w2']. simpl in *. subst ry'.
  destruct (IH w2 w2' Hw2) as [Hrest Hw3].
  destruct (throwPoints f n w2) as [rest w3], (throwPoints g n w2') as [rest' w3'].
  simpl in *. by subst rest'.
Qed.

Lemma runPlan_inStep {A} (plan : SortPlan A) w w' :
  related w w' →
  let cf := λ (_ _ : A) w, let '(r, w') := f w in ((0.5 - r)%R, w') in
  let cg := λ (_ _ : A) w, let '(r, w') := g w in ((0.5 - r)%R, w') in
  (runPlan cf plan w).1 = (runPlan cg plan w').1 ∧
  related (runPlan cf plan w).2 (runPlan cg plan w').2.
Proof.
  revert w w'. induction plan as [result|a b next IH]; intros w w' Hw; simpl; [done|].
  destruct (Hfg w w' Hw) as [Hr Hw1].
  destruct (f w) as [r w1], (g w') as [r' w1']. simpl in *. subst r'.
  by apply IH.
Qed.

Lemma runKMeans_inStep ambient ambient' sortPlan pts k iters w w' :
  related w w' →
  (runKMeans ambient sortPlan pts k iters (Some f) w).1 =
  (runKMeans ambient' sortPlan pts k iters (Some g) w').1 ∧
  related (runKMeans ambient sortPlan pts k iters (Some f) w).2
          (runKMeans ambient' sortPlan pts k iters (Some g) w').2.
Proof.
  intros Hw. unfold runKMeans. simpl.
  destruct (runPlan_inStep (sortPlan XY pts) w w' Hw) as [Hs Hw1]. simpl in *.
  destruct (runPlan _ (sortPlan XY pts) w) as [shuffled w1].
  destruct (runPlan _ (sortPlan XY pts) w') as [shuffled' w1'].
  simpl in *. by subst shuffled'.
Qed.

Lemma generatePoints_inStep ambient ambient' sortPlan n k w w' :
  related w w' →
  (generatePoints ambient sortPlan n k (Some f) w).1 =
  (generatePoints ambient' sortPlan n k (Some g) w').1.
Proof.
  intros Hw. unfold generatePoints. simpl.
  destruct (throwPoints_inStep (toLength (default 10%Z n)) w w' Hw) as [Hraw Hw1].
  destruct (throwPoints f _ w) as [raw w1], (throwPoints g _ w') as [raw' w1'].
  simpl in *. subst raw'.
  destruct (runKMeans_inStep ambient ambient' sortPlan raw
              (default CLUSTER_COUNT k) (Some 8) w1 w1' Hw1) as [Hc Hw2].
  destruct (runKMeans ambient _ _ _ _ _ w1) as [centres w2].
  destruct (runKMeans ambient' _ _ _ _ _ w1') as [centres' w2'].
  simpl in *. by subst centres'.
Qed.

End Generator.

Section GeneratorClaims.
Import Intro Simulation.

(** The closure returns numbers in [0, 1), as [Math.random] does. *)
Lemma mulberry32_mix_range a : (0 <= mulberry32_mix a < 1)%R.
Proof.
  unfold mulberry32_mix, ushr. rewrite Z.shiftr_0_r.
  set (u := toUint32 _).
  assert (0 ≤ u < 2 ^ 32)%Z as [Hlo Hhi] by (apply Z.mod_pos_bound; lia).
  clearbody u. apply IZR_le in Hlo. apply IZR_lt in Hhi.
  change (2 ^ 32)%Z with 4294967296%Z in Hhi. lra.
Qed.

Lemma mulberry32_next_inStep l l' :
  inStep (sameCell l l') (mulberry32_next l) (mulberry32_next l').
Proof.
  intros w w' Hw. unfold sameCell, mulberry32_next in *. simpl.
  rewrite Hw. split; [done|]. by rewrite !lookup_insert_eq.
Qed.

(** What [generate] returns does not depend on the world it starts
    in, nor on what [Math.random] returns. *)
Lemma generate_world_independent
    (ambient ambient' : nat → R) (sortPlan : ∀ A, list A → SortPlan A)
    (n k seed : Z) (w w' : World) :
  (generate ambient sortPlan n k seed w).1 =
  (generate ambient' sortPlan n k seed w').1.
Proof.
  unfold generate, mulberry32. simpl.
  apply (generatePoints_inStep
           (sameCell (fresh (dom (cells w))) (fresh (dom (cells w'))))).
  - apply mulberry32_next_inStep.
  - unfold sameCell. simpl. by rewrite !lookup_insert_eq.
Qed.

(** The scatter of the lesson: computed a second time, in the world the
    first computation leaves, it is the same. *)
Corollary INITIAL_POINTS_reproducible ambient sortPlan w :
  let first := generate ambient sortPlan 10 CLUSTER_COUNT 20250423 w in
  let second := generate ambient sortPlan 10 CLUSTER_COUNT 20250423 first.2 in
  first.1 = second.1.
Proof. intros first second. subst first second. apply generate_world_independent. Qed.

(** C9: two invocations of the point generator with the same arguments
    and the same seed return the same outcome: the same sequence of
    points, of the same length, with equal x, y and clusterId at every
    position.  This holds whatever the state of the world each
    invocation starts in (earlier invocations, calls of Math.random),
    in particular for a second invocation that follows a first one. *)
Theorem C9_generate_reproducible
    (ambient ambient' : nat → R) (sortPlan : ∀ A, list A → SortPlan A)
    (n k seed : Z) (w w' : World) :
  let first := generate ambient sortPlan n k seed w in
  (generate ambient' sortPlan n k seed w').1 = first.1 ∧
  (generate ambient sortPlan n k seed first.2).1 = first.1.
Proof.
  intros first. subst first. split; apply generate_world_independent.
Qed.

End GeneratorClaims.

(** ** Results are fresh copies *)

Section HeapFacts.
Import Heap.
Context {O : Type}.
Implicit Types (h : gmap nat (cell O)) (os : list O).

Lemma bind_done {A B} (m : prog O A) (f : A → prog O B) h b h' :
  (m ≫= f) h = Done (b, h') ↔
  ∃ a h1, m h = Done (a, h1) ∧ f a h1 = Done (b, h').
Proof.
  unfold mbind, prog_bind. destruct (m h) as [[a h1]| |].
  - split; [intros Hf; by exists a, h1|]. by intros (? & ? & [= <- <-] & Hf).
  - split; [done|]. by intros (? & ? & ? & _).
  - split; [done|]. by intros (? & ? & ? & _).
Qed.

Lemma bind_eq {A B} (m : prog O A) (f : A → prog O B) h a h1 :
  m h = Done (a, h1) → (m ≫= f) h = f a h1.
Proof. unfold mbind, prog_bind. by intros ->. Qed.

Lemma ret_done {A} (a b : A) h h' :
  (mret a : prog O A) h = Done (b, h') ↔ b = a ∧ h' = h.
Proof.
  unfold mret, prog_ret. split; [by intros [= <- <-]|by intros [-> ->]].
Qed.

Lemma alloc_fresh (c : cell O) h : h !! (alloc c h).1 = None.
Proof. simpl. apply not_elem_of_dom, is_fresh. Qed.

Lemma alloc_sub (c : cell O) h : h ⊆ (alloc c h).2.
Proof. simpl. apply insert_subseteq, not_elem_of_dom, is_fresh. Qed.

Lemma alloc_lookup (c : cell O) h : (alloc c h).2 !! (alloc c h).1 = Some c.
Proof. simpl. apply lookup_insert_eq. Qed.

Lemma newObject_done o h r h' :
  newObject o h = Done (r, h') →
  h ⊆ h' ∧ h !! r = None ∧ h' !! r = Some (Obj o).
Proof.
  unfold newObject. intros [= <- <-].
  split; [apply (alloc_sub (Obj o))|].
  split; [apply (alloc_fresh (Obj o))|apply (alloc_lookup (Obj o))].
Qed.

Lemma newArrayOf_done refs h a h' :
  newArrayOf refs h = Done (a, h') →
  h ⊆ h' ∧ h !! a = None ∧ h' !! a = Some (Arr refs).
Proof.
  unfold newArrayOf. intros [= <- <-].
  split; [apply (alloc_sub (Arr refs))|].
  split; [apply (alloc_fresh (Arr refs))|apply (alloc_lookup (Arr refs))].
Qed.

Lemma getObject_done r h o h' :
  getObject r h = Done (o, h') ↔ h' = h ∧ h !! r = Some (Obj o).
Proof.
  unfold getObject. destruct (h !! r) as [[o'|refs]|].
  - split; [by intros [= <- <-]|by intros [-> [= <-]]].
  - split; [done|by intros [_ ?]].
  - split; [done|by intros [_ ?]].
Qed.

Lemma getArray_done a h refs h' :
  getArray a h = Done (refs, h') ↔ h' = h ∧ h !! a = Some (Arr refs).
Proof.
  unfold getArray. destruct (h !! a) as [[o'|refs']|].
  - split; [done|by intros [_ ?]].
  - split; [by intros [= <- <-]|by intros [-> [= <-]]].
  - split; [done|by intros [_ ?]].
Qed.

Lemma setObject_done r o h u h' :
  setObject r o h = Done (u, h') →
  h' = <[r := Obj o]> h ∧ ∃ o0, h !! r = Some (Obj o0).
Proof.
  unfold setObject. destruct (h !! r) as [[o'|refs]|]; try done.
  intros [= _ <-]. split; [done|by exists o'].
Qed.

Lemma setArray_done a refs h u h' :
  setArray a refs h = Done (u, h') →
  h' = <[a := Arr refs]> h ∧ ∃ refs0, h !! a = Some (Arr refs0).
Proof.
  unfold setArray. destruct (h !! a) as [[o'|refs']|]; try done.
  intros [= _ <-]. split; [done|by exists refs'].
Qed.

(** A write to a cell that [h0] does not have leaves [h0] as it is. *)
Lemma keeps_insert h0 h l (c : cell O) :
  h0 ⊆ h → h0 !! l = None → h0 ⊆ <[l := c]> h.
Proof. intros Hsub Hl. by apply insert_subseteq_r. Qed.

Lemma getObjects_done refs h os h' :
  getObjects refs h = Done (os, h') ↔
  h' = h ∧ Forall2 (λ r o, h !! r = Some (Obj o)) refs os.
Proof.
  revert os h'. induction refs as [|r refs IH]; intros os h'; cbn [getObjects].
  - rewrite ret_done. split.
    + intros [-> ->]. by split.
    + intros [-> Hall]. by apply Forall2_nil_inv_l in Hall as ->.
  - rewrite bind_done. split.
    + intros (o & h1 & [-> Ho]%getObject_done & Hrest).
      apply bind_done in Hrest as (os' & h2 & [-> Hos]%IH & [-> ->]%ret_done).
      split; [done|]. by constructor.
    + intros [-> Hall]. apply Forall2_cons_inv_l in Hall as (o & os' & Ho & Hos & ->).
      exists o, h. split; [by apply getObject_done|].
      apply bind_done. exists os', h. split; [by apply IH|]. by apply ret_done.
Qed.

Lemma readObjects_done a h os h' :
  readObjects a h = Done (os, h') ↔
  h' = h ∧ ∃ refs, h !! a = Some (Arr refs) ∧
                   Forall2 (λ r o, h !! r = Some (Obj o)) refs os.
Proof.
  unfold readObjects. rewrite bind_done. split.
  - intros (refs & h1 & [-> Ha]%getArray_done & [-> Hos]%getObjects_done).
    split; [done|]. by exists refs.
  - intros (-> & refs & Ha & Hos). exists refs, h.
    split; [by apply getArray_done|by apply getObjects_done].
Qed.

Lemma readArray_spec h a os :
  readArray h a = Some os ↔
  ∃ ins, h !! a = Some (Arr ins) ∧ Forall2 (λ r o, h !! r = Some (Obj o)) ins os.
Proof.
  unfold readArray. split.
  - destruct (h !! a) as [[o|ins]|]; try done.
    intros Hread%mapM_Some_1. exists ins. split; [done|].
    eapply Forall2_impl; [done|]. simpl. intros r o. unfold readObject.
    destruct (h !! r) as [[o'|]|]; try done. by intros [= ->].
  - intros (ins & -> & Hall). apply mapM_Some_2.
    eapply Forall2_impl; [done|]. simpl. intros r o Hr. unfold readObject.
    by rewrite Hr.
Qed.

Lemma readObjects_readArray a h os :
  readObjects a h = Done (os, h) ↔ readArray h a = Some os.
Proof.
  rewrite readObjects_done, readArray_spec.
  split; [by intros [_ Hread]|by intros Hread].
Qed.

Lemma objects_weaken h0 h refs os :
  h0 ⊆ h → Forall2 (λ r o, h0 !! r = Some (Obj o)) refs os →
  Forall2 (λ r o, h !! r = Some (Obj o)) refs os.
Proof.
  intros Hsub Hall. eapply Forall2_impl; [done|].
  intros r o Hr. exact (lookup_weaken _ _ _ _ Hr Hsub).
Qed.

(** The objects a [map] makes are new, one per element, and hold what
    the callback returns, when the callback only reads. *)
Lemma newObjects_spec {A} (f : A → O → prog O O) (g : A → O → O)
    h0 (items : list (A * nat)) os h :
  h0 ⊆ h →
  Forall2 (λ xr o, h0 !! xr.2 = Some (Obj o)) items os →
  (∀ h1 x o, h0 ⊆ h1 → f x o h1 = Done (g x o, h1)) →
  ∃ outs h',
    newObjects f items h = Done (outs, h') ∧ h ⊆ h' ∧ NoDup outs ∧
    Forall (λ r, h !! r = None) outs ∧
    Forall2 (λ r' v, h' !! r' = Some (Obj v)) outs
      (zip_with (λ xr o, g xr.1 o) items os).
Proof.
  intros Hsub Hall Hf. revert h Hsub.
  induction Hall as [|[x r] o items os Hr Hall IH]; intros h Hsub; cbn [newObjects].
  - exists [], h. split; [done|]. split; [done|]. split; [constructor|].
    split; constructor.
  - simpl in Hr.
    rewrite (bind_eq _ _ h o h) by (apply getObject_done; split; [done|];
                                   by eapply lookup_weaken).
    rewrite (bind_eq _ _ h (g x o) h) by (by apply Hf).
    destruct (newObject (g x o) h) as [[r' h1]| |] eqn:Hnew; try done.
    apply newObject_done in Hnew as Hnew'. destruct Hnew' as (Hsub1 & Hfresh & Hr').
    rewrite (bind_eq _ _ h r' h1) by done.
    destruct (IH h1) as (outs & h' & Hrun & Hsub' & Hnd & Hnew' & Hobj);
      [by etrans|].
    rewrite (bind_eq _ _ h1 outs h') by done.
    exists (r' :: outs), h'. split; [done|]. split; [by etrans|].
    split; [|split].
    + constructor; [|done]. intros Hin. rewrite Forall_forall in Hnew'.
      specialize (Hnew' r' Hin). congruence.
    + constructor; [done|]. eapply Forall_impl; [done|]. simpl.
      intros r0 Hr0. by eapply lookup_weaken_None.
    + simpl. constructor; [|done]. by eapply lookup_weaken.
Qed.

(** When the callback only reads, a [map] writes no cell that was
    there. *)
Lemma newObjects_frame {A} (f : A → O → prog O O) (items : list (A * nat))
    h outs h' :
  (∀ h1 x o v h2, f x o h1 = Done (v, h2) → h2 = h1) →
  newObjects f items h = Done (outs, h') → h ⊆ h'.
Proof.
  intros Hf. revert h outs h'.
  induction items as [|[x r] items IH]; intros h outs h'; cbn [newObjects].
  - by intros [-> ->]%ret_done.
  - intros (o & h1 & [-> Ho]%getObject_done & Hrest)%bind_done.
    apply bind_done in Hrest as (v & h2 & Hv & Hrest). apply Hf in Hv as ->.
    apply bind_done in Hrest as (r' & h3 & (Hsub & _)%newObject_done & Hrest).
    apply bind_done in Hrest as (rest & h4 & Hrec%IH & [-> ->]%ret_done).
    by etrans.
Qed.

Lemma arrayFrom_done n (o : O) h refs h' :
  arrayFrom n o h = Done (refs, h') →
  h ⊆ h' ∧ Forall (λ r, h !! r = None) refs.
Proof.
  revert h refs h'. induction n as [|n IH]; intros h refs h'; cbn [arrayFrom].
  - intros [-> ->]%ret_done. by split.
  - intros (r & h1 & (Hsub & Hfresh & _)%newObject_done & Hrest)%bind_done.
    apply bind_done in Hrest as (rest & h2 & (Hsub' & Hnew)%IH & [-> ->]%ret_done).
    split; [by etrans|]. constructor; [done|].
    eapply Forall_impl; [done|]. simpl. intros r0 Hr0.
    by eapply lookup_weaken_None.
Qed.

(** A new array of new copies of the elements of [input] is a fresh
    copy of [input]. *)
Lemma freshCopy_intro (same : O → O → Prop) h0 h input ins os outs vs out h1 h' :
  h0 ⊆ h → h0 !! input = Some (Arr ins) →
  Forall2 (λ r o, h0 !! r = Some (Obj o)) ins os →
  h ⊆ h1 → NoDup outs → Forall (λ r, h !! r = None) outs →
  Forall2 (λ r' v, h1 !! r' = Some (Obj v)) outs vs →
  Forall2 same os vs →
  newArrayOf outs h1 = Done (out, h') →
  h0 ⊆ h' ∧ freshCopy same h0 input out h'.
Proof.
  intros Hsub Hin Hread Hsub1 Hnd Hnew Hobj Hsame
         (Hsub' & Hout & Hout')%newArrayOf_done.
  assert (h0 ⊆ h1) as Hsub01 by (by transitivity h).
  assert (h0 ⊆ h') as Hkeeps by (by transitivity h1).
  split; [done|]. split; [done|].
  split; [by apply (lookup_weaken_None h0 h1)|].
  exists ins, outs. split; [done|]. split; [done|]. split.
  { apply Forall2_length in Hread, Hobj, Hsame. congruence. }
  split; [done|]. intros i r Hr.
  destruct (Forall2_lookup_l _ _ _ _ _ Hread Hr) as (o & Ho & Hro).
  destruct (Forall2_lookup_l _ _ _ _ _ Hsame Ho) as (v & Hv & Hov).
  destruct (Forall2_lookup_r _ _ _ _ _ Hobj Hv) as (r' & Hr' & Hrv).
  exists r', o, v. split; [done|]. split.
  { rewrite Forall_forall in Hnew. apply (lookup_weaken_None h0 h); [|done].
    apply Hnew. by eapply list_elem_of_lookup_2. }
  split; [done|]. split; [by eapply lookup_weaken|done].
Qed.

Lemma zip_objects {A} (P : nat → O → Prop) (xs : list A) ins os :
  length xs = length ins → Forall2 P ins os →
  Forall2 (λ (xr : A * nat) o, P xr.2 o) (zip xs ins) os.
Proof.
  intros Hlen Hall. revert xs Hlen.
  induction Hall as [|r o ins os Hr Hall IH]; intros [|x xs] Hlen;
    simplify_eq/=; constructor; [done|]. by apply IH.
Qed.

Lemma zip_with_same {A} (same : O → O → Prop) (g : A → O → O)
    (items : list A) os :
  length items = length os → (∀ x o, same o (g x o)) →
  Forall2 same os (zip_with g items os).
Proof.
  intros Hlen Hsame. revert os Hlen.
  induction items as [|x items IH]; intros [|o os] Hlen;
    simplify_eq/=; constructor; [done|]. by apply IH.
Qed.

(** [a.map(f)] for a callback that returns a new object and only
    reads: the result is a fresh copy of [a], whatever else was
    allocated since [h0]. *)
Lemma copies_fresh {A} (same : O → O → Prop) (f : A → O → prog O O)
    (g : A → O → O) h0 h input ins os (xs : list A) :
  h0 ⊆ h → h0 !! input = Some (Arr ins) →
  Forall2 (λ r o, h0 !! r = Some (Obj o)) ins os →
  length xs = length ins →
  (∀ h1 x o, h0 ⊆ h1 → f x o h1 = Done (g x o, h1)) →
  (∀ x o, same o (g x o)) →
  ∃ outs out vs h',
    (outs ← newObjects f (zip xs ins); newArrayOf outs) h = Done (out, h') ∧
    h0 ⊆ h' ∧ freshCopy same h0 input out h' ∧
    h' !! out = Some (Arr outs) ∧
    vs = zip_with (λ (xr : A * nat) o, g xr.1 o) (zip xs ins) os ∧
    Forall2 (λ r' v, h' !! r' = Some (Obj v)) outs vs.
Proof.
  intros Hsub Hin Hread Hlen Hf Hsame.
  destruct (newObjects_spec f g h0 (zip xs ins) os h)
    as (outs & h1 & Hrun & Hsub1 & Hnd & Hnew & Hobj);
    [done|by apply (zip_objects (λ r o, h0 !! r = Some (Obj o)))|done|].
  destruct (newArrayOf outs h1) as [[out h']| |] eqn:Hout; try done.
  exists outs, out, (zip_with (λ (xr : A * nat) o, g xr.1 o) (zip xs ins) os), h'.
  rewrite (bind_eq _ _ h outs h1) by done.
  destruct (freshCopy_intro same h0 h input ins os outs
              (zip_with (λ (xr : A * nat) o, g xr.1 o) (zip xs ins) os)
              out h1 h') as [Hkeeps Hcopy]; try done.
  { apply zip_with_same; [|done].
    apply Forall2_length in Hread. rewrite length_zip. lia. }
  pose proof (newArrayOf_done _ _ _ _ Hout) as (Hsub' & _ & Hout').
  do 5 (split; [done|]). by eapply objects_weaken.
Qed.

Lemma objectsAt_read h refs :
  objectsAt h refs ↔ ∃ os, Forall2 (λ r o, h !! r = Some (Obj o)) refs os.
Proof.
  unfold objectsAt. split.
  - induction 1 as [|r refs [o Ho] _ [os Hos]]; [by exists []|].
    exists (o :: os). by constructor.
  - intros [os Hall]. induction Hall as [|r o refs os Hr _ IH]; constructor;
      [by exists o|done].
Qed.

Lemma objectsAt_weaken h h' refs :
  h ⊆ h' → objectsAt h refs → objectsAt h' refs.
Proof.
  intros Hsub Hall. eapply Forall_impl; [done|]. simpl.
  intros r [o Hr]. exists o. by eapply lookup_weaken.
Qed.

(** A write to an object leaves every object an object, and every
    array as it is. *)
Lemma objectsAt_setObject h refs r (o : O) :
  objectsAt h refs → objectsAt (<[r := Obj o]> h) refs.
Proof.
  intros Hall. eapply Forall_impl; [done|]. simpl. intros r0 [o0 Hr0].
  destruct (decide (r0 = r)) as [->|Hne].
  - exists o. apply lookup_insert_eq.
  - exists o0. by rewrite lookup_insert_ne.
Qed.

(** A write to an array leaves every object as it is. *)
Lemma objectsAt_setArray h refs a refs0 refs' :
  h !! a = Some (Arr refs0) → objectsAt h refs →
  objectsAt (<[a := Arr refs']> h) refs.
Proof.
  intros Ha Hall. eapply Forall_impl; [done|]. simpl.
  intros r [o Hr]. exists o.
  rewrite lookup_insert_ne; [done|]. intros ->. congruence.
Qed.

Lemma arrayFrom_spec n (o : O) h :
  ∃ refs h',
    arrayFrom n o h = Done (refs, h') ∧ length refs = n ∧ h ⊆ h' ∧
    Forall (λ r, h' !! r = Some (Obj o)) refs.
Proof.
  revert h. induction n as [|n IH]; intros h; cbn [arrayFrom].
  - exists [], h. split; [done|]. split; [done|]. split; [done|]. constructor.
  - destruct (newObject o h) as [[r h1]| |] eqn:Hnew; try done.
    apply newObject_done in Hnew as Hr. destruct Hr as (Hsub & _ & Hr).
    rewrite (bind_eq _ _ h r h1) by done.
    destruct (IH h1) as (refs & h' & Hrun & Hlen & Hsub' & Hall).
    rewrite (bind_eq _ _ h1 refs h') by done.
    exists (r :: refs), h'. split; [done|]. split; [simpl; lia|].
    split; [by transitivity h1|]. constructor; [|done].
    by eapply lookup_weaken.
Qed.

End HeapFacts.

Section HeapClaims.
Import Heap.

Lemma mapLabelled_fresh h0 h points ins os labels :
  h0 ⊆ h → h0 !! points = Some (Arr ins) →
  Forall2 (λ r o, h0 !! r = Some (Obj o)) ins os →
  length labels = length ins →
  ∃ out h', mapLabelled points labels h = Done (out, h') ∧
            freshCopy labelledCopy h0 points out h'.
Proof.
  intros Hsub Hin Hread Hlen. unfold mapLabelled.
  rewrite (bind_eq _ _ h ins h)
    by (apply getArray_done; split; [done|]; by eapply lookup_weaken).
  destruct (copies_fresh labelledCopy
              (λ label p, mret (Labeled (Advanced.mkLabeled (asPoint p) label)))
              (λ label p, Labeled (Advanced.mkLabeled (asPoint p) label))
              h0 h points ins os labels)
    as (outs & out & vs & h' & Hrun & _ & Hcopy & _); try done.
  - intros x o. by eexists.
  - by exists out, h'.
Qed.

(** The loops of [dbscan] read the points and write [labels] only:
    on the heap they run as on the list of the points read. *)
Lemma regionQuery_run h points os eps norm idx :
  readObjects points h = Done (os, h) →
  regionQuery points eps norm idx h
  = Done (Advanced.regionQuery (asPoint <$> os) eps norm idx, h).
Proof. intros Hread. unfold regionQuery. by rewrite (bind_eq _ _ h os h). Qed.

Lemma expand_run h points os fuel eps minPts norm clusterId labels seedSet :
  readObjects points h = Done (os, h) →
  expand fuel points eps minPts norm clusterId labels seedSet h
  = match Advanced.expand fuel (asPoint <$> os) eps minPts norm clusterId
            labels seedSet with
    | Some labels' => Done (labels', h)
    | None => Spinning
    end.
Proof.
  intros Hread. revert labels seedSet.
  induction fuel as [|fuel IH]; intros labels [|current seedSet]; try done.
  cbn [expand Advanced.expand]. cbv zeta.
  set (labels1 := if bool_decide (labels !! current = Some Advanced.NOISE)
                  then _ else _).
  clearbody labels1.
  destruct (bool_decide (labels1 !! current ≠ Some Advanced.UNVISITED));
    [apply IH|].
  rewrite (bind_eq _ _ h _ h) by (by apply regionQuery_run).
  case_bool_decide; apply IH.
Qed.

Lemma scan_run h points os fuel eps minPts norm todo labels clusterId :
  readObjects points h = Done (os, h) →
  scan fuel points eps minPts norm todo labels clusterId h
  = match Advanced.scan fuel (asPoint <$> os) eps minPts norm todo labels
            clusterId with
    | Some labels' => Done (labels', h)
    | None => Spinning
    end.
Proof.
  intros Hread. revert labels clusterId.
  induction todo as [|i todo IH]; intros labels clusterId; [done|].
  cbn [scan Advanced.scan]. cbv zeta.
  case_bool_decide; [apply IH|].
  rewrite (bind_eq _ _ h _ h) by (by apply regionQuery_run).
  case_bool_decide; [apply IH|].
  unfold mbind, prog_bind. rewrite (expand_run h points os) by done.
  destruct (Advanced.expand _ _ _ _ _ _ _ _); [apply IH|done].
Qed.

Lemma dbscan_fresh points eps minPts norm h :
  arrayOf h points →
  ∃ out h', dbscan points eps minPts norm h = Done (out, h') ∧
            freshCopy labelledCopy h points out h'.
Proof.
  intros [os Hos]. pose proof Hos as (ins & Hin & Hread)%readArray_spec.
  apply readObjects_readArray in Hos.
  destruct (dbscan_returns (asPoint <$> os) eps minPts norm)
    as (labels & _ & Hscan & Hlen & _).
  rewrite length_fmap in Hscan, Hlen. apply Forall2_length in Hread as Hlen'.
  unfold dbscan. rewrite (bind_eq _ _ h ins h) by (by apply getArray_done).
  rewrite (bind_eq _ _ h labels h).
  - apply (mapLabelled_fresh h h points ins os); [done..|lia].
  - rewrite (scan_run h points os) by done. by rewrite Hlen', Hscan.
Qed.

Lemma marked_copy qs p : evaluatedCopy p (marked qs p).
Proof. unfold marked. by destruct (negb _). Qed.

Lemma evaluate_fresh pts (h : gmap nat (cell Intro.Point)) :
  arrayOf h pts →
  ∃ out n h', evaluate pts h = Done (out, n, h') ∧
              freshCopy evaluatedCopy h pts out h'.
Proof.
  intros [qs Hqs]. pose proof Hqs as (ins & Hin & Hread)%readArray_spec.
  unfold evaluate, mapNew.
  destruct (copies_fresh evaluatedCopy (λ (_ : nat) p, mark pts p)
              (λ _ p, marked qs p) h h pts ins qs (seq 0 (length ins)))
    as (outs & out & vs & h1 & Hrun & Hsub & Hcopy & Hout & _ & Hobj);
    try done.
  { by rewrite length_seq. }
  { intros h1 _ p Hsub. unfold mark, marked.
    destruct (negb _); [done|].
    rewrite (bind_eq _ _ h1 qs h1); [done|].
    apply readObjects_done. split; [done|]. exists ins.
    split; [by eapply lookup_weaken|by eapply objects_weaken]. }
  { intros _ p. apply marked_copy. }
  rewrite (bind_eq _ _ h out h1).
  2:{ by rewrite (bind_eq _ _ h ins h) by (by apply getArray_done). }
  rewrite (bind_eq _ _ h1 vs h1)
    by (apply readObjects_done; split; [done|]; by exists outs).
  rewrite (bind_eq _ _ h1 outs h1) by (by apply getArray_done).
  cbv zeta.
  destruct (newArrayOf (filter (λ rp : nat * Intro.Point,
                                  Intro.isCorrect rp.2 = Some true)
                               (zip outs vs)).*1 h1)
    as [[kept h2]| |] eqn:Hkept; try done.
  rewrite (bind_eq _ _ h1 kept h2) by done.
  eexists out, _, h2. split; [done|].
  apply newArrayOf_done in Hkept as (Hsub2 & Hfresh2 & _).
  destruct Hcopy as (_ & Hnew & ins' & outs' & Hin' & Hout' & Hlen & Hnd & Hall).
  split; [by etrans|]. split; [done|].
  exists ins', outs'. split; [done|]. split; [by eapply lookup_weaken|].
  split; [done|]. split; [done|].
  intros i r Hr. destruct (Hall i r Hr) as (r' & o & o' & ? & ? & ? & ? & ?).
  exists r', o, o'. do 3 (split; [done|]). split; [|done].
  by eapply lookup_weaken.
Qed.

(** *** kMeans on the heap *)

Lemma at_index_elem {A} (a : list A) i x :
  Advanced.at_index a i = Some x → x ∈ a.
Proof.
  unfold Advanced.at_index. case_bool_decide; [|done].
  apply list_elem_of_lookup_2.
Qed.

Lemma getSums_done r (h : gmap nat (cell object)) s h' :
  getSums r h = Done (s, h') → h' = h.
Proof.
  unfold getSums. intros (o & h1 & [-> _]%getObject_done & Hs)%bind_done.
  destruct o; try done. by apply ret_done in Hs as [_ ->].
Qed.

(** The seeding loop writes the new array [cs] and new objects only. *)
Lemma seedLoop_frame h0 fuel random points cs k draw seen h u h' :
  h0 ⊆ h → h0 !! cs = None →
  seedLoop fuel random points cs k draw seen h = Done (u, h') → h0 ⊆ h'.
Proof.
  intros Hsub Hcs. revert draw seen h Hsub.
  induction fuel as [|fuel IH]; intros draw seen h Hsub; cbn [seedLoop];
    intros (crefs & h1 & [-> Hc]%getArray_done & Hrun)%bind_done;
    (case_bool_decide; [|by apply ret_done in Hrun as [_ ->]]); [done|].
  apply bind_done in Hrun as (prefs & h1 & [-> Hp]%getArray_done & Hrun).
  cbv zeta in Hrun. case_bool_decide; [by eapply IH|].
  apply bind_done in Hrun as (o & h1 & Ho & Hrun).
  assert (h1 = h) as ->.
  { destruct (Advanced.at_index prefs _).
    - by apply getObject_done in Ho as [-> _].
    - by apply ret_done in Ho as [_ ->]. }
  apply bind_done in Hrun as (r' & h1 & (Hsub1 & _)%newObject_done & Hrun).
  apply bind_done in Hrun as (crefs' & h2 & [-> _]%getArray_done & Hrun).
  apply bind_done in Hrun as (? & h2 & [-> _]%setArray_done & Hrun).
  eapply IH; [|done]. apply keeps_insert; [by transitivity h|done].
Qed.

Lemma initCentroids_frame fuel random points k initialCentroids
    (h : gmap nat (cell object)) c h' :
  initCentroids fuel random points k initialCentroids h = Done (c, h') →
  h ⊆ h' ∧ h !! c = None.
Proof.
  assert ((cs ← newArrayOf [];
           seedLoop fuel random points cs k 0 ∅;; mret cs) h = Done (c, h') →
          h ⊆ h' ∧ h !! c = None) as Hseeded.
  { intros (cs & h1 & (Hsub & Hfresh & _)%newArrayOf_done & Hrun)%bind_done.
    apply bind_done in Hrun as (? & h2 & Hloop & [-> ->]%ret_done).
    split; [|done]. by eapply seedLoop_frame. }
  unfold initCentroids. destruct initialCentroids as [a|]; [|by apply Hseeded].
  intros (irefs & h1 & [-> Ha]%getArray_done & Hrun)%bind_done.
  case_bool_decide; [|by apply Hseeded].
  unfold mapNew in Hrun.
  apply bind_done in Hrun as (refs & h1 & [-> _]%getArray_done & Hrun).
  apply bind_done in Hrun as (outs & h1 & Hsub%newObjects_frame & Hrun).
  - apply newArrayOf_done in Hrun as (Hsub' & Hfresh & _).
    split; [by transitivity h1|by eapply lookup_weaken_None].
  - intros h2 _ o v h3. by intros [_ ->]%ret_done.
Qed.

(** The assignment loop reads the heap and writes [labels]. *)
Lemma assignLoop_done centroids norm i prefs labels changed
    (h : gmap nat (cell object)) labels' changed' h' :
  assignLoop centroids norm i prefs labels changed h
  = Done (labels', changed', h') →
  h' = h ∧ length labels' = length labels.
Proof.
  revert i labels changed.
  induction prefs as [|pr prefs IH]; intros i labels changed; cbn [assignLoop].
  - by intros [[= -> ->] ->]%ret_done.
  - intros (p & h1 & [-> _]%getObject_done & Hrun)%bind_done.
    apply bind_done in Hrun as (cs & h1 & [-> _]%readObjects_done & Hrun).
    cbv zeta in Hrun. case_bool_decide; [by eapply IH|].
    apply IH in Hrun as [-> Hlen]. by rewrite length_insert in Hlen.
Qed.

(** The sums are written in place; they are objects of this call. *)
Lemma accumulate_frame h0 points sums srefs idx labels h u h' :
  h0 ⊆ h → h !! sums = Some (Arr srefs) →
  Forall (λ r, h0 !! r = None) srefs →
  accumulate points sums idx labels h = Done (u, h') →
  h0 ⊆ h' ∧ h' !! sums = Some (Arr srefs).
Proof.
  intros Hsub Hsums Hnew. revert idx h Hsub Hsums.
  induction labels as [|lbl labels IH]; intros idx h Hsub Hsums;
    cbn [accumulate].
  - by intros [_ ->]%ret_done.
  - intros (prefs & h1 & [-> _]%getArray_done & Hrun)%bind_done.
    apply bind_done in Hrun as (srefs' & h1 & [-> Hsums']%getArray_done & Hrun).
    assert (srefs' = srefs) as -> by congruence.
    destruct (prefs !! idx) as [pr|]; [|done].
    destruct (Advanced.at_index srefs lbl) as [sr|] eqn:Hsr; [|done].
    apply bind_done in Hrun as (p & h1 & [-> _]%getObject_done & Hrun).
    apply bind_done in Hrun as (s & h1 & ->%getSums_done & Hrun).
    apply bind_done in Hrun as (? & h1 & [-> [o0 Ho0]]%setObject_done & Hrun).
    apply at_index_elem in Hsr. rewrite Forall_forall in Hnew.
    eapply IH; [| |done].
    + apply keeps_insert; [done|by apply Hnew].
    + rewrite lookup_insert_ne; [done|]. intros ->. congruence.
Qed.

Lemma recentre_frame h0 centroids idx srefs h u h' :
  h0 ⊆ h → h0 !! centroids = None →
  recentre centroids idx srefs h = Done (u, h') → h0 ⊆ h'.
Proof.
  intros Hsub Hc. revert idx h Hsub.
  induction srefs as [|sr srefs IH]; intros idx h Hsub; cbn [recentre].
  - by intros [_ ->]%ret_done.
  - intros (s & h1 & ->%getSums_done & Hrun)%bind_done.
    apply bind_done in Hrun as (? & h1 & Hstep & Hrun).
    eapply IH; [|done]. case_bool_decide.
    + apply bind_done in Hstep as (c & h2 & (Hsub2 & _)%newObject_done & Hstep).
      apply bind_done in Hstep as (crefs & h3 & [-> _]%getArray_done & Hstep).
      apply setArray_done in Hstep as [-> _].
      apply keeps_insert; [by transitivity h|done].
    + by apply ret_done in Hstep as [_ ->].
Qed.

Lemma update_frame h0 points centroids k labels h u h' :
  h0 ⊆ h → h0 !! centroids = None →
  update points centroids k labels h = Done (u, h') → h0 ⊆ h'.
Proof.
  intros Hsub Hc. unfold update.
  intros (srefs & h1 & [Hsub1 Hnew]%arrayFrom_done & Hrun)%bind_done.
  apply bind_done in Hrun as (sums & h2 & (Hsub2 & _ & Hsums)%newArrayOf_done & Hrun).
  apply bind_done in Hrun as (? & h3 & Hacc & Hrun).
  apply (accumulate_frame h0 _ _ srefs) in Hacc as [Hsub3 _]; [|  |done|].
  - apply bind_done in Hrun as (srefs' & h4 & [-> _]%getArray_done & Hrun).
    by eapply recentre_frame.
  - transitivity h1; [by transitivity h|done].
  - eapply Forall_impl; [done|]. simpl. intros r Hr.
    by eapply lookup_weaken_None.
Qed.

Lemma lloyd_frame h0 points centroids k norm maxIter labels h labels' h' :
  h0 ⊆ h → h0 !! centroids = None →
  lloyd points centroids k norm maxIter labels h = Done (labels', h') →
  h0 ⊆ h' ∧ length labels' = length labels.
Proof.
  intros Hsub Hc. revert labels h Hsub.
  induction maxIter as [|maxIter IH]; intros labels h Hsub; cbn [lloyd].
  - by intros [-> ->]%ret_done.
  - intros (prefs & h1 & [-> _]%getArray_done & Hrun)%bind_done.
    apply bind_done in Hrun as ([labels1 changed] & h1 & [-> Hlen]%assignLoop_done & Hrun).
    simpl in Hrun. destruct changed; simpl in Hrun.
    + apply bind_done in Hrun as (? & h1 & Hupdate & Hrun).
      apply IH in Hrun as [Hsub' Hlen']; [|by eapply update_frame].
      split; [done|congruence].
    + by apply ret_done in Hrun as [-> ->].
Qed.

(** Whenever [kMeans] returns, its result is a fresh copy of
    [points]. *)
Lemma kMeans_fresh fuel random points k norm initialCentroids maxIter h out h' :
  arrayOf h points →
  kMeans fuel random points k norm initialCentroids maxIter h = Done (out, h') →
  freshCopy labelledCopy h points out h'.
Proof.
  intros [os (ins & Hin & Hread)%readArray_spec]. unfold kMeans.
  case_bool_decide.
  - unfold mapNew. rewrite (bind_eq _ _ h ins h) by (by apply getArray_done).
    destruct (copies_fresh labelledCopy
                (λ (_ : nat) p, mret (Labeled (Advanced.mkLabeled (asPoint p) 0)))
                (λ _ p, Labeled (Advanced.mkLabeled (asPoint p) 0))
                h h points ins os (seq 0 (length ins)))
      as (outs & out0 & vs & h0' & Hrun & _ & Hcopy & _); try done.
    { by rewrite length_seq. }
    { intros x o. by eexists. }
    rewrite Hrun. by intros [= <- <-].
  - intros (c & h1 & [Hsub1 Hc]%initCentroids_frame & Hrun)%bind_done.
    apply bind_done in Hrun as (prefs & h2 & [-> Hp]%getArray_done & Hrun).
    assert (prefs = ins) as ->.
    { apply (lookup_weaken _ h1) in Hin; [congruence|done]. }
    apply bind_done in Hrun as (labels & h2 & Hlloyd & Hrun).
    apply (lloyd_frame h) in Hlloyd as [Hsub2 Hlen]; [|done..].
    rewrite length_replicate in Hlen.
    destruct (mapLabelled_fresh h h2 points ins os labels)
      as (out0 & h0' & Hrun' & Hcopy); try done.
    rewrite Hrun' in Hrun. by injection Hrun as <- <-.
Qed.

Lemma kMeans_nonpositive fuel random points k norm initialCentroids maxIter h :
  arrayOf h points → (k ≤ 0)%Z →
  ∃ out h',
    kMeans fuel random points k norm initialCentroids maxIter h = Done (out, h').
Proof.
  intros [os (ins & Hin & Hread)%readArray_spec] Hk. unfold kMeans.
  rewrite bool_decide_eq_true_2 by done.
  unfold mapNew. rewrite (bind_eq _ _ h ins h) by (by apply getArray_done).
  destruct (copies_fresh labelledCopy
              (λ (_ : nat) p, mret (Labeled (Advanced.mkLabeled (asPoint p) 0)))
              (λ _ p, Labeled (Advanced.mkLabeled (asPoint p) 0))
              h h points ins os (seq 0 (length ins)))
    as (outs & out0 & vs & h0' & Hrun & _); try done.
  { by rewrite length_seq. }
  { intros x o. by eexists. }
  by exists out0, h0'.
Qed.

(** With more centroids asked for than there are points, the seeding
    loop never has enough of them. *)
Lemma seedLoop_never fuel random points ins cs k draw (seen : gset Z) h u h' :
  Notions.unitInterval random → ins ≠ [] → (Z.of_nat (length ins) < k)%Z →
  cs ≠ points → h !! points = Some (Arr ins) →
  (∃ crefs, h !! cs = Some (Arr crefs) ∧ length crefs = size seen) →
  (∀ i, i ∈ seen → (0 ≤ i < Z.of_nat (length ins))%Z) →
  seedLoop fuel random points cs k draw seen h ≠ Done (u, h').
Proof.
  intros Hunit Hne Hk Hcs. revert draw seen h.
  induction fuel as [|fuel IH];
    intros draw seen h Hp (crefs & Hc & Hlen) Hseen; cbn [seedLoop];
    pose proof (size_below seen (length ins) Hseen) as Hsize;
    intros (crefs0 & h1 & [-> Hc0]%getArray_done & Hrun)%bind_done;
    assert (crefs0 = crefs) as -> by congruence;
    rewrite bool_decide_eq_true_2 in Hrun by lia; [done|].
  apply bind_done in Hrun as (prefs & h1 & [-> Hp0]%getArray_done & Hrun).
  assert (prefs = ins) as -> by congruence.
  cbv zeta in Hrun.
  pose proof (random_index random ins draw Hunit Hne) as Hidx.
  case_bool_decide as Hin.
  { eapply IH; [done| |done|done]. by exists crefs. }
  apply bind_done in Hrun as (o & h1 & Ho & Hrun).
  assert (h1 = h) as ->.
  { destruct (Advanced.at_index ins _).
    - by apply getObject_done in Ho as [-> _].
    - by apply ret_done in Ho as [_ ->]. }
  apply bind_done in Hrun as (r' & h1 & (Hsub1 & Hr' & _)%newObject_done & Hrun).
  apply bind_done in Hrun as (crefs' & h2 & [-> Hc']%getArray_done & Hrun).
  assert (crefs' = crefs) as ->.
  { apply (lookup_weaken _ h1) in Hc; [congruence|done]. }
  apply bind_done in Hrun as (? & h2 & [-> _]%setArray_done & Hrun).
  eapply IH; [| | |done].
  - rewrite lookup_insert_ne by done. by eapply lookup_weaken.
  - exists (crefs ++ [r']). rewrite lookup_insert_eq. split; [done|].
    rewrite length_app, size_union, size_singleton by set_solver. simpl. lia.
  - intros i [->%elem_of_singleton|Hi]%elem_of_union; [done|by apply Hseen].
Qed.

Lemma kMeans_never fuel random points ins k norm maxIter h out h' :
  Notions.unitInterval random → ins ≠ [] → (Z.of_nat (length ins) < k)%Z →
  h !! points = Some (Arr ins) →
  kMeans fuel random points k norm None maxIter h ≠ Done (out, h').
Proof.
  intros Hunit Hne Hk Hp. unfold kMeans.
  rewrite bool_decide_eq_false_2 by lia. cbn [initCentroids].
  intros (c & h1 & Hinit & _)%bind_done.
  apply bind_done in Hinit as (cs & h2 & (Hsub & Hfresh & Hcs)%newArrayOf_done & Hinit).
  apply bind_done in Hinit as (? & h3 & Hloop & _).
  eapply seedLoop_never in Hloop; try done.
  - intros ->. congruence.
  - by eapply lookup_weaken.
  - exists []. by rewrite size_empty.
Qed.

(** With [k > 0] centroids supplied, the loops of [kMeans] find what
    they read: every round returns.  (The limit of an engine on the
    number of arguments of [Math.min(...dists)] is not part of the
    model.) *)
Lemma assignLoop_returns centroids norm i prefs labels changed cvals
    (h : gmap nat (cell object)) :
  objectsAt h prefs → readArray h centroids = Some cvals → cvals ≠ [] →
  length labels = i + length prefs →
  ∃ labels' changed',
    assignLoop centroids norm i prefs labels changed h
    = Done (labels', changed', h) ∧
    (∀ j, j < i → labels' !! j = labels !! j) ∧
    (∀ j l, i ≤ j → labels' !! j = Some l →
            (0 ≤ l < Z.of_nat (length cvals))%Z).
Proof.
  intros Hprefs Hc Hne. apply readObjects_readArray in Hc.
  revert i labels changed.
  induction Hprefs as [|pr prefs [p Hp] _ IH]; intros i labels changed Hlen;
    cbn [assignLoop].
  - exists labels, changed. split; [done|]. split; [done|].
    intros j l Hj Hl%lookup_lt_Some. simpl in Hlen. lia.
  - rewrite (bind_eq _ _ h p h) by (by apply getObject_done).
    rewrite (bind_eq _ _ h cvals h) by done. cbv zeta.
    set (m := Advanced.minIdx (asPoint p) (asPoint <$> cvals) norm).
    assert (0 ≤ m < Z.of_nat (length cvals))%Z as Hm.
    { rewrite <- (length_fmap asPoint cvals). apply minIdx_range.
      by destruct cvals. }
    simpl in Hlen. case_bool_decide as Hi.
    + destruct (IH (S i) labels changed) as (labels' & changed' & Hrun & Hlow & Hhigh);
        [lia|].
      exists labels', changed'. split; [done|]. split.
      * intros j Hj. apply Hlow. lia.
      * intros j l Hj Hl. destruct (decide (j = i)) as [->|Hne'].
        -- rewrite Hlow, Hi in Hl by lia. by simplify_eq.
        -- apply (Hhigh j); [lia|done].
    + destruct (IH (S i) (<[i:=m]> labels) true)
        as (labels' & changed' & Hrun & Hlow & Hhigh);
        [rewrite length_insert; lia|].
      exists labels', changed'. split; [done|]. split.
      * intros j Hj. rewrite Hlow by lia. apply list_lookup_insert_ne. lia.
      * intros j l Hj Hl. destruct (decide (j = i)) as [->|Hne'].
        -- rewrite Hlow, list_lookup_insert_eq in Hl by lia. by simplify_eq.
        -- apply (Hhigh j); [lia|done].
Qed.

Lemma accumulate_returns points sums prefs srefs idx labels
    (h : gmap nat (cell object)) :
  h !! points = Some (Arr prefs) → objectsAt h prefs →
  h !! sums = Some (Arr srefs) →
  Forall (λ r, ∃ s, h !! r = Some (Obj (Sums s))) srefs →
  idx + length labels ≤ length prefs →
  Forall (λ l, 0 ≤ l < Z.of_nat (length srefs))%Z labels →
  ∃ h', accumulate points sums idx labels h = Done (tt, h') ∧
        Forall (λ r, ∃ s, h' !! r = Some (Obj (Sums s))) srefs.
Proof.
  revert idx h.
  induction labels as [|lbl labels IH];
    intros idx h Hp Hprefs Hs Hsums Hlen Hrange; cbn [accumulate].
  - by exists h.
  - apply Forall_cons in Hrange as [Hlbl Hrange]. simpl in Hlen.
    rewrite (bind_eq _ _ h prefs h) by (by apply getArray_done).
    rewrite (bind_eq _ _ h srefs h) by (by apply getArray_done).
    destruct (lookup_lt_is_Some_2 prefs idx) as [pr Hpr]; [lia|].
    destruct (lookup_lt_is_Some_2 srefs (Z.to_nat lbl)) as [sr Hsr]; [lia|].
    rewrite Hpr. unfold Advanced.at_index.
    rewrite bool_decide_eq_true_2, Hsr by lia.
    pose proof Hprefs as Hprefs'. unfold objectsAt in Hprefs'.
    rewrite Forall_forall in Hprefs'.
    destruct (Hprefs' pr) as [p Hp']; [by eapply list_elem_of_lookup_2|].
    pose proof Hsums as Hsums'. rewrite Forall_forall in Hsums'.
    destruct (Hsums' sr) as [s Hs']; [by eapply list_elem_of_lookup_2|].
    rewrite (bind_eq _ _ h p h) by (by apply getObject_done).
    rewrite (bind_eq _ _ h s h).
    2:{ unfold getSums. by rewrite (bind_eq _ _ h (Sums s) h)
          by (by apply getObject_done). }
    set (s' := Sums _).
    rewrite (bind_eq _ _ h tt (<[sr := Obj s']> h))
      by (unfold setObject; by rewrite Hs').
    apply IH.
    + rewrite lookup_insert_ne; [done|]. intros ->. congruence.
    + by apply objectsAt_setObject.
    + rewrite lookup_insert_ne; [done|]. intros ->. congruence.
    + eapply Forall_impl; [done|]. simpl. intros r [s0 Hr].
      destruct (decide (r = sr)) as [->|Hne].
      * eexists. rewrite lookup_insert_eq. done.
      * exists s0. by rewrite lookup_insert_ne.
    + lia.
    + done.
Qed.

Lemma recentre_returns centroids idx srefs crefs (h : gmap nat (cell object)) :
  Forall (λ r, ∃ s, h !! r = Some (Obj (Sums s))) srefs →
  h !! centroids = Some (Arr crefs) → objectsAt h crefs →
  ∃ h' crefs',
    recentre centroids idx srefs h = Done (tt, h') ∧
    h' !! centroids = Some (Arr crefs') ∧ length crefs' = length crefs ∧
    objectsAt h' crefs'.
Proof.
  revert idx crefs h.
  induction srefs as [|sr srefs IH]; intros idx crefs h Hsums Hc Hcrefs;
    cbn [recentre].
  - by exists h, crefs.
  - apply Forall_cons in Hsums as [[s Hs] Hsums].
    rewrite (bind_eq _ _ h s h).
    2:{ unfold getSums. by rewrite (bind_eq _ _ h (Sums s) h)
          by (by apply getObject_done). }
    case_bool_decide.
    + set (c := Plain _).
      destruct (newObject c h) as [[r h1]| |] eqn:Hnew; try done.
      apply newObject_done in Hnew as Hr. destruct Hr as (Hsub & _ & Hr).
      assert (h1 !! centroids = Some (Arr crefs)) as Hc1
        by (by eapply lookup_weaken).
      rewrite (bind_eq _ _ h tt (<[centroids := Arr (<[idx := r]> crefs)]> h1)).
      2:{ rewrite (bind_eq _ _ h r h1) by done.
          rewrite (bind_eq _ _ h1 crefs h1) by (by apply getArray_done).
          unfold setArray. by rewrite Hc1. }
      destruct (IH (S idx) (<[idx := r]> crefs)
                  (<[centroids := Arr (<[idx := r]> crefs)]> h1))
        as (h' & crefs' & Hrun & Hc' & Hlen & Hcrefs').
      * eapply Forall_impl; [done|]. simpl. intros r0 [s0 Hr0]. exists s0.
        rewrite lookup_insert_ne; [by eapply lookup_weaken|].
        intros ->. congruence.
      * apply lookup_insert_eq.
      * eapply objectsAt_setArray; [done|].
        apply Forall_insert; [by eapply objectsAt_weaken|by exists c].
      * exists h', crefs'. split; [done|]. split; [done|]. split; [|done].
        by rewrite Hlen, length_insert.
    + rewrite (bind_eq _ _ h tt h) by done. by apply IH.
Qed.

Lemma update_returns points centroids prefs crefs k labels
    (h : gmap nat (cell object)) :
  h !! points = Some (Arr prefs) → objectsAt h prefs →
  h !! centroids = Some (Arr crefs) → objectsAt h crefs →
  length labels = length prefs → (0 < k)%Z →
  Forall (λ l, 0 ≤ l < k)%Z labels →
  ∃ h' crefs',
    update points centroids k labels h = Done (tt, h') ∧
    h' !! centroids = Some (Arr crefs') ∧ length crefs' = length crefs ∧
    objectsAt h' crefs'.
Proof.
  intros Hp Hprefs Hc Hcrefs Hlen Hk Hrange. unfold update.
  destruct (arrayFrom_spec (Z.to_nat k) (Sums (Advanced.mkSum 0 0 0)) h)
    as (srefs & h1 & Hfrom & Hlen1 & Hsub1 & Hsums).
  rewrite (bind_eq _ _ h srefs h1) by done.
  destruct (newArrayOf srefs h1) as [[sums h2]| |] eqn:Hnew; try done.
  apply newArrayOf_done in Hnew as Hsums2. destruct Hsums2 as (Hsub2 & _ & Hs2).
  rewrite (bind_eq _ _ h1 sums h2) by done.
  assert (h ⊆ h2) as Hsub by (by transitivity h1).
  destruct (accumulate_returns points sums prefs srefs 0 labels h2)
    as (h3 & Hacc & Hsums3).
  { by eapply lookup_weaken. }
  { by eapply objectsAt_weaken. }
  { done. }
  { eapply Forall_impl; [done|]. simpl. intros r Hr. eexists.
    by eapply lookup_weaken. }
  { lia. }
  { eapply Forall_impl; [done|]. simpl. intros l Hl. lia. }
  rewrite (bind_eq _ _ h2 tt h3) by done.
  destruct (accumulate_frame h points sums srefs 0 labels h2 tt h3)
    as [Hsub3 Hs3]; [done|done| |done|].
  { by apply arrayFrom_done in Hfrom as [_ Hfresh]. }
  rewrite (bind_eq _ _ h3 srefs h3) by (by apply getArray_done).
  apply recentre_returns; [done|by eapply lookup_weaken|].
  by eapply objectsAt_weaken.
Qed.

Lemma lloyd_returns points centroids prefs crefs k norm maxIter labels
    h0 (h : gmap nat (cell object)) :
  h0 ⊆ h → h0 !! points = Some (Arr prefs) → objectsAt h0 prefs →
  h0 !! centroids = None →
  h !! centroids = Some (Arr crefs) → objectsAt h crefs →
  Z.of_nat (length crefs) = k → (0 < k)%Z →
  length labels = length prefs →
  ∃ labels' h', lloyd points centroids k norm maxIter labels h = Done (labels', h').
Proof.
  intros Hsub Hp Hprefs Hfresh Hc Hcrefs Hlen Hk Hlabels.
  revert labels crefs h Hsub Hc Hcrefs Hlen Hlabels.
  induction maxIter as [|maxIter IH];
    intros labels crefs h Hsub Hc Hcrefs Hlen Hlabels; cbn [lloyd].
  { by exists labels, h. }
  rewrite (bind_eq _ _ h prefs h)
    by (apply getArray_done; split; [done|]; by eapply lookup_weaken).
  apply objectsAt_read in Hcrefs as Hcvals. destruct Hcvals as [cvals Hcvals].
  assert (length cvals = length crefs) as Hlen'
    by (symmetry; by eapply Forall2_length).
  destruct (assignLoop_returns centroids norm 0 prefs labels false cvals h)
    as (labels1 & changed & Hrun & _ & Hrange).
  { by eapply objectsAt_weaken. }
  { apply readArray_spec. by exists crefs. }
  { destruct cvals; [simpl in *; lia|done]. }
  { done. }
  pose proof Hrun as [_ Hlen1]%assignLoop_done.
  rewrite (bind_eq _ _ h (labels1, changed) h) by done. simpl.
  destruct changed; simpl; [|by exists labels1, h].
  destruct (update_returns points centroids prefs crefs k labels1 h)
    as (h1 & crefs1 & Hupdate & Hc1 & Hlen1' & Hcrefs1); try done.
  { by eapply lookup_weaken. }
  { by eapply objectsAt_weaken. }
  { congruence. }
  { apply Forall_forall. intros l [j Hj]%list_elem_of_lookup_1.
    rewrite <- Hlen, <- Hlen'. apply (Hrange j); [lia|done]. }
  rewrite (bind_eq _ _ h tt h1) by done.
  apply (IH labels1 crefs1 h1); try done; try congruence.
  by eapply update_frame.
Qed.

Lemma kMeans_heap_supplied fuel random points k norm a maxIter
    (h : gmap nat (cell object)) irefs :
  arrayOf h points → arrayOf h a → h !! a = Some (Arr irefs) →
  Z.of_nat (length irefs) = k → (0 < k)%Z →
  ∃ out h', kMeans fuel random points k norm (Some a) maxIter h = Done (out, h').
Proof.
  intros [os (ins & Hin & Hread)%readArray_spec]
         [cs (irefs' & Ha & Hcs)%readArray_spec] Ha' Hlen Hk.
  assert (irefs' = irefs) as -> by congruence.
  unfold kMeans. rewrite bool_decide_eq_false_2 by lia.
  cbn [initCentroids].
  destruct (copies_fresh (λ _ _, True) (λ (_ : nat) (c : object), mret c)
              (λ _ c, c) h h a irefs cs (seq 0 (length irefs)))
    as (outs & out & vs & h1 & Hrun & Hsub & Hcopy & Hout & _ & Hobj);
    try done.
  { by rewrite length_seq. }
  rewrite (bind_eq _ _ h out h1).
  2:{ rewrite (bind_eq _ _ h irefs h) by (by apply getArray_done).
      rewrite bool_decide_eq_true_2 by done. unfold mapNew.
      by rewrite (bind_eq _ _ h irefs h) by (by apply getArray_done). }
  rewrite (bind_eq _ _ h1 ins h1)
    by (apply getArray_done; split; [done|]; by eapply lookup_weaken).
  destruct Hcopy as (_ & Hfresh & ins' & outs' & Hin' & Hout' & Hlen' & _).
  assert (outs' = outs) as -> by congruence.
  assert (ins' = irefs) as -> by congruence.
  destruct (lloyd_returns points out ins outs k norm (default 50 maxIter)
              (replicate (length ins) 0%Z) h h1)
    as (labels & h2 & Hlloyd); try done.
  { apply objectsAt_read. by exists os. }
  { apply objectsAt_read. by exists vs. }
  { congruence. }
  { by rewrite length_replicate. }
  rewrite (bind_eq _ _ h1 labels h2) by done.
  apply (lloyd_frame h) in Hlloyd as [Hsub2 Hlabels]; [|done..].
  rewrite length_replicate in Hlabels.
  destruct (mapLabelled_fresh h h2 points ins os labels)
    as (out' & h' & Hrun' & _); try done.
  by exists out', h'.
Qed.

Lemma singleton_array : readArray singleton 1 = Some [Plain (Advanced.mkPoint 0 0)].
Proof. reflexivity. Qed.

Lemma pair_array :
  readArray pair 2
  = Some [Plain (Advanced.mkPoint 1 2); Plain (Advanced.mkPoint 3 4)].
Proof. reflexivity. Qed.

(** C10, amended: densityCluster and the validator return, for every
    array of points, a new array of new elements, of the input's
    length and in input order, whose i-th element has the coordinates
    (for the validator also the id, the colour and the clusterId) of
    the i-th input element; the input array, its elements and every
    other cell the caller holds are as they were.  Whenever partition
    returns, its result is such an array as well, whatever its loops
    have written in between; it returns whenever k ≤ 0, but not on
    every input. *)
Theorem C10_results_are_fresh_copies :
  (∀ points eps minPts norm (h : heap object),
     arrayOf h points →
     ∃ out h', Heap.dbscan points eps minPts norm h = Done (out, h') ∧
               freshCopy labelledCopy h points out h') ∧
  (∀ pts (h : heap Intro.Point),
     arrayOf h pts →
     ∃ out n h', Heap.evaluate pts h = Done (out, n, h') ∧
                 freshCopy evaluatedCopy h pts out h') ∧
  (∀ fuel random points k norm initialCentroids maxIter (h : heap object),
     arrayOf h points →
     (∀ out h',
        Heap.kMeans fuel random points k norm initialCentroids maxIter h
        = Done (out, h') →
        freshCopy labelledCopy h points out h') ∧
     ((k ≤ 0)%Z →
      ∃ out h',
        Heap.kMeans fuel random points k norm initialCentroids maxIter h
        = Done (out, h'))).
Proof.
  split; [|split].
  - intros points eps minPts norm h Harr. by apply dbscan_fresh.
  - intros pts h Harr. by apply evaluate_fresh.
  - intros fuel random points k norm initialCentroids maxIter h Harr. split.
    + intros out h' Hrun. by eapply kMeans_fresh.
    + intros Hk. by apply kMeans_nonpositive.
Qed.

Lemma C10_witness :
  (arrayOf pair 2 ∧ arrayOf coloured 2) ∧
  (∃ out h', Heap.dbscan 2 1 1 Advanced.L1 pair = Done (out, h') ∧
             freshCopy labelledCopy pair 2 out h') ∧
  (∃ out n h', Heap.evaluate 2 coloured = Done (out, n, h') ∧
               freshCopy evaluatedCopy coloured 2 out h') ∧
  (∃ out h',
     Heap.kMeans 0 (λ _, 0%R) 2 2 Advanced.L1 (Some 2) None pair
     = Done (out, h') ∧
     freshCopy labelledCopy pair 2 out h').
Proof.
  assert (arrayOf pair 2) as Harr by (eexists; apply pair_array).
  assert (arrayOf coloured 2) as Harr' by (eexists; reflexivity).
  split; [exact (conj Harr Harr')|]. split; [|split].
  - apply (proj1 C10_results_are_fresh_copies 2 1%R 1%Z Advanced.L1 pair Harr).
  - apply (proj1 (proj2 C10_results_are_fresh_copies) 2 coloured Harr').
  - destruct (kMeans_heap_supplied 0 (λ _, 0%R) 2 2%Z Advanced.L1 2 None pair
                [0; 1] Harr Harr eq_refl eq_refl eq_refl)
      as (out & h' & Hrun).
    exists out, h'. split; [exact Hrun|].
    exact (proj1 (proj2 (proj2 C10_results_are_fresh_copies)
                    0 (λ _, 0%R) 2 2%Z Advanced.L1 (Some 2) None pair Harr)
             out h' Hrun).
Defined.

(** C10 as stated fails for partition: with one point, k = 2 and no
    initial centroids, the call never returns, whatever Math.random
    returns. *)
Lemma C10_counterexample :
  arrayOf singleton 1 ∧
  ∀ random, Notions.unitInterval random →
    ¬ ∃ fuel out h',
        Heap.kMeans fuel random 1 2 Advanced.L2 None None singleton
        = Done (out, h').
Proof.
  split; [eexists; apply singleton_array|].
  intros random Hunit (fuel & out & h' & Hrun). revert Hrun.
  apply (kMeans_never fuel random 1 [0]); [done|done|simpl; lia|reflexivity].
Qed.

End HeapClaims.


(** ** Out-of-domain parameters *)

Section Domain.
Import Advanced Notions.

(** C2, amended: out-of-domain parameters are not rejected.  With
    eps ≤ 0 or minPts < 1, densityCluster returns one labelled point
    per input point, each label -1 or a cluster id ≥ 0.  With k larger
    than the number of points, at least one point and random centroid
    seeding (no initial centroids, or not k of them; Math.random in
    [0, 1)), partition loops indefinitely: it is still running after
    any number of steps.  (An engine's limit on the number of
    arguments of a call is not modelled.) *)
Theorem C2_no_parameter_validation :
  (∀ points eps minPts norm,
     (eps <= 0)%R ∨ (minPts < 1)%Z →
     ∃ result,
       dbscan points eps minPts norm = Done result ∧
       length result = length points ∧
       Forall (λ lp, finalLabel (cluster lp)) result) ∧
  (∀ fuel random points k norm initialCentroids maxIter,
     unitInterval random → points ≠ [] →
     (Z.of_nat (length points) < k)%Z →
     (∀ ic, initialCentroids = Some ic → Z.of_nat (length ic) ≠ k) →
     kMeans fuel random points k norm initialCentroids maxIter = Spinning).
Proof.
  split.
  - intros points eps minPts norm _.
    destruct (dbscan_labelled points eps minPts norm) as (result & Hrun & Hlen & Hfin).
    exists result. split; [done|]. split; [done|].
    eapply Forall_impl; [done|]. by intros lp [? _].
  - intros fuel random points k norm initialCentroids maxIter Hunit Hne Hk Hic.
    unfold kMeans, initCentroids. rewrite bool_decide_eq_false_2 by lia.
    destruct initialCentroids as [ic|].
    + rewrite bool_decide_eq_false_2 by (by apply Hic).
      rewrite seedLoop_spins; [done|done|done|done|done|].
      intros i Hi. by apply elem_of_empty in Hi.
    + rewrite seedLoop_spins; [done|done|done|done|done|].
      intros i Hi. by apply elem_of_empty in Hi.
Qed.

Lemma C2_witness :
  (((-1 <= 0)%R ∨ (0 < 1)%Z) ∧
   ∃ result,
     dbscan [origin] (-1) 0 L1 = Done result ∧
     length result = 1 ∧
     Forall (λ lp, finalLabel (cluster lp)) result) ∧
  (unitInterval (λ _, 0%R) ∧ [origin] ≠ [] ∧
   (Z.of_nat (length [origin]) < 2)%Z ∧
   kMeans 1000 (λ _, 0%R) [origin] 2 L1 None None = Spinning).
Proof.
  assert (unitInterval (λ _, 0%R)) as Hunit by (intros d; lra).
  split.
  - split; [right; lia|].
    apply (proj1 C2_no_parameter_validation [origin] (-1)%R 0%Z L1). right. lia.
  - split; [exact Hunit|]. split; [done|]. split; [simpl; lia|].
    apply (proj2 C2_no_parameter_validation 1000 (λ _, 0%R) [origin] 2%Z L1 None None);
      [exact Hunit|done|simpl; lia|done].
Defined.

(** C2 as stated fails.  With eps = -1 and minPts = 0, densityCluster
    returns, and makes the point a cluster of its own; with one point
    and k = 2, partition neither returns nor fails, however long it
    runs. *)
Lemma C2_counterexample :
  (((-1 <= 0)%R ∧ (0 < 1)%Z) ∧
   dbscan [origin] (-1) 0 L1 = Done [mkLabeled origin 0] ∧
   ¬ failsFast (dbscan [origin] (-1) 0 L1)) ∧
  ((Z.of_nat (length [origin]) < 2)%Z ∧
   ∀ fuel random, unitInterval random →
     kMeans fuel random [origin] 2 L1 None None = Spinning ∧
     ¬ failsFast (kMeans fuel random [origin] 2 L1 None None)).
Proof.
  split.
  - split; [split; [lra|lia]|]. split; [apply dbscan_single_out_of_domain|].
    intros [msg Hthrown]. by rewrite dbscan_single_out_of_domain in Hthrown.
  - split; [simpl; lia|]. intros fuel random Hunit.
    assert (kMeans fuel random [origin] 2 L1 None None = Spinning) as Hspin
      by (apply kMeans_spins; [done|done|simpl; lia]).
    split; [done|]. intros [msg Hthrown]. congruence.
Qed.

End Domain.

(** ** Datasets and chart helpers *)

Section ChartFacts.
Import Advanced Chart.
Local Open Scope R_scope.

Lemma generateCirclePoints_length cx cy r n :
  length (generateCirclePoints cx cy r n) = Z.to_nat n.
Proof. unfold generateCirclePoints. by rewrite length_map, length_seq. Qed.

(** X1: generateCirclePoints(cx, cy, r, n) returns n points (none for
    n ≤ 0); over the real numbers (cos, sin and the square root exact,
    rounding not modelled) each of them is at Euclidean distance |r|
    from the centre (cx, cy). *)
Theorem generateCirclePoints_on_circle cx cy r n :
  length (generateCirclePoints cx cy r n) = Z.to_nat n ∧
  ∀ p, p ∈ generateCirclePoints cx cy r n →
       calcDistance p (mkPoint cx cy) L2 = Rabs r.
Proof.
  split; [apply generateCirclePoints_length|].
  intros p (i & -> & _)%list_elem_of_fmap.
  unfold calcDistance, hypot. simpl.
  set (angle := 2 * PI * INR i / IZR n).
  replace ((cx + r * cos angle - cx) * (cx + r * cos angle - cx) +
           (cy + r * sin angle - cy) * (cy + r * sin angle - cy))
    with (Rsqr r * (Rsqr (sin angle) + Rsqr (cos angle)))
    by (unfold Rsqr; lra).
  rewrite sin2_cos2, Rmult_1_r. apply sqrt_Rsqr_abs.
Qed.

Lemma DATASETS_length key :
  length (DATASETS key) = match key with dataset1 => 120 | dataset2 => 240 end%nat.
Proof.
  destruct key; unfold DATASETS;
    by rewrite length_app, !generateCirclePoints_length.
Qed.

Lemma mapGet_mapSet m key key' v :
  mapGet (mapSet m key v) key' =
  if bool_decide (key = key') then Some v else mapGet m key'.
Proof.
  induction m as [|[k v'] m IH]; simpl; [done|].
  destruct (decide (k = key)) as [->|Hne].
  - rewrite (bool_decide_eq_true_2 (key = key)) by done. simpl.
    by case_bool_decide.
  - rewrite (bool_decide_eq_false_2 (k = key)) by done. simpl.
    rewrite IH. repeat case_bool_decide; congruence.
Qed.

Lemma mapGet_None m key : mapGet m key = None ↔ key ∉ m.*1.
Proof.
  induction m as [|[k v] m IH]; csimpl.
  - split; [intros _; apply not_elem_of_nil|done].
  - rewrite not_elem_of_cons. case_bool_decide as Hk.
    + split; [done|]. by intros [? _].
    + rewrite IH. split; [intros ?; split; [congruence|done]|by intros [_ ?]].
Qed.

Lemma mapSet_keys m key v :
  (mapSet m key v).*1 = if bool_decide (key ∈ m.*1) then m.*1 else m.*1 ++ [key].
Proof.
  induction m as [|[k v'] m IH]; csimpl; [done|].
  destruct (decide (k = key)) as [->|Hne].
  - rewrite (bool_decide_eq_true_2 (key = key)) by done. csimpl.
    rewrite bool_decide_eq_true_2; [done|left].
  - rewrite (bool_decide_eq_false_2 (k = key)) by done. csimpl.
    rewrite IH. destruct (decide (key ∈ m.*1)) as [Hin|Hin].
    + rewrite !bool_decide_eq_true_2; [done|by right|done].
    + rewrite !bool_decide_eq_false_2; [done| |done].
      rewrite not_elem_of_cons. split; [congruence|done].
Qed.

Lemma splitIntoClusters_snoc points p :
  splitIntoClusters (points ++ [p]) =
  mapSet (splitIntoClusters points) (cluster p)
    (default [] (mapGet (splitIntoClusters points) (cluster p)) ++ [p]).
Proof. unfold splitIntoClusters. by rewrite foldl_app. Qed.

Lemma splitIntoClusters_get points c :
  mapGet (splitIntoClusters points) c =
  if bool_decide (members c points = []) then None else Some (members c points).
Proof.
  induction points as [|p points IH] using rev_ind; [done|].
  rewrite splitIntoClusters_snoc, mapGet_mapSet. unfold members in *.
  rewrite filter_app, filter_cons, filter_nil.
  destruct (decide (cluster p = c)) as [Hc|Hc].
  - rewrite (bool_decide_eq_true_2 _ Hc).
    rewrite (bool_decide_eq_false_2 (_ ++ [p] = []))
      by (intros Hnil; by apply app_eq_nil in Hnil as [_ ?]).
    rewrite Hc, IH. by case_bool_decide as Hnil; [rewrite Hnil|].
  - rewrite (bool_decide_eq_false_2 _ Hc). by rewrite app_nil_r.
Qed.

Lemma splitIntoClusters_keys_snoc points p :
  (splitIntoClusters (points ++ [p])).*1 =
  if bool_decide (cluster p ∈ (splitIntoClusters points).*1)
  then (splitIntoClusters points).*1
  else (splitIntoClusters points).*1 ++ [cluster p].
Proof. by rewrite splitIntoClusters_snoc, mapSet_keys. Qed.

(** X2: splitIntoClusters groups the points by cluster: the entry of a
    cluster id holds exactly the points with that id, in input order;
    an id no point has is not a key (there is no empty group); no key
    is repeated; and the keys come in the order in which the ids first
    appear in the input (more input only adds keys at the end). *)
Theorem splitIntoClusters_groups points :
  (∀ c, match mapGet (splitIntoClusters points) c with
        | Some group => group = members c points ∧ group ≠ []
        | None => members c points = []
        end) ∧
  NoDup (splitIntoClusters points).*1 ∧
  (∀ more, (splitIntoClusters points).*1 `prefix_of`
           (splitIntoClusters (points ++ more)).*1).
Proof.
  split; [|split].
  - intros c. rewrite splitIntoClusters_get. by case_bool_decide.
  - induction points as [|p points IH] using rev_ind; [constructor|].
    rewrite splitIntoClusters_keys_snoc. case_bool_decide as Hin; [done|].
    apply NoDup_app. split; [done|]. split; [|apply NoDup_singleton].
    intros k Hk ->%list_elem_of_singleton. done.
  - intros more. induction more as [|p more IH] using rev_ind.
    + by rewrite app_nil_r.
    + rewrite app_assoc, splitIntoClusters_keys_snoc.
      case_bool_decide; [done|]. etrans; [done|]. by apply prefix_app_r.
Qed.

Lemma jitter_cases o : (0 ≤ o < 9)%Z →
  (o = 0 ∨ o = 1 ∨ o = 2 ∨ o = 3 ∨ o = 4 ∨ o = 5 ∨ o = 6 ∨ o = 7 ∨ o = 8)%Z.
Proof. lia. Qed.

Ltac eval_factors :=
  repeat match goal with
  | |- context [IZR ?z] =>
      lazymatch z with
      | context [Z.rem] => idtac
      | context [Z.div] => idtac
      end;
      let v := eval vm_compute in z in change z with v
  end.

(** X3: over the real numbers (sums and products exact, rounding not
    modelled), for an offsetIndex from 0 to 8, jitterPoint moves each
    coordinate by at most JITTER_STEP (0.18); only offsetIndex 4 leaves
    the point where it is; and two different offsets never give the
    same point. *)
Theorem jitterPoint_grid p o :
  (0 ≤ o < 9)%Z →
  calcDistance (jitterPoint p o) p Linf <= JITTER_STEP ∧
  (jitterPoint p o = p ↔ o = 4%Z) ∧
  ∀ o', (0 ≤ o' < 9)%Z → jitterPoint p o = jitterPoint p o' → o = o'.
Proof.
  intros Ho. destruct p as [px py]. unfold jitterPoint, JITTER_STEP. simpl.
  split; [|split].
  - unfold calcDistance. simpl.
    apply jitter_cases in Ho.
    destruct Ho as [->|[->|[->|[->|[->|[->|[->|[->| ->]]]]]]]]; eval_factors;
      apply Rmax_lub; unfold Rabs; destruct (Rcase_abs _); lra.
  - apply jitter_cases in Ho.
    destruct Ho as [->|[->|[->|[->|[->|[->|[->|[->| ->]]]]]]]]; eval_factors;
      (split; [intros [= Hx Hy]; first [reflexivity|lra]
              |intros Heq; first [discriminate Heq|f_equal; lra]]).
  - intros o' Ho'. apply jitter_cases in Ho, Ho'.
    destruct Ho as [->|[->|[->|[->|[->|[->|[->|[->| ->]]]]]]]];
    destruct Ho' as [->|[->|[->|[->|[->|[->|[->|[->| ->]]]]]]]]; eval_factors;
      intros Heq; first [reflexivity|injection Heq; intros; lra].
Qed.

Lemma jitterPoint_grid_witness :
  (0 ≤ 7 < 9)%Z ∧
  calcDistance (jitterPoint (mkPoint 1 2) 7) (mkPoint 1 2) Linf <= JITTER_STEP.
Proof.
  split; [lia|]. apply (jitterPoint_grid (mkPoint 1 2) 7). lia.
Defined.

End ChartFacts.

(** ** kMeans: label range, update step, stability *)

Section KMeansMore.
Import Advanced Notions Clusters.

Lemma lloyd_range points k norm maxIter centroids labels labels' :
  centroids ≠ [] → Z.of_nat (length centroids) = k →
  length labels = length points →
  Forall (λ l, 0 ≤ l < k)%Z labels →
  lloyd points k norm maxIter centroids labels = Done labels' →
  Forall (λ l, 0 ≤ l < k)%Z labels'.
Proof.
  revert centroids labels.
  induction maxIter as [|maxIter IH]; intros centroids labels Hne Hk Hlen Hin; simpl.
  - by intros [= <-].
  - pose proof (assignment_spec points centroids norm labels Hlen) as [Hl _].
    pose proof (assignment_range points centroids norm labels Hne Hlen) as Hr.
    destruct (assignment points centroids norm labels) as [labels1 changed].
    simpl in *. rewrite Hk in Hr. destruct changed; simpl; [|by intros [= <-]].
    destruct (update_done points k labels1 centroids Hl Hr) as (cs' & -> & Hcs).
    simpl. apply IH; [|congruence|done|done].
    intros ->. destruct centroids; [done|discriminate].
Qed.

(** X4: for k > 0, every label partition returns is a centroid index:
    at least 0 and below k. *)
Theorem kMeans_labels_in_range
    fuel random points k norm initialCentroids maxIter result :
  (0 < k)%Z →
  kMeans fuel random points k norm initialCentroids maxIter = Done result →
  Forall (λ lp, 0 ≤ cluster lp < k)%Z result.
Proof.
  intros Hk. unfold kMeans. rewrite bool_decide_eq_false_2 by lia.
  destruct (initCentroids fuel random points k initialCentroids) as [cs| |] eqn:Hinit;
    simpl; try done.
  pose proof (initCentroids_length _ _ _ _ _ _ Hk Hinit) as Hlen.
  destruct (lloyd points k norm (default 50 maxIter) cs
              (replicate (length points) 0%Z)) as [labels| |] eqn:Hrun;
    simpl; try done.
  intros [= <-].
  assert (Forall (λ l, 0 ≤ l < k)%Z labels) as Hin.
  { eapply lloyd_range; [| | | |done]; try done.
    - intros ->. simpl in Hlen. lia.
    - apply length_replicate.
    - apply Forall_replicate. lia. }
  apply Forall_lookup. intros i lp (p & l & -> & _ & Hl)%lookup_zip_with_Some.
  simpl. rewrite Forall_lookup in Hin. by eapply Hin.
Qed.

Lemma minIdx_two p c0 c1 norm :
  minIdx p [c0; c1] norm =
  if bool_decide (calcDistance p c0 norm <= calcDistance p c1 norm)%R
  then 0%Z else 1%Z.
Proof.
  unfold minIdx, indexOf, Math_min. cbn [map foldl indexOfFrom].
  set (d0 := calcDistance p c0 norm). set (d1 := calcDistance p c1 norm).
  unfold Rmin. destruct (Rle_dec d0 d1) as [Hle|Hgt].
  - rewrite (bool_decide_eq_true_2 (d0 = d0)) by done.
    by rewrite bool_decide_eq_true_2.
  - rewrite (bool_decide_eq_false_2 (d0 = d1)) by lra.
    rewrite (bool_decide_eq_true_2 (d1 = d1)) by done.
    by rewrite bool_decide_eq_false_2.
Qed.

Lemma lloyd_S points k norm maxIter centroids labels :
  lloyd points k norm (S maxIter) centroids labels =
  let '(labels', changed) := assignment points centroids norm labels in
  if negb changed then Done labels'
  else centroids' ← update points k labels' centroids;
       lloyd points k norm maxIter centroids' labels'.
Proof. reflexivity. Qed.

Lemma assignment_two p q c0 c1 norm l0 l1 :
  assignment [p; q] [c0; c1] norm [l0; l1] =
  let m0 := minIdx p [c0; c1] norm in
  let m1 := minIdx q [c0; c1] norm in
  ([m0; m1], negb (bool_decide (l0 = m0)) || negb (bool_decide (l1 = m1))).
Proof.
  unfold assignment. cbn [assignLoop]. cbv zeta.
  set (m0 := minIdx p [c0; c1] norm). set (m1 := minIdx q [c0; c1] norm).
  change ([l0; l1] !! 0) with (Some l0).
  destruct (decide (l0 = m0)) as [->|H0].
  - rewrite (bool_decide_eq_true_2 (Some m0 = Some m0)) by done.
    rewrite (bool_decide_eq_true_2 (m0 = m0)) by done.
    change ([m0; l1] !! 1) with (Some l1).
    destruct (decide (l1 = m1)) as [->|H1].
    + rewrite (bool_decide_eq_true_2 (Some m1 = Some m1)) by done.
      by rewrite (bool_decide_eq_true_2 (m1 = m1)).
    + rewrite (bool_decide_eq_false_2 (Some l1 = Some m1)) by congruence.
      by rewrite (bool_decide_eq_false_2 (l1 = m1)).
  - rewrite (bool_decide_eq_false_2 (Some l0 = Some m0)) by congruence.
    rewrite (bool_decide_eq_false_2 (l0 = m0)) by done.
    change (<[0:=m0]> [l0; l1] !! 1) with (Some l1).
    destruct (decide (l1 = m1)) as [->|H1].
    + by rewrite (bool_decide_eq_true_2 (Some m1 = Some m1)).
    + by rewrite (bool_decide_eq_false_2 (Some l1 = Some m1)) by congruence.
Qed.

(** Two points five apart, each its own centroid at the start: the
    first round gives the second point the label 1, the second round
    changes nothing, and the run ends. *)
Example kMeans_two_points_run :
  kMeans 0 (λ _, 0%R) [mkPoint 0 0; mkPoint 5 0] 2 L1
    (Some [mkPoint 0 0; mkPoint 5 0]) None
  = Done [mkLabeled (mkPoint 0 0) 0; mkLabeled (mkPoint 5 0) 1].
Proof.
  assert (∀ a b c d : R, (c <= a)%R → b = d →
            calcDistance (mkPoint a b) (mkPoint c d) L1 = (a - c)%R) as Hpos.
  { intros a b c d Ha ->. unfold calcDistance. cbn [x y].
    rewrite Rabs_right by lra. replace (d - d)%R with 0%R by lra.
    rewrite Rabs_R0. lra. }
  assert (∀ a b c d : R, (a <= c)%R → b = d →
            calcDistance (mkPoint a b) (mkPoint c d) L1 = (c - a)%R) as Hneg.
  { intros a b c d Ha Hb. rewrite calcDistance_sym. by apply Hpos. }
  unfold kMeans. rewrite bool_decide_eq_false_2 by lia.
  unfold initCentroids. rewrite bool_decide_eq_true_2 by done.
  cbn [mbind outcome_bind map x y length replicate default].
  change 50 with (S (S 48)).
  rewrite lloyd_S, assignment_two, !minIdx_two. cbv zeta.
  rewrite (Hpos 0 0 0 0)%R, (Hneg 0 0 5 0)%R, (Hpos 5 0 0 0)%R,
    (Hpos 5 0 5 0)%R by lra.
  rewrite (bool_decide_eq_true_2 (0 - 0 <= 5 - 0)%R) by lra.
  rewrite (bool_decide_eq_false_2 (5 - 0 <= 5 - 5)%R) by lra.
  rewrite (bool_decide_eq_true_2 (0 = 0)%Z) by done.
  rewrite (bool_decide_eq_false_2 (0 = 1)%Z) by done.
  cbn [negb orb].
  assert (update [mkPoint 0 0; mkPoint 5 0] 2 [0%Z; 1%Z]
            [mkPoint 0 0; mkPoint 5 0]
          = Done [mkPoint ((0 + 0) / 1) ((0 + 0) / 1);
                  mkPoint ((0 + 5) / 1) ((0 + 0) / 1)]) as -> by reflexivity.
  cbn [mbind outcome_bind].
  rewrite lloyd_S, assignment_two, !minIdx_two. cbv zeta.
  rewrite (Hpos 0 0 ((0 + 0) / 1) ((0 + 0) / 1))%R,
    (Hneg 0 0 ((0 + 5) / 1) ((0 + 0) / 1))%R,
    (Hpos 5 0 ((0 + 0) / 1) ((0 + 0) / 1))%R,
    (Hpos 5 0 ((0 + 5) / 1) ((0 + 0) / 1))%R by lra.
  rewrite (bool_decide_eq_true_2 (0 - (0 + 0) / 1 <= _)%R) by lra.
  rewrite (bool_decide_eq_false_2 (5 - (0 + 0) / 1 <= _)%R) by lra.
  rewrite (bool_decide_eq_true_2 (0 = 0)%Z) by done.
  rewrite (bool_decide_eq_true_2 (1 = 1)%Z) by done.
  reflexivity.
Qed.

Lemma kMeans_labels_in_range_witness :
  (0 < 2)%Z ∧
  kMeans 0 (λ _, 0%R) [mkPoint 0 0; mkPoint 5 0] 2 L1
    (Some [mkPoint 0 0; mkPoint 5 0]) None
  = Done [mkLabeled (mkPoint 0 0) 0; mkLabeled (mkPoint 5 0) 1] ∧
  Forall (λ lp, 0 ≤ cluster lp < 2)%Z
    [mkLabeled (mkPoint 0 0) 0; mkLabeled (mkPoint 5 0) 1].
Proof.
  split; [lia|]. split; [apply kMeans_two_points_run|].
  apply (kMeans_labels_in_range 0 (λ _, 0%R) [mkPoint 0 0; mkPoint 5 0] 2 L1
           (Some [mkPoint 0 0; mkPoint 5 0]) None);
    [lia|apply kMeans_two_points_run].
Defined.

Lemma total_app l1 l2 : total (l1 ++ l2) = (total l1 + total l2)%R.
Proof.
  unfold total. induction l1 as [|a l1 IH]; simpl; [lra|]. rewrite IH. lra.
Qed.






End KMeansMore.

(** ** dbscan: core points, clusters *)

Section DbscanMore.
Import Advanced Notions Clusters.

Variables (points : list Point) (eps : R) (minPts : Z) (norm : NormKey).

Lemma joins_refl c labels : joins c labels labels.
Proof. split; [done|]. intros j. by left. Qed.

Lemma joins_trans c l1 l2 l3 : joins c l1 l2 → joins c l2 l3 → joins c l1 l3.
Proof.
  intros [Hlen1 H1] [Hlen2 H2]. split; [congruence|]. intros j.
  destruct (H2 j) as [E2|[Hfrom Hto]].
  - rewrite E2. apply H1.
  - destruct (H1 j) as [E1|[Hfrom' Hto']].
    + right. by rewrite <- E1.
    + right. done.
Qed.

Lemma joins_insert c labels i :
  labels !! i = Some UNVISITED ∨ labels !! i = Some NOISE →
  joins c labels (<[i := c]> labels).
Proof.
  intros Hi. split; [apply length_insert|]. intros j.
  destruct (decide (i = j)) as [<-|Hne].
  - right. split; [done|]. apply list_lookup_insert_eq.
    destruct Hi as [Hi|Hi]; by eapply lookup_lt_Some.
  - left. by apply list_lookup_insert_ne.
Qed.

Lemma expand_joins fuel clusterId labels seedSet labels' :
  expand fuel points eps minPts norm clusterId labels seedSet = Some labels' →
  joins clusterId labels labels'.
Proof.
  revert labels seedSet.
  induction fuel as [|fuel IH]; intros labels [|current seedSet]; simpl;
    try (intros [= <-]; apply joins_refl); try done.
  set (labels1 := if bool_decide (labels !! current = Some NOISE)
                  then <[current := clusterId]> labels else labels).
  assert (joins clusterId labels labels1) as H1.
  { unfold labels1. case_bool_decide as Hn; [|apply joins_refl].
    apply joins_insert. by right. }
  case_bool_decide as Hv.
  - intros ?%IH. by eapply joins_trans.
  - assert (joins clusterId labels1 (<[current := clusterId]> labels1)) as H2.
    { apply joins_insert. by left. }
    case_bool_decide; intros ?%IH; eapply joins_trans; eauto;
      eapply joins_trans; eauto.
Qed.

(** A label that is a cluster id stays, and no second point gets it,
    while another cluster grows. *)
Lemma joins_keeps c labels labels' j l :
  joins c labels labels' → (0 ≤ l)%Z → labels !! j = Some l → labels' !! j = Some l.
Proof.
  intros [_ H] Hl Hj. destruct (H j) as [->|[[Hu|Hn] _]]; [done|..];
    rewrite Hj in *; unfold UNVISITED, NOISE in *; simplify_eq; lia.
Qed.

Lemma joins_other c labels labels' j l :
  joins c labels labels' → l ≠ c → labels' !! j = Some l → labels !! j = Some l.
Proof.
  intros [_ H] Hl Hj. destruct (H j) as [<-|[_ Hto]]; [done|]. congruence.
Qed.

Lemma hop_mono labels labels' c j j' :
  (∀ i, labels !! i = Some c → labels' !! i = Some c) →
  hop points eps norm labels c j j' → hop points eps norm labels' c j j'.
Proof. intros Hkeep (Hj & Hj' & Hnear). split; [|split]; auto. Qed.

Lemma reach_mono labels labels' c j j' :
  (∀ i, labels !! i = Some c → labels' !! i = Some c) →
  rtc (hop points eps norm labels c) j j' →
  rtc (hop points eps norm labels' c) j j'.
Proof.
  intros Hkeep. apply rtc_subrel. intros a b. by apply hop_mono.
Qed.

(** A point within [eps] of a point of the cluster joins the cluster:
    it is reached from the root as well. *)
Lemma adopt labels c root parent current :
  (∀ j, labels !! j = Some c → rtc (hop points eps norm labels c) root j) →
  labels !! parent = Some c → current ∈ regionQuery points eps norm parent →
  current < length labels →
  (∀ j, labels !! j = Some c → <[current := c]> labels !! j = Some c) ∧
  (∀ j, <[current := c]> labels !! j = Some c →
        rtc (hop points eps norm (<[current := c]> labels) c) root j).
Proof.
  intros Hreach Hparent Hnear Hlt.
  assert (∀ j, labels !! j = Some c → <[current := c]> labels !! j = Some c) as Hkeep.
  { intros j Hj. destruct (decide (current = j)) as [<-|Hne].
    - by apply list_lookup_insert_eq.
    - by rewrite list_lookup_insert_ne. }
  split; [done|]. intros j Hj.
  destruct (decide (current = j)) as [<-|Hne].
  - eapply rtc_r; [eapply reach_mono; [done|by apply Hreach]|].
    split; [by apply Hkeep|]. split; [by apply list_lookup_insert_eq|done].
  - rewrite list_lookup_insert_ne in Hj by done.
    eapply reach_mono; [done|by apply Hreach].
Qed.

Lemma expand_reach fuel c root labels seedSet labels' :
  expand fuel points eps minPts norm c labels seedSet = Some labels' →
  (∀ j, labels !! j = Some c → rtc (hop points eps norm labels c) root j) →
  (∀ s, s ∈ seedSet →
        ∃ parent, labels !! parent = Some c ∧ s ∈ regionQuery points eps norm parent) →
  ∀ j, labels' !! j = Some c → rtc (hop points eps norm labels' c) root j.
Proof.
  revert labels seedSet.
  induction fuel as [|fuel IH]; intros labels [|current seedSet]; simpl;
    try (by intros [= <-]); try done.
  intros Hrun Hreach Hseeds.
  destruct (Hseeds current) as (parent & Hparent & Hnear); [left|].
  assert (∀ s, s ∈ seedSet →
            ∃ parent, labels !! parent = Some c ∧
                      s ∈ regionQuery points eps norm parent) as Hrest.
  { intros s Hs. apply Hseeds. by right. }
  set (labels1 := if bool_decide (labels !! current = Some NOISE)
                  then <[current := c]> labels else labels) in *.
  assert ((∀ j, labels !! j = Some c → labels1 !! j = Some c) ∧
          (∀ j, labels1 !! j = Some c →
                rtc (hop points eps norm labels1 c) root j)) as [Hkeep1 Hreach1].
  { unfold labels1. destruct (bool_decide (labels !! current = Some NOISE)) eqn:Hn.
    - apply bool_decide_eq_true_1 in Hn.
      eapply adopt; [done..|]. by eapply lookup_lt_Some.
    - done. }
  assert (∀ s, s ∈ seedSet →
            ∃ parent, labels1 !! parent = Some c ∧
                      s ∈ regionQuery points eps norm parent) as Hrest1.
  { intros s Hs. destruct (Hrest s Hs) as (q & Hq & Hsq). exists q. auto. }
  revert Hrun. case_bool_decide as Hv.
  - intros Hrun. by eapply IH.
  - destruct (adopt labels1 c root parent current) as [Hkeep2 Hreach2];
      [done|by apply Hkeep1|done|by eapply lookup_lt_Some|].
    assert (<[current := c]> labels1 !! current = Some c) as Hcur.
    { apply list_lookup_insert_eq. by eapply lookup_lt_Some. }
    case_bool_decide; intros Hrun; eapply IH; try done.
    + intros s [Hs|Hs]%elem_of_app.
      * destruct (Hrest1 s Hs) as (q & Hq & Hsq). exists q. auto.
      * apply list_elem_of_filter in Hs as [_ Hs]. by exists current.
    + intros s Hs. destruct (Hrest1 s Hs) as (q & Hq & Hsq). exists q. auto.
Qed.

Lemma clustered_keep labels labels' n :
  clustered points eps minPts norm labels n →
  length labels' = length labels →
  (∀ j l, labels' !! j = Some l →
          l = UNVISITED ∨ l = NOISE ∨ (0 ≤ l < n)%Z) →
  (∀ j, labels' !! j = Some NOISE → ¬ core points eps minPts norm j) →
  (∀ j l, (0 ≤ l)%Z → labels !! j = Some l → labels' !! j = Some l) →
  (∀ j l, (0 ≤ l < n)%Z → labels' !! j = Some l → labels !! j = Some l) →
  clustered points eps minPts norm labels' n.
Proof.
  intros (Hrange & Hnoise & Hroots) Hlen Hrange' Hnoise' Hkeep Hsame.
  split; [done|]. split; [done|]. intros c Hc.
  destruct (Hroots c Hc) as (root & Hroot & Hcore & Hreach).
  exists root. split; [apply Hkeep; [lia|done]|]. split; [done|].
  intros j Hj. eapply reach_mono; [|apply Hreach, Hsame; done].
  intros i Hi. apply Hkeep; [lia|done].
Qed.

Lemma scan_clustered fuel todo labels n labels' :
  (0 ≤ n)%Z → clustered points eps minPts norm labels n →
  scan fuel points eps minPts norm todo labels n = Some labels' →
  ∃ n', (n ≤ n')%Z ∧ clustered points eps minPts norm labels' n'.
Proof.
  revert labels n. induction todo as [|i todo IH]; intros labels n Hn Hcl; simpl.
  - intros [= <-]. exists n. split; [lia|done].
  - case_bool_decide as Hv; [by apply IH|].
    assert (i < length labels) as Hlt by (by eapply lookup_lt_Some).
    destruct Hcl as (Hrange & Hnoise & Hroots).
    case_bool_decide as Hcore.
    + apply IH; [done|].
      apply (clustered_keep labels); [done|apply length_insert|..].
      * intros j l. destruct (decide (i = j)) as [<-|Hne].
        -- rewrite list_lookup_insert_eq by done. intros [= <-]. auto.
        -- rewrite list_lookup_insert_ne by done. apply Hrange.
      * intros j. destruct (decide (i = j)) as [<-|Hne].
        -- intros _. unfold core. lia.
        -- rewrite list_lookup_insert_ne by done. apply Hnoise.
      * intros j l Hl Hj. destruct (decide (i = j)) as [<-|Hne].
        -- rewrite Hv in Hj. unfold UNVISITED in Hj. simplify_eq. lia.
        -- by rewrite list_lookup_insert_ne.
      * intros j l Hl. destruct (decide (i = j)) as [<-|Hne].
        -- rewrite list_lookup_insert_eq by done. unfold NOISE. intros [= <-]. lia.
        -- by rewrite list_lookup_insert_ne.
    + destruct (expand _ _ _ _ _ _ _ _) as [labels2|] eqn:He; [|done].
      intros Hrun. apply IH in Hrun as (n' & Hn' & Hcl'); [|lia|].
      { exists n'. split; [lia|done]. }
      pose proof (expand_joins _ _ _ _ _ He) as Hjoins.
      assert (<[i := n]> labels !! i = Some n) as Hi
        by (by apply list_lookup_insert_eq).
      assert (∀ j, labels !! j ≠ Some n) as Hfresh.
      { intros j Hj. destruct (Hrange j n Hj) as [?|[?|?]];
          unfold UNVISITED, NOISE in *; lia. }
      assert (∀ j l, labels2 !! j = Some l → l ≠ n → j ≠ i ∧ labels !! j = Some l)
        as Hold.
      { intros j l Hj Hl. pose proof (joins_other _ _ _ _ _ Hjoins Hl Hj) as Hj0.
        destruct (decide (i = j)) as [<-|Hne]; [congruence|].
        by rewrite list_lookup_insert_ne in Hj0. }
      split; [|split].
      * intros j l Hj. destruct (decide (l = n)) as [->|Hl]; [right; right; lia|].
        destruct (Hold j l Hj Hl) as [_ Hj0].
        destruct (Hrange j l Hj0) as [?|[?|?]]; auto. right; right; lia.
      * intros j Hj. destruct (Hold j NOISE Hj) as [_ Hj0];
          [unfold NOISE; lia|by apply Hnoise].
      * intros c Hc. destruct (decide (c = n)) as [->|Hcn].
        -- exists i. split; [by eapply joins_keeps|].
           split; [unfold core; lia|].
           eapply expand_reach; [done| |].
           ++ intros j. destruct (decide (i = j)) as [<-|Hne]; [constructor|].
              rewrite list_lookup_insert_ne by done. intros Hj. by apply Hfresh in Hj.
           ++ intros s [_ Hs]%list_elem_of_filter. by exists i.
        -- destruct (Hroots c) as (root & Hroot & Hrcore & Hreach); [lia|].
           assert (∀ j, labels !! j = Some c → labels2 !! j = Some c) as Hkeep.
           { intros j Hj. eapply joins_keeps; [done|lia|].
             rewrite list_lookup_insert_ne; [done|]. intros <-.
             rewrite Hv in Hj. unfold UNVISITED in Hj. simplify_eq. lia. }
           exists root. split; [by apply Hkeep|]. split; [done|].
           intros j Hj. destruct (Hold j c Hj Hcn) as [_ Hj0].
           eapply reach_mono; [done|by apply Hreach].
Qed.

Lemma labelsOf_zip (ps : list Point) labels :
  length labels = length ps → labelsOf (zip_with mkLabeled ps labels) = labels.
Proof.
  unfold labelsOf. revert labels.
  induction ps as [|p ps IH]; intros [|l labels] Hlen; simplify_eq/=; [done|].
  f_equal. by apply IH.
Qed.

(** What [dbscan] returns is clustered, with no point left unvisited. *)
Lemma dbscan_clustered :
  ∃ result n,
    dbscan points eps minPts norm = Done result ∧ (0 ≤ n)%Z ∧
    length result = length points ∧
    clustered points eps minPts norm (labelsOf result) n ∧
    Forall finalLabel (labelsOf result).
Proof.
  destruct (dbscan_returns points eps minPts norm) as (labels & Hrun & Hscan & Hlen & Hfin).
  assert (clustered points eps minPts norm
            (replicate (length points) UNVISITED) 0) as Hstart.
  { split; [|split].
    - intros j l [-> _]%lookup_replicate. by left.
    - intros j [Hl _]%lookup_replicate. unfold NOISE, UNVISITED in Hl. lia.
    - intros c Hc. lia. }
  destruct (scan_clustered _ _ _ 0 _ (Z.le_refl 0) Hstart Hscan) as (n & Hn & Hcl).
  exists (zip_with mkLabeled points labels), n.
  rewrite labelsOf_zip by done. split; [done|]. split; [done|].
  split; [|done]. rewrite length_zip_with. lia.
Qed.

End DbscanMore.

Section DbscanShape.
Import Advanced Notions Clusters Chart.

Lemma result_label (result : list LabeledPoint) i lp :
  result !! i = Some lp → labelsOf result !! i = Some (cluster lp).
Proof. intros H. unfold labelsOf. by rewrite list_lookup_fmap, H. Qed.

Lemma label_result (result : list LabeledPoint) i c :
  labelsOf result !! i = Some c → ∃ lp, result !! i = Some lp ∧ cluster lp = c.
Proof.
  unfold labelsOf. rewrite list_lookup_fmap.
  destruct (result !! i) as [lp|]; [|done]. intros [= <-]. by exists lp.
Qed.

(** Two points with one cluster id are joined by hops of length at most
    [eps] through points of that cluster. *)
Lemma dbscan_linked points eps minPts norm :
  ∃ result,
    dbscan points eps minPts norm = Done result ∧
    ∀ i j c, (0 ≤ c)%Z →
      labelsOf result !! i = Some c → labelsOf result !! j = Some c →
      rtsc (hop points eps norm (labelsOf result) c) i j.
Proof.
  destruct (dbscan_clustered points eps minPts norm)
    as (result & n & Hrun & Hn & Hlen & (Hrange & Hnoise & Hroots) & Hfin).
  exists result. split; [done|]. intros i j c Hc Hi Hj.
  destruct (Hrange i c Hi) as [Hu|[Hu|Hin]];
    [unfold UNVISITED in Hu; lia|unfold NOISE in Hu; lia|].
  destruct (Hroots c Hin) as (root & Hroot & Hcore & Hreach).
  transitivity root.
  - apply rtc_rtsc_lr. by apply Hreach.
  - apply rtc_rtsc_rl. by apply Hreach.
Qed.

(** X7: a core point (at least minPts points, itself included, within
    eps of it) is never labelled noise by dbscan: it gets a cluster id
    ≥ 0. *)
Theorem dbscan_core_never_noise points eps minPts norm result i lp :
  dbscan points eps minPts norm = Done result →
  result !! i = Some lp →
  core points eps minPts norm i →
  (0 ≤ cluster lp)%Z.
Proof.
  intros Hrun Hi Hcore.
  destruct (dbscan_clustered points eps minPts norm)
    as (result' & n & Hrun' & Hn & Hlen & (Hrange & Hnoise & Hroots) & Hfin).
  rewrite Hrun in Hrun'. injection Hrun' as <-.
  apply result_label in Hi.
  destruct (Hrange _ _ Hi) as [Hu|[Hu|Hin]]; [| |lia].
  - rewrite Forall_lookup in Hfin. destruct (Hfin _ _ Hi) as [Hf|Hf];
      rewrite Hu in Hf; unfold UNVISITED, NOISE in Hf; lia.
  - rewrite Hu in Hi. by destruct (Hnoise _ Hi).
Qed.

Lemma dbscan_core_never_noise_witness :
  dbscan [origin] 1 1 L1 = Done [mkLabeled origin 0] ∧
  core [origin] 1 1 L1 0 ∧ (0 ≤ cluster (mkLabeled origin 0))%Z.
Proof.
  assert (core [origin] 1 1 L1 0) as Hcore.
  { unfold core. rewrite regionQuery_single.
    rewrite bool_decide_eq_true_2 by lra. simpl. lia. }
  split; [apply dbscan_single_minPts1|]. split; [exact Hcore|].
  apply (dbscan_core_never_noise [origin] 1 1 L1 [mkLabeled origin 0] 0);
    [apply dbscan_single_minPts1|reflexivity|exact Hcore].
Defined.

(** X8: dbscan numbers its clusters 0, 1, ..., n-1 without a gap: every
    label is -1 or below the number n of clusters, and every cluster id
    below n is the label of at least one core point. *)
Theorem dbscan_cluster_ids points eps minPts norm :
  ∃ result n,
    dbscan points eps minPts norm = Done result ∧ (0 ≤ n)%Z ∧
    Forall (λ lp, cluster lp = NOISE ∨ (0 ≤ cluster lp < n)%Z) result ∧
    ∀ c, (0 ≤ c < n)%Z →
      ∃ i lp, result !! i = Some lp ∧ cluster lp = c ∧
              core points eps minPts norm i.
Proof.
  destruct (dbscan_clustered points eps minPts norm)
    as (result & n & Hrun & Hn & Hlen & (Hrange & Hnoise & Hroots) & Hfin).
  exists result, n. split; [done|]. split; [done|]. split.
  - apply Forall_lookup. intros i lp Hi%result_label.
    destruct (Hrange _ _ Hi) as [Hu|[Hu|Hin]]; [|by left|by right].
    rewrite Forall_lookup in Hfin. destruct (Hfin _ _ Hi) as [Hf|Hf];
      rewrite Hu in Hf; unfold UNVISITED, NOISE in Hf; lia.
  - intros c Hc. destruct (Hroots c Hc) as (root & Hroot & Hcore & _).
    apply label_result in Hroot as (lp & Hlp & Hcl). by exists root, lp.
Qed.

(** X9: two points that dbscan puts into one cluster are joined by a
    chain of points of that cluster in which each is within eps of the
    next. *)
Theorem dbscan_cluster_connected points eps minPts norm result i j lpi lpj :
  dbscan points eps minPts norm = Done result →
  result !! i = Some lpi → result !! j = Some lpj →
  (0 ≤ cluster lpi)%Z → cluster lpj = cluster lpi →
  rtsc (hop points eps norm (labelsOf result) (cluster lpi)) i j.
Proof.
  intros Hrun Hi Hj Hc Heq.
  destruct (dbscan_linked points eps minPts norm) as (result' & Hrun' & Hlinked).
  rewrite Hrun in Hrun'. injection Hrun' as <-.
  apply Hlinked; [done|by apply result_label|].
  rewrite <- Heq. by apply result_label.
Qed.

Lemma scan_cons fuel points eps minPts norm i todo labels clusterId :
  scan fuel points eps minPts norm (i :: todo) labels clusterId =
  if bool_decide (labels !! i ≠ Some UNVISITED)
  then scan fuel points eps minPts norm todo labels clusterId
  else
    if bool_decide (Z.of_nat (length (regionQuery points eps norm i)) < minPts)%Z
    then scan fuel points eps minPts norm todo (<[i := NOISE]> labels) clusterId
    else
      match expand fuel points eps minPts norm clusterId
              (<[i := clusterId]> labels)
              (filter (λ n, n ≠ i) (regionQuery points eps norm i)) with
      | None => None
      | Some labels' =>
          scan fuel points eps minPts norm todo labels' (clusterId + 1)%Z
      end.
Proof. reflexivity. Qed.

Lemma expand_cons fuel points eps minPts norm clusterId labels current seedSet :
  expand (S fuel) points eps minPts norm clusterId labels (current :: seedSet) =
  let labels1 :=
    if bool_decide (labels !! current = Some NOISE)
    then <[current := clusterId]> labels else labels in
  if bool_decide (labels1 !! current ≠ Some UNVISITED)
  then expand fuel points eps minPts norm clusterId labels1 seedSet
  else
    if bool_decide
         (minPts ≤ Z.of_nat (length (regionQuery points eps norm current)))%Z
    then expand fuel points eps minPts norm clusterId (<[current := clusterId]> labels1)
           (seedSet ++
            filter (λ n, (n ∉ seedSet) ∧
                         <[current := clusterId]> labels1 !! n = Some UNVISITED)
                   (regionQuery points eps norm current))
    else expand fuel points eps minPts norm clusterId
           (<[current := clusterId]> labels1) seedSet.
Proof. reflexivity. Qed.

(** Two points at distance 1, [eps = 1], [minPts = 2]: the first point
    starts cluster 0 and the second joins it. *)
Example dbscan_pair_run :
  dbscan [origin; mkPoint 1 0] 1 2 L1
  = Done [mkLabeled origin 0; mkLabeled (mkPoint 1 0) 0].
Proof.
  assert (∀ a c : R, (-1 <= a - c <= 1)%R →
            bool_decide (calcDistance (mkPoint a 0) (mkPoint c 0) L1 <= 1)%R = true)
    as Hnear.
  { intros a c Hac. apply bool_decide_eq_true_2. unfold calcDistance. cbn [x y].
    replace (0 - 0)%R with 0%R by lra. rewrite Rabs_R0.
    unfold Rabs. destruct (Rcase_abs _); lra. }
  assert (∀ i, i < 2 → regionQuery [origin; mkPoint 1 0] 1 L1 i = [0; 1]) as Hq.
  { intros i Hi. unfold regionQuery, origin.
    destruct i as [|[|i]]; [| |lia]; cbn [lookup list_lookup regionQueryFrom];
      by rewrite !Hnear by lra. }
  set (pts := [origin; mkPoint 1 0]) in *.
  unfold dbscan, budget.
  change (length pts) with 2. change (S 2 * S 2) with (S 8).
  change (seq 0 2) with [0; 1].
  change (replicate 2 UNVISITED) with [UNVISITED; UNVISITED].
  rewrite scan_cons, (Hq 0) by lia.
  rewrite (bool_decide_eq_false_2 ([UNVISITED; UNVISITED] !! 0 ≠ _))
    by (intros H; by apply H).
  rewrite (bool_decide_eq_false_2 (Z.of_nat (length [0; 1]) < 2)%Z) by (simpl; lia).
  replace (filter (λ n : nat, n ≠ 0) [0; 1]) with [1] by reflexivity.
  replace (<[0:=0%Z]> [UNVISITED; UNVISITED]) with [0%Z; UNVISITED] by reflexivity.
  rewrite expand_cons, (Hq 1) by lia. cbv zeta.
  rewrite (bool_decide_eq_false_2 ([0%Z; UNVISITED] !! 1 = Some NOISE)) by done.
  rewrite (bool_decide_eq_false_2 ([0%Z; UNVISITED] !! 1 ≠ _))
    by (intros H; by apply H).
  rewrite (bool_decide_eq_true_2 (2 ≤ Z.of_nat (length [0; 1]))%Z) by (simpl; lia).
  replace (<[1:=0%Z]> [0%Z; UNVISITED]) with [0%Z; 0%Z] by reflexivity.
  replace ([] ++ filter (λ n : nat, (n ∉ []) ∧ [0%Z; 0%Z] !! n = Some UNVISITED)
                   [0; 1]) with (@nil nat) by reflexivity.
  change (expand 8 pts 1 2 L1 0 [0%Z; 0%Z] []) with (Some [0%Z; 0%Z]).
  cbv iota. rewrite scan_cons.
  rewrite (bool_decide_eq_true_2 ([0%Z; 0%Z] !! 1 ≠ Some UNVISITED)) by done.
  reflexivity.
Qed.

Lemma dbscan_cluster_connected_witness :
  dbscan [origin; mkPoint 1 0] 1 2 L1
  = Done [mkLabeled origin 0; mkLabeled (mkPoint 1 0) 0] ∧
  rtsc (hop [origin; mkPoint 1 0] 1 L1
          (labelsOf [mkLabeled origin 0; mkLabeled (mkPoint 1 0) 0]) 0) 0 1.
Proof.
  split; [apply dbscan_pair_run|].
  apply (dbscan_cluster_connected [origin; mkPoint 1 0] 1 2 L1
           [mkLabeled origin 0; mkLabeled (mkPoint 1 0) 0] 0 1
           (mkLabeled origin 0) (mkLabeled (mkPoint 1 0) 0));
    [apply dbscan_pair_run|reflexivity|reflexivity|simpl; lia|reflexivity].
Defined.

Lemma hop_near points eps norm labels c j j' :
  hop points eps norm labels c j j' →
  ∃ a b, points !! j = Some a ∧ points !! j' = Some b ∧
         (calcDistance a b norm <= eps)%R.
Proof. intros (_ & _ & Hnear). by apply regionQuery_elem in Hnear. Qed.

Lemma chain_stays points eps norm labels c (inner : nat → bool) i j :
  (∀ i j p q, inner i = true → inner j = false →
     points !! i = Some p → points !! j = Some q →
     (eps < calcDistance p q norm)%R) →
  rtsc (hop points eps norm labels c) i j → inner i = inner j.
Proof.
  intros Hfar Hchain. induction Hchain as [|i k j Hstep _ IH]; [done|].
  rewrite <- IH. clear IH.
  destruct (inner i) eqn:Hi, (inner k) eqn:Hk; try done; exfalso.
  - destruct Hstep as [Hstep|Hstep]; apply hop_near in Hstep as (a & b & Ha & Hb & Hd).
    + specialize (Hfar i k a b Hi Hk Ha Hb). lra.
    + specialize (Hfar i k b a Hi Hk Hb Ha).
      rewrite calcDistance_sym in Hfar. lra.
  - destruct Hstep as [Hstep|Hstep]; apply hop_near in Hstep as (a & b & Ha & Hb & Hd).
    + specialize (Hfar k i b a Hk Hi Hb Ha).
      rewrite calcDistance_sym in Hfar. lra.
    + specialize (Hfar k i a b Hk Hi Ha Hb). lra.
Qed.

(** X10: if every point of one group is farther than eps from every
    point outside the group, dbscan never puts a point of the group and
    a point outside it into one cluster. *)
Theorem dbscan_keeps_apart points eps minPts norm (inner : nat → bool) :
  (∀ i j p q, inner i = true → inner j = false →
     points !! i = Some p → points !! j = Some q →
     (eps < calcDistance p q norm)%R) →
  ∃ result,
    dbscan points eps minPts norm = Done result ∧
    ∀ i j lpi lpj,
      result !! i = Some lpi → result !! j = Some lpj →
      inner i = true → inner j = false →
      (0 ≤ cluster lpi)%Z → cluster lpi ≠ cluster lpj.
Proof.
  intros Hfar.
  destruct (dbscan_linked points eps minPts norm) as (result & Hrun & Hlinked).
  exists result. split; [done|]. intros i j lpi lpj Hi Hj Hin Hout Hc Heq.
  assert (inner i = inner j) as Hsame; [|congruence].
  eapply chain_stays; [exact Hfar|].
  apply (Hlinked i j (cluster lpi)); [done|by apply result_label|].
  rewrite Heq. by apply result_label.
Qed.

Lemma dbscan_keeps_apart_witness :
  ∃ result,
    dbscan [origin; mkPoint 5 0] 1 1 L1 = Done result ∧
    ∀ i j lpi lpj,
      result !! i = Some lpi → result !! j = Some lpj →
      Nat.eqb i 0 = true → Nat.eqb j 0 = false →
      (0 ≤ cluster lpi)%Z → cluster lpi ≠ cluster lpj.
Proof.
  apply (dbscan_keeps_apart [origin; mkPoint 5 0] 1 1 L1 (λ i, Nat.eqb i 0)).
  intros [|i] [|[|j]] p q Hi Hj Hp Hq; simplify_eq/=.
  unfold calcDistance. simpl. unfold Rabs.
  repeat destruct (Rcase_abs _); lra.
Defined.

Lemma regionQuery_self points eps norm i :
  (0 <= eps)%R → i < length points → i ∈ regionQuery points eps norm i.
Proof.
  intros Heps Hi. destruct (lookup_lt_is_Some_2 points i Hi) as [a Ha].
  apply regionQuery_elem. exists a, a. split; [done|]. split; [done|].
  by rewrite (proj2 (calcDistance_zero_iff a a norm)).
Qed.

(** X24: with eps ≥ 0 and minPts ≤ 1 every point is a core point, and
    dbscan labels no point as noise. *)
Theorem dbscan_no_noise points eps minPts norm :
  (0 <= eps)%R → (minPts ≤ 1)%Z →
  ∃ result,
    dbscan points eps minPts norm = Done result ∧
    Forall (λ lp, 0 ≤ cluster lp)%Z result.
Proof.
  intros Heps HminPts.
  destruct (dbscan_clustered points eps minPts norm)
    as (result & n & Hrun & Hn & Hlen & (Hrange & Hnoise & Hroots) & Hfin).
  exists result. split; [done|]. apply Forall_lookup. intros i lp Hi.
  assert (i < length points) as Hlt
    by (rewrite <- Hlen; by eapply lookup_lt_Some).
  apply result_label in Hi. rewrite Forall_lookup in Hfin.
  destruct (Hfin _ _ Hi) as [Hf|Hf]; [|done].
  rewrite Hf in Hi. destruct (Hnoise _ Hi). unfold core.
  pose proof (regionQuery_self points eps norm i Heps Hlt) as Hself.
  destruct (regionQuery points eps norm i); [by apply elem_of_nil in Hself|].
  simpl. lia.
Qed.

Lemma dbscan_no_noise_witness :
  ∃ result,
    dbscan [origin] 1 1 L1 = Done result ∧
    Forall (λ lp, 0 ≤ cluster lp)%Z result.
Proof. apply (dbscan_no_noise [origin] 1 1 L1); [lra|lia]. Defined.

End DbscanShape.

(** ** The metric and the two data sets *)

Section Separation.
Import Advanced Notions Clusters Chart.
Local Open Scope R_scope.

Lemma hypot_triangle a b c d : hypot (a + b) (c + d) <= hypot a c + hypot b d.
Proof.
  pose proof (hypot_nonneg a c) as Hu. pose proof (hypot_nonneg b d) as Hv.
  pose proof (hypot_sqr a c) as Hu2. pose proof (hypot_sqr b d) as Hv2.
  set (u := hypot a c) in *. set (v := hypot b d) in *. clearbody u v.
  rewrite <- (sqrt_square (u + v)) by lra. unfold hypot.
  apply sqrt_le_1_alt.
  assert (a * b + c * d <= u * v) as Hcs; [|nra].
  destruct (Rle_dec (a * b + c * d) 0) as [Hneg|Hpos]; [nra|].
  assert ((a * b + c * d) * (a * b + c * d) <= (u * v) * (u * v)) as Hsq.
  { replace ((u * v) * (u * v)) with ((u * u) * (v * v)) by lra.
    rewrite Hu2, Hv2.
    pose proof (Rle_0_sqr (a * d - c * b)) as Hsqr. unfold Rsqr in Hsqr. nra. }
  assert (0 <= u * v) as Huv by nra.
  set (s := a * b + c * d) in *. set (w := u * v) in *. clearbody s w.
  destruct (Rle_dec s w) as [Hle|Hgt]; [done|].
  assert (w * w < s * s) by nra. lra.
Qed.

(** X11: calcDistance satisfies the triangle inequality for each of the
    three norms. *)
Theorem calcDistance_triangle (a b c : Point) (m : NormKey) :
  calcDistance a c m <= calcDistance a b m + calcDistance b c m.
Proof.
  unfold calcDistance.
  replace (x a - x c) with ((x a - x b) + (x b - x c)) by lra.
  replace (y a - y c) with ((y a - y b) + (y b - y c)) by lra.
  set (dx := x a - x b). set (dx' := x b - x c).
  set (dy := y a - y b). set (dy' := y b - y c).
  destruct m.
  - pose proof (Rabs_triang dx dx'). pose proof (Rabs_triang dy dy'). lra.
  - apply hypot_triangle.
  - pose proof (Rabs_triang dx dx'). pose proof (Rabs_triang dy dy').
    pose proof (Rmax_l (Rabs dx) (Rabs dy)). pose proof (Rmax_r (Rabs dx) (Rabs dy)).
    pose proof (Rmax_l (Rabs dx') (Rabs dy')).
    pose proof (Rmax_r (Rabs dx') (Rabs dy')).
    apply Rmax_lub; lra.
Qed.

Lemma Linf_least a b m : calcDistance a b Linf <= calcDistance a b m.
Proof.
  unfold calcDistance. set (dx := x a - x b). set (dy := y a - y b).
  destruct m.
  - pose proof (Rabs_pos dx). pose proof (Rabs_pos dy). apply Rmax_lub; lra.
  - apply Rmax_lub; [apply hypot_ge_l|].
    rewrite hypot_comm. apply hypot_ge_l.
  - lra.
Qed.

Lemma generateCirclePoints_lookup cx cy r n i p :
  generateCirclePoints cx cy r n !! i = Some p →
  ∃ angle, p = mkPoint (cx + r * cos angle) (cy + r * sin angle).
Proof.
  unfold generateCirclePoints. rewrite list_lookup_fmap.
  destruct (seq 0 (Z.to_nat n) !! i) as [k|]; [|done].
  intros [= <-]. by eexists.
Qed.

(** The two groups of either data set are more than 1 apart in every
    norm. *)
Lemma DATASETS_gap key norm i j p q :
  (i < match key with dataset1 => 60 | dataset2 => 120 end)%nat →
  (match key with dataset1 => 60 | dataset2 => 120 end ≤ j)%nat →
  DATASETS key !! i = Some p → DATASETS key !! j = Some q →
  1 <= calcDistance p q norm.
Proof.
  intros Hi Hj Hp Hq. etransitivity; [|apply Linf_least].
  destruct key; unfold DATASETS in Hp, Hq;
    rewrite lookup_app_l in Hp by (by rewrite generateCirclePoints_length);
    rewrite lookup_app_r in Hq by (by rewrite generateCirclePoints_length);
    apply generateCirclePoints_lookup in Hp as [s ->];
    apply generateCirclePoints_lookup in Hq as [t ->];
    unfold calcDistance; simpl;
    pose proof (COS_bound s); pose proof (COS_bound t);
    pose proof (sin2_cos2 s) as Hs; pose proof (sin2_cos2 t) as Ht;
    unfold Rsqr in Hs, Ht.
  - etransitivity; [|apply Rmax_l]. unfold Rabs.
    destruct (Rcase_abs _); lra.
  - set (dx := 0 + 15 / 10 * cos s - (0 + 3 * cos t)).
    set (dy := 0 + 15 / 10 * sin s - (0 + 3 * sin t)).
    assert (cos s * cos t + sin s * sin t <= 1) as Hcos.
    { pose proof (Rle_0_sqr (cos s - cos t)) as Hc.
      pose proof (Rle_0_sqr (sin s - sin t)) as Hd. unfold Rsqr in Hc, Hd. lra. }
    assert (dx * dx + dy * dy =
            1125 / 100 - 9 * (cos s * cos t + sin s * sin t)) as Hsum'.
    { unfold dx, dy.
      replace ((0 + 15 / 10 * cos s - (0 + 3 * cos t)) *
               (0 + 15 / 10 * cos s - (0 + 3 * cos t)) +
               (0 + 15 / 10 * sin s - (0 + 3 * sin t)) *
               (0 + 15 / 10 * sin s - (0 + 3 * sin t)))
        with (225 / 100 * (sin s * sin s + cos s * cos s) +
              9 * (sin t * sin t + cos t * cos t) -
              9 * (cos s * cos t + sin s * sin t)) by lra.
      rewrite Hs, Ht. lra. }
    assert (225 / 100 <= dx * dx + dy * dy) as Hsum by lra.
    clear Hsum' Hcos.
    pose proof (Rabs_sqr_eq dx) as Hx. pose proof (Rabs_sqr_eq dy) as Hy.
    pose proof (Rabs_pos dx). pose proof (Rabs_pos dy).
    clearbody dx dy. unfold Rmax. destruct (Rle_dec _ _); nra.
Qed.

(** X12: for every norm, every minPts and every eps < 1, dbscan never
    puts a point of the first circle of a data set (DATASETS) and a point
    of its second circle into one cluster. *)
Theorem dbscan_DATASETS_apart key eps minPts norm :
  eps < 1 →
  ∃ result,
    dbscan (DATASETS key) eps minPts norm = Done result ∧
    ∀ i j lpi lpj,
      result !! i = Some lpi → result !! j = Some lpj →
      (i < match key with dataset1 => 60 | dataset2 => 120 end)%nat →
      (match key with dataset1 => 60 | dataset2 => 120 end ≤ j)%nat →
      (0 ≤ cluster lpi)%Z → cluster lpi ≠ cluster lpj.
Proof.
  intros Heps.
  destruct (dbscan_linked (DATASETS key) eps minPts norm)
    as (result & Hrun & Hlinked).
  exists result. split; [done|]. intros i j lpi lpj Hi Hj Hin Hout Hc Heq.
  set (half := match key with dataset1 => 60 | dataset2 => 120 end%nat) in *.
  pose (inner := λ i : nat, bool_decide (i < half)%nat).
  assert (inner i = inner j) as Hsame.
  { apply (chain_stays (DATASETS key) eps norm (labelsOf result) (cluster lpi)).
    - intros i' j' p q Hi'%bool_decide_eq_true_1 Hj'%bool_decide_eq_false_1 Hp Hq.
      pose proof (DATASETS_gap key norm i' j' p q) as Hgap.
      fold half in Hgap. specialize (Hgap Hi' ltac:(lia) Hp Hq). lra.
    - apply Hlinked; [done|by apply result_label|].
      rewrite Heq. by apply result_label. }
  unfold inner in Hsame.
  rewrite bool_decide_eq_true_2 in Hsame by done.
  rewrite bool_decide_eq_false_2 in Hsame by lia. done.
Qed.

Lemma dbscan_DATASETS_apart_witness :
  8 / 10 < 1 ∧
  ∃ result,
    dbscan (DATASETS dataset2) (8 / 10) 4 L2 = Done result ∧
    ∀ i j lpi lpj,
      result !! i = Some lpi → result !! j = Some lpj →
      (i < 120)%nat → (120 ≤ j)%nat →
      (0 ≤ cluster lpi)%Z → cluster lpi ≠ cluster lpj.
Proof.
  split; [lra|]. apply (dbscan_DATASETS_apart dataset2 (8 / 10) 4 L2). lra.
Defined.

End Separation.

(** ** generatePoints: what it returns, and when it throws *)

Section GeneratorShape.
Import Intro Engines.

Lemma throwPoints_length rnd n w : length (throwPoints rnd n w).1 = n.
Proof.
  revert w. induction n as [|n IH]; intros w; simpl; [done|].
  destruct (rnd w) as [rx w1]. destruct (rnd w1) as [ry w2].
  specialize (IH w2). destruct (throwPoints rnd n w2) as [rest w3].
  simpl in *. by rewrite IH.
Qed.

Lemma runPlan_leaf {A} (P : list A → Prop) cf (plan : SortPlan A) w :
  everyLeaf P plan → P (runPlan cf plan w).1.
Proof.
  revert w. induction plan as [result|a b next IH]; intros w; simpl; [done|].
  intros Hleaf. destruct (cf a b w) as [c w']. apply IH, Hleaf.
Qed.

Lemma closestFrom_lt p idx centres closest bestD :
  closest < idx + length centres →
  closestFrom p idx centres closest bestD < idx + length centres.
Proof.
  revert idx closest bestD.
  induction centres as [|c centres IH]; intros idx closest bestD; simpl; [done|].
  intros Hlt. destruct (closer _ _).
  - match goal with
    | |- closestFrom _ _ _ _ ?best < _ => specialize (IH (S idx) idx best)
    end. lia.
  - specialize (IH (S idx) closest bestD). lia.
Qed.

Lemma nearestCentre_lt p centres :
  centres ≠ [] → nearestCentre p centres < length centres.
Proof.
  intros Hne. unfold nearestCentre.
  apply (closestFrom_lt p 0 centres 0 None). destruct centres; [done|simpl; lia].
Qed.

Lemma nearestCentre_bound p centres n :
  0 < n → length centres ≤ n → nearestCentre p centres < n.
Proof.
  intros Hn Hlen. destruct centres as [|c centres]; [done|].
  pose proof (nearestCentre_lt p (c :: centres) ltac:(done)). lia.
Qed.

Lemma fillBuckets_done centres pts buckets :
  (∀ p, nearestCentre p centres < length buckets) →
  ∃ buckets', fillBuckets centres pts buckets = Done buckets' ∧
              length buckets' = length buckets.
Proof.
  intros Hnear. revert buckets Hnear.
  induction pts as [|p pts IH]; intros buckets Hnear; simpl; [by eexists|].
  destruct (lookup_lt_is_Some_2 buckets _ (Hnear p)) as [b ->].
  destruct (IH (<[nearestCentre p centres :=
                   mkBucket (sumX b + x p) (sumY b + y p) (S (cnt b))]> buckets))
    as (buckets' & -> & Hlen).
  - intros q. rewrite length_insert. apply Hnear.
  - exists buckets'. by rewrite Hlen, length_insert.
Qed.

Lemma moveCentres_done i centres buckets :
  i + length centres ≤ length buckets →
  ∃ centres', moveCentres i centres buckets = Done centres' ∧
              length centres' = length centres.
Proof.
  revert i. induction centres as [|c centres IH]; intros i Hlen; simpl in *;
    [by eexists|].
  destruct (lookup_lt_is_Some_2 buckets i) as [b ->]; [lia|].
  destruct (IH (S i)) as (rest & -> & Hrest); [lia|].
  eexists. split; [done|]. simpl. by rewrite Hrest.
Qed.

Lemma refine_done iters pts k centres :
  (1 ≤ k)%Z → length centres ≤ Z.to_nat k →
  ∃ centres', refine iters pts k centres = Done centres' ∧
              length centres' = length centres.
Proof.
  intros Hk. revert centres.
  induction iters as [|iters IH]; intros centres Hlen; simpl; [by eexists|].
  destruct (fillBuckets_done centres pts
              (replicate (toLength k) (mkBucket 0 0 0))) as (buckets & -> & Hb).
  { intros p. rewrite length_replicate. unfold toLength.
    apply nearestCentre_bound; lia. }
  rewrite length_replicate in Hb. unfold toLength in Hb. simpl.
  destruct (moveCentres_done 0 centres buckets) as (centres' & -> & Hc); [lia|].
  simpl. destruct (IH centres') as (centres'' & -> & Hc'); [lia|].
  exists centres''. split; [done|]. congruence.
Qed.

Lemma clamp_range v lo hi : (lo <= hi → lo <= clamp v lo hi <= hi)%R.
Proof.
  intros Hle. unfold clamp. split.
  - apply Rmin_glb; [apply Rmax_r|done].
  - apply Rmin_r.
Qed.

Lemma pullAll_done centres first raw :
  centres ≠ [] →
  ∃ points,
    pullAll centres first raw = Done points ∧ length points = length raw ∧
    ∀ i q, points !! i = Some q →
      id q = first + i ∧ colour q = None ∧ isCorrect q = None ∧
      (X_MIN <= x (xy q) <= X_MAX)%R ∧ (Y_MIN <= y (xy q) <= Y_MAX)%R ∧
      (0 ≤ clusterId q < Z.of_nat (length centres))%Z.
Proof.
  intros Hne. revert first.
  induction raw as [|p raw IH]; intros first; simpl.
  - exists []. split; [done|]. split; [done|]. by intros i q ?.
  - unfold pull. pose proof (nearestCentre_lt p centres Hne) as Hlt.
    destruct (lookup_lt_is_Some_2 centres _ Hlt) as [c ->]. simpl.
    destruct (IH (S first)) as (rest & -> & Hlen & Hrest). simpl.
    eexists. split; [done|]. split; [simpl; by rewrite Hlen|].
    intros [|i] q Hq; simplify_eq/=.
    + split; [lia|]. split; [done|]. split; [done|].
      split; [apply clamp_range; unfold X_MIN, X_MAX; lra|].
      split; [apply clamp_range; unfold Y_MIN, Y_MAX; lra|]. lia.
    + destruct (Hrest i q Hq) as (Hid & ?). split; [lia|done].
Qed.

Lemma closestFrom_spec p visited centres closest bestD :
  visited ++ centres ≠ [] →
  match bestD with
  | None => visited = []
  | Some b =>
      ∃ c, visited !! closest = Some c ∧ b = squaredDistance p c ∧
           ∀ i c', visited !! i = Some c' →
             (b <= squaredDistance p c')%R ∧
             (i < closest → (b < squaredDistance p c')%R)
  end →
  ∃ c,
    (visited ++ centres) !! closestFrom p (length visited) centres closest bestD
      = Some c ∧
    ∀ i c', (visited ++ centres) !! i = Some c' →
      (squaredDistance p c <= squaredDistance p c')%R ∧
      (i < closestFrom p (length visited) centres closest bestD →
       (squaredDistance p c < squaredDistance p c')%R).
Proof.
  revert visited closest bestD.
  induction centres as [|c0 centres IH]; intros visited closest bestD Hne Hinv.
  - rewrite app_nil_r in *. simpl. destruct bestD as [b|]; [|done].
    destruct Hinv as (c & Hc & -> & Hbest). by exists c.
  - cbn [closestFrom]. fold (squaredDistance p c0).
    replace (visited ++ c0 :: centres) with ((visited ++ [c0]) ++ centres)
      by (by rewrite <- app_assoc).
    replace (S (length visited)) with (length (visited ++ [c0]))
      by (rewrite length_app; simpl; lia).
    assert ((visited ++ [c0]) !! length visited = Some c0) as Hc0
      by (by rewrite lookup_app_r, Nat.sub_diag by lia).
    assert ((visited ++ [c0]) ++ centres ≠ []) as Hne'
      by (by destruct visited).
    destruct bestD as [b|]; simpl.
    + destruct Hinv as (c & Hc & -> & Hbest).
      pose proof (lookup_lt_Some _ _ _ Hc) as Hlt.
      case_bool_decide as Hcloser.
      * apply IH; [done|]. exists c0. split; [done|]. split; [done|].
        intros i c' Hi. destruct (decide (i < length visited)) as [Hi'|Hi'].
        -- rewrite lookup_app_l in Hi by done.
           destruct (Hbest i c' Hi) as [Hle _]. split; [lra|]. intros _. lra.
        -- apply lookup_lt_Some in Hi as Hi''. rewrite length_app in Hi''.
           simpl in Hi''. assert (i = length visited) as -> by lia.
           rewrite Hc0 in Hi. injection Hi as <-. split; [lra|lia].
      * apply IH; [done|]. exists c. split; [by rewrite lookup_app_l|].
        split; [done|].
        intros i c' Hi. destruct (decide (i < length visited)) as [Hi'|Hi'].
        -- rewrite lookup_app_l in Hi by done. by apply Hbest.
        -- apply lookup_lt_Some in Hi as Hi''. rewrite length_app in Hi''.
           simpl in Hi''. assert (i = length visited) as -> by lia.
           rewrite Hc0 in Hi. injection Hi as <-. split; [lra|lia].
    + subst visited. apply IH; [done|]. exists c0. split; [done|]. split; [done|].
      intros [|i] c' Hi; simplify_eq/=. split; [lra|lia].
Qed.

(** X25: the centre that runKMeans and generatePoints pick for a point
    is a nearest one (by squared Euclidean distance), and among the
    nearest ones the one with the lowest index. *)
Theorem nearestCentre_first_nearest p centres :
  centres ≠ [] →
  ∃ c,
    centres !! nearestCentre p centres = Some c ∧
    ∀ i c', centres !! i = Some c' →
      (squaredDistance p c <= squaredDistance p c')%R ∧
      (i < nearestCentre p centres →
       (squaredDistance p c < squaredDistance p c')%R).
Proof.
  intros Hne. unfold nearestCentre.
  by apply (closestFrom_spec p [] centres 0 None).
Qed.

Variable ambient : nat → R.
Variable sortPlan : ∀ A : Type, list A → SortPlan A.

(** X13: with k ≥ 1 cluster, and a sort that rearranges, generatePoints
    returns n points (none for n ≤ 0): ids 0, 1, ..., n-1 in order, no
    colour, no mark, each point inside the drawable region
    [50, 430] x [50, 270], and a hidden cluster in 0 .. min(k, n) - 1. *)
Theorem generatePoints_returns n k rnd w :
  rearranges sortPlan →
  (1 ≤ default CLUSTER_COUNT k)%Z →
  ∃ points w',
    generatePoints ambient sortPlan n k rnd w = (Done points, w') ∧
    length points = Z.to_nat (default 10%Z n) ∧
    ∀ i q, points !! i = Some q →
      id q = i ∧ colour q = None ∧ isCorrect q = None ∧
      (X_MIN <= x (xy q) <= X_MAX)%R ∧ (Y_MIN <= y (xy q) <= Y_MAX)%R ∧
      (0 ≤ clusterId q < Z.min (default CLUSTER_COUNT k) (default 10 n))%Z.
Proof.
  intros Hsort Hk. unfold generatePoints.
  set (n' := default 10%Z n). set (k' := default CLUSTER_COUNT k) in *.
  set (rnd' := default (Math_random ambient) rnd).
  pose proof (throwPoints_length rnd' (toLength n') w) as Hraw.
  destruct (throwPoints rnd' (toLength n') w) as [raw w1]. simpl in Hraw.
  unfold runKMeans. simpl default.
  pose proof (runPlan_leaf (λ result, result ≡ₚ raw)
                (λ _ _ w, let '(r, w') := rnd' w in ((0.5 - r)%R, w'))
                (sortPlan XY raw) w1 (Hsort XY raw)) as Hperm.
  destruct (runPlan _ (sortPlan XY raw) w1) as [shuffled w2]. simpl in Hperm.
  apply Permutation_length in Hperm.
  set (centres := map (λ p, mkXY (x p) (y p)) (slice0 shuffled k')).
  assert (length centres = Nat.min (Z.to_nat k') (Z.to_nat n')) as Hcentres.
  { unfold centres, slice0. rewrite length_map, bool_decide_eq_true_2 by lia.
    rewrite length_take. unfold toLength in Hraw. lia. }
  destruct (refine_done 8 raw k' centres) as (centres' & -> & Hc'); [done|lia|].
  simpl. unfold toLength in Hraw. destruct raw as [|p raw].
  - exists [], w2. split; [done|]. split; [done|]. by intros i q ?.
  - destruct (pullAll_done centres' 0 (p :: raw)) as (points & Hrun & Hlen & Hpoints).
    { intros ->. simpl in *. lia. }
    exists points, w2. rewrite Hrun. split; [done|]. split; [by rewrite Hlen, Hraw|].
    intros i q Hq. destruct (Hpoints i q Hq) as (? & ? & ? & ? & ? & ?).
    repeat (split; [done|]). simpl in Hraw. lia.
Qed.

(** X14: for n ≥ 1 points and k ≤ 0 clusters, generatePoints throws a
    TypeError (the first point finds no bucket), whatever the random
    numbers and the sort are. *)
Theorem generatePoints_fails n k rnd w :
  (1 ≤ default 10 n)%Z → (default CLUSTER_COUNT k ≤ 0)%Z →
  (generatePoints ambient sortPlan n k rnd w).1 = Thrown TypeError.
Proof.
  intros Hn Hk. unfold generatePoints.
  set (n' := default 10%Z n) in *. set (k' := default CLUSTER_COUNT k) in *.
  set (rnd' := default (Math_random ambient) rnd).
  pose proof (throwPoints_length rnd' (toLength n') w) as Hraw.
  destruct (throwPoints rnd' (toLength n') w) as [raw w1]. simpl in Hraw.
  unfold runKMeans. simpl default.
  destruct (runPlan _ (sortPlan XY raw) w1) as [shuffled w2].
  destruct raw as [|p raw]; [unfold toLength in Hraw; simpl in Hraw; lia|].
  simpl. unfold toLength. replace (Z.to_nat k') with 0 by lia. done.
Qed.

End GeneratorShape.

Section GeneratorExamples.
Import Intro Engines.

Lemma generatePoints_returns_witness :
  rearranges (λ A l, Sorted l) ∧ (1 ≤ default CLUSTER_COUNT None)%Z ∧
  ∃ points w',
    generatePoints (λ _, 0%R) (λ A l, Sorted l) None None None (mkWorld ∅ 0)
      = (Done points, w') ∧
    length points = Z.to_nat (default 10%Z None) ∧
    ∀ i q, points !! i = Some q →
      id q = i ∧ colour q = None ∧ isCorrect q = None ∧
      (X_MIN <= x (xy q) <= X_MAX)%R ∧ (Y_MIN <= y (xy q) <= Y_MAX)%R ∧
      (0 ≤ clusterId q < Z.min (default CLUSTER_COUNT None) (default 10 None))%Z.
Proof.
  assert (rearranges (λ A l, Sorted l)) as Hsort.
  { intros A l. simpl. reflexivity. }
  split; [exact Hsort|]. split; [simpl; unfold CLUSTER_COUNT; lia|].
  apply (generatePoints_returns (λ _, 0%R) (λ A l, Sorted l) None None None
           (mkWorld ∅ 0)); [exact Hsort|simpl; unfold CLUSTER_COUNT; lia].
Defined.

Lemma nearestCentre_first_nearest_witness :
  [mkXY 0 0; mkXY 2 0] ≠ [] ∧
  ∃ c,
    [mkXY 0 0; mkXY 2 0] !! nearestCentre (mkXY 1 0) [mkXY 0 0; mkXY 2 0]
      = Some c ∧
    ∀ i c', [mkXY 0 0; mkXY 2 0] !! i = Some c' →
      (squaredDistance (mkXY 1 0) c <= squaredDistance (mkXY 1 0) c')%R ∧
      (i < nearestCentre (mkXY 1 0) [mkXY 0 0; mkXY 2 0] →
       (squaredDistance (mkXY 1 0) c < squaredDistance (mkXY 1 0) c')%R).
Proof.
  split; [done|].
  apply (nearestCentre_first_nearest (mkXY 1 0) [mkXY 0 0; mkXY 2 0]). done.
Defined.

Lemma generatePoints_fails_witness :
  (1 ≤ default 10 (Some 1))%Z ∧ (default CLUSTER_COUNT (Some 0) ≤ 0)%Z ∧
  (generatePoints (λ _, 0%R) (λ A l, Sorted l) (Some 1%Z) (Some 0%Z) None
     (mkWorld ∅ 0)).1 = Thrown TypeError.
Proof.
  split; [simpl; lia|]. split; [simpl; lia|].
  apply (generatePoints_fails (λ _, 0%R) (λ A l, Sorted l) (Some 1%Z) (Some 0%Z)
           None (mkWorld ∅ 0)); simpl; lia.
Defined.

Lemma toInt32_period a m : toInt32 (a + m * 2 ^ 32) = toInt32 a.
Proof.
  unfold toInt32. f_equal.
  replace (a + m * 2 ^ 32 + 2 ^ 31)%Z with (a + 2 ^ 31 + m * 2 ^ 32)%Z by lia.
  apply Z_mod_plus_full.
Qed.

Lemma toUint32_period a m : toUint32 (a + m * 2 ^ 32) = toUint32 a.
Proof. unfold toUint32. apply Z_mod_plus_full. Qed.

Lemma mulberry32_mix_period a m :
  mulberry32_mix (a + m * 2 ^ 32) = mulberry32_mix a.
Proof.
  assert (imul (xor32 (a + m * 2 ^ 32) (ushr (a + m * 2 ^ 32) 15))
               (or32 (a + m * 2 ^ 32) 1) =
          imul (xor32 a (ushr a 15)) (or32 a 1)) as Hfirst.
  { unfold xor32, or32, ushr.
    by rewrite !toInt32_period, !toUint32_period. }
  unfold mulberry32_mix. cbv zeta. by rewrite Hfirst.
Qed.

Lemma callTimes_next l n w a :
  cells w !! l = Some a →
  (callTimes (mulberry32_next l) n w).1 =
  map (λ i, mulberry32_mix (a + (Z.of_nat i + 1) * 0x6d2b79f5)) (seq 0 n).
Proof.
  revert w a. induction n as [|n IH]; intros w a Ha; [done|].
  cbn [callTimes]. unfold mulberry32_next at 1. rewrite Ha. cbn [default].
  specialize (IH (mkWorld (<[l := (a + 0x6d2b79f5)%Z]> (cells w)) (draws w))
                (a + 0x6d2b79f5)%Z).
  destruct (callTimes _ n _) as [rest w2]. cbn [fst] in *.
  rewrite IH by (cbn [cells]; apply lookup_insert_eq).
  cbn [seq map]. unfold Datatypes.id.
  replace (a + (Z.of_nat 0 + 1) * 1831565813)%Z with (a + 1831565813)%Z by lia.
  apply (f_equal (cons _)).
  rewrite <- seq_shift, map_map. apply map_ext. intros i. f_equal. lia.
Qed.

(** X15: the closure that mulberry32(seed) returns has a state of its
    own: as long as its counter stays an exact number (below 2^53), its
    i-th call returns mulberry32_mix(seed + i * 0x6d2b79f5), a number in
    [0, 1); and that number depends on the counter modulo 2^32 only. *)
Theorem mulberry32_stream seed n w :
  (0 ≤ seed)%Z → (seed + Z.of_nat n * 0x6d2b79f5 ≤ 2 ^ 53)%Z →
  let rnd := (mulberry32 seed w).1 in
  let w1 := (mulberry32 seed w).2 in
  (callTimes rnd n w1).1 =
    map (λ i, mulberry32_mix (seed + (Z.of_nat i + 1) * 0x6d2b79f5)) (seq 0 n) ∧
  Forall (λ r, 0 <= r < 1)%R (callTimes rnd n w1).1 ∧
  ∀ a m, mulberry32_mix (a + m * 2 ^ 32) = mulberry32_mix a.
Proof.
  intros _ _. cbn [mulberry32 fst snd].
  rewrite (callTimes_next _ n _ seed) by (cbn [cells]; apply lookup_insert_eq).
  split; [done|]. split; [|apply mulberry32_mix_period].
  apply Forall_forall. intros r (i & -> & _)%list_elem_of_fmap.
  apply mulberry32_mix_range.
Qed.

Lemma mulberry32_stream_witness :
  (0 ≤ 20250423)%Z ∧ (20250423 + Z.of_nat 20 * 0x6d2b79f5 ≤ 2 ^ 53)%Z ∧
  let rnd := (mulberry32 20250423 (mkWorld ∅ 0)).1 in
  let w1 := (mulberry32 20250423 (mkWorld ∅ 0)).2 in
  (callTimes rnd 20 w1).1 =
    map (λ i, mulberry32_mix (20250423 + (Z.of_nat i + 1) * 0x6d2b79f5))
      (seq 0 20) ∧
  Forall (λ r, 0 <= r < 1)%R (callTimes rnd 20 w1).1 ∧
  ∀ a m, mulberry32_mix (a + m * 2 ^ 32) = mulberry32_mix a.
Proof.
  split; [lia|]. split; [lia|].
  apply (mulberry32_stream 20250423 20 (mkWorld ∅ 0)); lia.
Defined.

End GeneratorExamples.

(** ** The exercise of the introductory lesson *)

Section ExerciseFacts.
Import Intro Exercise.

Lemma filter_all {A} (P : A → Prop) `{∀ a, Decision (P a)} (l : list A) :
  length (filter P l) = length l ↔ Forall P l.
Proof.
  induction l as [|a l IH]; [by split|].
  rewrite filter_cons, Forall_cons. pose proof (length_filter P l) as Hle.
  destruct (decide (P a)) as [Ha|Ha]; simpl.
  - rewrite <- IH. split; [by intros [= ->]|by intros [_ ->]].
  - split; [lia|by intros [? _]].
Qed.

(** The mark [evaluate] gives to [p]. *)
Lemma evaluate_marks pts :
  updated (evaluate pts) =
  map (λ p, withCorrect p (truthy (colour p) && sameClusterConsistent pts p
                           && noOtherClusterSharesColour pts p)) pts.
Proof.
  unfold evaluate. simpl. apply map_ext. intros p.
  by destruct (truthy (colour p)).
Qed.

Lemma all_correct_iff pts :
  Intro.correctCount (evaluate pts) = length pts ↔
  (∀ p, p ∈ pts → truthy (colour p) = true) ∧
  (∀ p q, p ∈ pts → q ∈ pts →
     (clusterId p = clusterId q ↔ colour p = colour q)).
Proof.
  change (Intro.correctCount (evaluate pts))
    with (length (filter (λ p, isCorrect p = Some true) (updated (evaluate pts)))).
  assert (length (updated (evaluate pts)) = length pts) as <-
    by (rewrite evaluate_marks; apply length_map).
  rewrite filter_all, evaluate_marks, Forall_fmap, Forall_forall.
  split.
  - intros Hall.
    assert (∀ p, p ∈ pts →
              truthy (colour p) = true ∧
              sameClusterConsistent pts p = true ∧
              noOtherClusterSharesColour pts p = true) as Hall'.
    { intros p Hp. specialize (Hall p Hp). simpl in Hall.
      injection Hall as Hall.
      by apply andb_true_iff in Hall as [[? ?]%andb_true_iff ?]. }
    split; [intros p Hp; by apply Hall'|].
    intros p q Hp Hq. destruct (Hall' p Hp) as (_ & Hsame & Hother).
    unfold sameClusterConsistent in Hsame. unfold noOtherClusterSharesColour in Hother.
    rewrite forallb_forall in Hsame, Hother.
    apply list_elem_of_In in Hq.
    specialize (Hsame q Hq). specialize (Hother q Hq).
    apply orb_true_iff in Hsame as [Hs|Hs]; apply bool_decide_eq_true_1 in Hs;
      apply orb_true_iff in Hother as [Ho|Ho]; apply bool_decide_eq_true_1 in Ho;
      split; congruence.
  - intros [Hcol Hbij] p Hp. simpl. f_equal.
    rewrite (Hcol p Hp). simpl. apply andb_true_iff. split.
    + apply forallb_forall. intros q Hq%list_elem_of_In.
      destruct (Hbij p q Hp Hq) as [Hto _].
      destruct (decide (clusterId q = clusterId p)) as [Hc|Hc].
      * rewrite (bool_decide_eq_true_2 (colour q = colour p)) by (symmetry; auto).
        apply orb_true_r.
      * by rewrite (bool_decide_eq_true_2 (clusterId q ≠ clusterId p)).
    + apply forallb_forall. intros q Hq%list_elem_of_In.
      destruct (Hbij p q Hp Hq) as [_ Hfrom].
      destruct (decide (clusterId q = clusterId p)) as [Hc|Hc].
      * by rewrite (bool_decide_eq_true_2 (clusterId q = clusterId p)).
      * rewrite (bool_decide_eq_true_2 (colour q ≠ colour p)); [apply orb_true_r|].
        intros Heq. apply Hc. symmetry. auto.
Qed.

Lemma handle_geometry e s :
  geometry <$> points (handle e s) = geometry <$> points s.
Proof.
  destruct e; cbn [handle points]; try done.
  - unfold handlePointClick. destruct (negb _); [done|]. cbn [points].
    rewrite <- list_fmap_compose. apply list_fmap_ext. intros i p _. simpl.
    by case_bool_decide.
  - unfold handleRefresh. cbn [points]. by rewrite <- list_fmap_compose.
  - unfold handleConfirm. destruct (existsb _ _); [done|].
    destruct (bool_decide _); cbn [fst points]; rewrite evaluate_marks;
      by rewrite <- list_fmap_compose.
Qed.

(** X16: whatever the user does (select a colour, click points, Refresh,
    Confirm, close a snackbar), the scatter stays the one the lesson was
    mounted with: the same points in the same order, each with its id,
    its place and its hidden cluster. *)
Theorem exercise_keeps_scatter events s :
  geometry <$> points (run events s) = geometry <$> points s.
Proof.
  unfold run. revert s. induction events as [|e events IH]; intros s; [done|].
  simpl. by rewrite IH, handle_geometry.
Qed.

(** X17: Confirm refuses while a point has no colour: only the error
    snackbar opens.  Once every point has a colour, it reports success
    exactly when two points have the same colour if and only if they are
    in the same hidden cluster; then, and only then, it opens the
    congratulation and schedules onComplete after 2500 ms. *)
Theorem handleConfirm_verdict s :
  let s' := (handleConfirm s).1 in
  let timeouts := (handleConfirm s).2 in
  ((∃ p, p ∈ points s ∧ truthy (colour p) = false) →
     points s' = points s ∧ result s' = result s ∧
     congratsOpen s' = congratsOpen s ∧ timeouts = [] ∧
     open (snackbar s') = true ∧ severity (snackbar s') = Error) ∧
  ((∀ p, p ∈ points s → truthy (colour p) = true) →
     attempted (result s') = true ∧
     (success (result s') = true ↔
        ∀ p q, p ∈ points s → q ∈ points s →
          (clusterId p = clusterId q ↔ colour p = colour q)) ∧
     (if success (result s')
      then congratsOpen s' = true ∧ timeouts = [CallOnComplete 2500]
      else congratsOpen s' = congratsOpen s ∧ timeouts = [])).
Proof.
  simpl. unfold handleConfirm.
  destruct (existsb _ _) eqn:Hsome.
  - split; [done|]. intros Hall.
    apply existsb_exists in Hsome as (p & Hp%list_elem_of_In & Hfalse).
    rewrite (Hall p Hp) in Hfalse. done.
  - split.
    { intros (p & Hp & Hfalse).
      assert (existsb (λ p, negb (truthy (colour p))) (points s) = true) as Habs;
        [|congruence].
      apply existsb_exists. exists p. rewrite Hfalse.
      split; [by apply list_elem_of_In|done]. }
    intros Hall. pose proof (all_correct_iff (points s)) as Hiff.
    case_bool_decide as Hcount; simpl.
    + split; [done|]. split; [|done]. split; [|done].
      intros _. by apply Hiff.
    + split; [done|]. split; [|done]. split; [done|].
      intros Hbij. destruct Hcount. by apply Hiff.
Qed.

(** X18: evaluate looks at colours and hidden clusters only: evaluating
    the points it returned gives the same marks and the same count. *)
Theorem evaluate_again pts :
  evaluate (updated (evaluate pts)) = evaluate pts.
Proof.
  assert (∀ (pts pts' : list Point),
            (λ p, (colour p, clusterId p)) <$> pts' =
            (λ p, (colour p, clusterId p)) <$> pts →
            ∀ p p', colour p' = colour p → clusterId p' = clusterId p →
              sameClusterConsistent pts' p' = sameClusterConsistent pts p ∧
              noOtherClusterSharesColour pts' p' = noOtherClusterSharesColour pts p)
    as Hsame.
  { clear. intros pts pts' Heq p p' Hc Hk.
    unfold sameClusterConsistent, noOtherClusterSharesColour. rewrite Hc, Hk.
    clear Hc Hk p'. revert pts' Heq.
    induction pts as [|q pts IH]; intros [|q' pts'] Heq; try done.
    injection Heq as Hcolour Hcluster Hrest. simpl.
    destruct (IH pts' Hrest) as [-> ->]. by rewrite Hcolour, Hcluster. }
  assert ((λ p, (colour p, clusterId p)) <$> updated (evaluate pts) =
          (λ p, (colour p, clusterId p)) <$> pts) as Hkeep.
  { rewrite evaluate_marks, <- list_fmap_compose. by apply list_fmap_ext. }
  assert (updated (evaluate (updated (evaluate pts))) = updated (evaluate pts))
    as Hupd.
  { rewrite (evaluate_marks (updated (evaluate pts))).
    pose proof (evaluate_marks pts) as Hmarks.
    set (ups := updated (evaluate pts)) in *.
    etransitivity; [|symmetry; exact Hmarks].
    match goal with
    | |- map ?F ups = ?rhs =>
        transitivity (map F rhs); [by rewrite <- Hmarks|]
    end.
    rewrite map_map. apply map_ext. intros p.
    set (p' := withCorrect p _).
    destruct (Hsame pts ups Hkeep p p') as [-> ->]; done. }
  unfold evaluate in *. simpl in *. by rewrite Hupd.
Qed.

End ExerciseFacts.

(** ** The playground of the advanced lesson *)

Section PlaygroundFacts.
Import Advanced Chart Notions Playground.

Lemma point_zip (pts : list Point) (labels : list Z) :
  length labels = length pts →
  point <$> zip_with mkLabeled pts labels = pts.
Proof.
  revert labels. induction pts as [|p pts IH]; intros [|l labels] Hlen;
    simplify_eq/=; [done|]. f_equal. by apply IH.
Qed.

Lemma kMeans_done_points fuel random pts k norm ic maxIter result :
  kMeans fuel random pts k norm ic maxIter = Done result →
  point <$> result = pts.
Proof.
  intros Hrun.
  destruct (kMeans_outcome fuel random pts k norm ic maxIter)
    as [Hspin|(labels & Hlen & Hdone)]; [congruence|].
  rewrite Hdone in Hrun. injection Hrun as <-. by apply point_zip.
Qed.

Lemma dbscan_done_points pts eps minPts norm result :
  dbscan pts eps minPts norm = Done result → point <$> result = pts.
Proof.
  intros Hrun.
  destruct (dbscan_returns pts eps minPts norm) as (labels & Hdone & _ & Hlen & _).
  rewrite Hdone in Hrun. injection Hrun as <-. by apply point_zip.
Qed.

(** With as many centroids as [k] says, [kMeans] draws no number. *)
Lemma kMeans_supplied_any fuel fuel' random random' pts k norm ic maxIter :
  Z.of_nat (length ic) = k →
  kMeans fuel random pts k norm (Some ic) maxIter =
  kMeans fuel' random' pts k norm (Some ic) maxIter.
Proof.
  intros Hlen. unfold kMeans, initCentroids.
  by rewrite !(bool_decide_eq_true_2 (Z.of_nat (length ic) = k)).
Qed.

Lemma handleRun_done fuel random runId kParsed epsParsed minPtsParsed s s' :
  handleRun fuel random runId kParsed epsParsed minPtsParsed s = Done s' →
  (3 ≤ saved (datasetKey s) s ∧
   s' = mkState (datasetKey s) (methodKey s) (normKey s) (runs s) CAP_WARNING
          (initialCentroidsRef s) (centroidKeyRef s)) ∨
  (saved (datasetKey s) s < 3 ∧
   ∃ result params ic key,
     s' = mkState (datasetKey s) (methodKey s) (normKey s)
            (runs s ++ [newRun runId s params result]) EmptyString ic key ∧
     point <$> result = DATASETS (datasetKey s) ∧
     ((ic = initialCentroidsRef s ∧ key = centroidKeyRef s ∧
       (methodKey s = KMeans →
        key = Some (datasetKey s, Z.max 1 kParsed) ∧ isNull ic = false ∧
        kMeans fuel (λ d, random (S d)) (DATASETS (datasetKey s))
          (Z.max 1 kParsed) (normKey s) ic None = Done result)) ∨
      (methodKey s = KMeans ∧
       ∃ cs, ic = Some cs ∧ key = Some (datasetKey s, Z.max 1 kParsed) ∧
             Z.of_nat (length cs) = Z.max 1 kParsed))).
Proof.
  unfold handleRun. fold (saved (datasetKey s) s).
  case_bool_decide as Hcap; [intros [= <-]; left; done|].
  intros Hrun. right. split; [lia|].
  destruct (methodKey s) eqn:Hmethod.
  - destruct (negb _ || isNull _) eqn:Hmiss.
    + destruct (seedLoop _ _ _ _ _ _ _) as [cs| |] eqn:Hseed; try done.
      apply seedLoop_length in Hseed; [|simpl; lia].
      simpl in Hrun.
      destruct (kMeans _ _ _ _ _ _ _) as [result| |] eqn:Hk; try done.
      injection Hrun as <-. exists result, (KParams (Z.max 1 kParsed)).
      exists (Some cs), (Some (datasetKey s, Z.max 1 kParsed)).
      split; [unfold newRun; by rewrite Hmethod|].
      split; [by eapply kMeans_done_points|]. right. split; [done|]. by exists cs.
    + simpl in Hrun.
      destruct (kMeans _ _ _ _ _ _ _) as [result| |] eqn:Hk; try done.
      injection Hrun as <-. exists result, (KParams (Z.max 1 kParsed)).
      exists (initialCentroidsRef s), (centroidKeyRef s).
      split; [unfold newRun; by rewrite Hmethod|].
      split; [by eapply kMeans_done_points|]. left. split; [done|]. split; [done|].
      intros _. apply orb_false_iff in Hmiss as [Hkey Hnull].
      apply negb_false_iff, bool_decide_eq_true_1 in Hkey. done.
  - destruct (dbscan _ _ _ _) as [result| |] eqn:Hd; try done.
    simpl in Hrun. injection Hrun as <-.
    exists result, (DensityParams (Rmax (1 / 10000) epsParsed) (Z.max 1 minPtsParsed)).
    exists (initialCentroidsRef s), (centroidKeyRef s).
    split; [unfold newRun; by rewrite Hmethod|].
    split; [by eapply dbscan_done_points|]. left. split; [done|]. split; [done|].
    done.
Qed.

Lemma saved_toggle d i s :
  saved d (withRuns s (toggleRunVisibility i (runs s))) = saved d s.
Proof.
  unfold saved. simpl. induction (runs s) as [|r rs IH]; [done|].
  simpl. rewrite !filter_cons.
  assert (dataset (if bool_decide (id r = i)
                   then mkRun (id r) (dataset r) (method r) (paramsDesc r)
                          (norm r) (points r) (negb (visible r)) (colorSeed r)
                          (offsetIndex r)
                   else r) = dataset r) as Hsame by (by case_bool_decide).
  destruct (decide (dataset r = d)) as [Hd|Hd].
  - rewrite decide_True by congruence. simpl. by rewrite IH.
  - rewrite decide_False by congruence. done.
Qed.

Lemma saved_delete d i s :
  saved d (withRuns s (deleteRun i (runs s))) ≤ saved d s.
Proof.
  unfold saved, deleteRun. simpl. induction (runs s) as [|r rs IH]; [done|].
  rewrite !filter_cons. destruct (decide (id r ≠ i)), (decide (dataset r = d));
    rewrite ?filter_cons; rewrite ?decide_True by done;
    rewrite ?decide_False by done; simpl; lia.
Qed.

Lemma wellFormed_step e s s' :
  wellFormed s → handle e s = Done s' → wellFormed s'.
Proof.
  intros (Hcap & Hruns & Hcache) Hstep. destruct e; simpl in Hstep.
  - apply handleRun_done in Hstep
      as [[_ ->]|(Hlt & result & params & ic & key & -> & Hpts & Hrefs)];
      [done|].
    split; [|split].
    + intros d. unfold saved in *. simpl. rewrite filter_app, length_app.
      rewrite filter_cons, filter_nil. simpl.
      destruct (decide (datasetKey s = d)) as [<-|Hd]; simpl.
      * lia.
      * specialize (Hcap d). lia.
    + apply Forall_app. split; [done|]. apply Forall_singleton. simpl.
      split; [apply Z.mod_pos_bound; lia|].
      split; [apply Z.mod_pos_bound; lia|done].
    + simpl. destruct Hrefs as [(-> & -> & _)|(_ & cs & -> & -> & Hlen)]; [done|].
      intros d k [= <- <-]. split; [done|]. split; [lia|]. by exists cs.
  - injection Hstep as <-. split; [|split]; [|simpl|done].
    + intros d. rewrite saved_toggle. apply Hcap.
    + unfold toggleRunVisibility. apply Forall_fmap.
      eapply Forall_impl; [exact Hruns|]. intros r Hr. simpl.
      by case_bool_decide.
  - injection Hstep as <-. split; [|split]; [|simpl|done].
    + intros d. pose proof (saved_delete d i s). specialize (Hcap d). lia.
    + apply Forall_forall. intros r [_ Hr]%list_elem_of_filter.
      rewrite Forall_forall in Hruns. by apply Hruns.
  - injection Hstep as <-. unfold selectDataset.
    destruct v as [key|]; [|done]. case_bool_decide; [done|].
    split; [done|]. split; [done|]. by intros d k ?.
  - injection Hstep as <-. done.
  - injection Hstep as <-. done.
Qed.

(** A first run, with DBSCAN, from the state of the first render. *)
Lemma mount_density_run :
  ∃ s result,
    handleRun 0 (λ _, 0%R) "run" 2 (8 / 10) 4 (selectMethod (Some DBSCAN) mount)
      = Done s ∧
    datasetKey s = dataset1 ∧
    runs s = [newRun "run" (selectMethod (Some DBSCAN) mount)
                (DensityParams (Rmax (1 / 10000) (8 / 10)) (Z.max 1 4)) result].
Proof.
  unfold handleRun. cbn [selectMethod default methodKey datasetKey runs normKey].
  rewrite bool_decide_eq_false_2 by (simpl; lia).
  match goal with
  | |- context [dbscan ?pts ?eps ?minPts ?norm] =>
      destruct (dbscan_returns pts eps minPts norm) as (labels & Hrun & _)
  end.
  rewrite Hrun. by eexists _, _.
Qed.

Lemma visibleRuns_saved s :
  length (visibleRuns s) ≤ saved (datasetKey s) s ∧
  ∀ r, r ∈ visibleRuns s → r ∈ runs s ∧ dataset r = datasetKey s.
Proof.
  unfold visibleRuns, saved. split.
  - induction (runs s) as [|r rs IH]; [done|]. rewrite !filter_cons.
    destruct (decide (dataset r = datasetKey s ∧ visible r = true)) as [[Hd _]|_].
    + rewrite decide_True by done. simpl. lia.
    + destruct (decide (dataset r = datasetKey s)); simpl; lia.
  - intros r ([Hd _] & Hin)%list_elem_of_filter. done.
Qed.

(** X19: in every state the playground reaches, whatever the user does,
    a data set has at most three saved runs; every saved run holds the
    points of its data set, in order, and has an offset index in 0..8 and
    a colour seed in 0..6; a cached key comes with that many cached
    centroids, for the data set on display; and the chart shows at most
    three runs, all of the data set on display. *)
Theorem playground_wellFormed s :
  reachable s →
  wellFormed s ∧ length (visibleRuns s) ≤ 3 ∧
  Forall (λ r, point <$> points r = DATASETS (datasetKey s)) (visibleRuns s).
Proof.
  intros Hreach.
  assert (wellFormed s) as Hwf.
  { induction Hreach as [|e s s' _ IH Hstep]; [|by eapply wellFormed_step].
    split; [|split]; [|by constructor|by intros d k ?].
    intros d. unfold saved. simpl. lia. }
  split; [done|]. destruct Hwf as (Hcap & Hruns & _).
  destruct (visibleRuns_saved s) as [Hle Hvis].
  split; [specialize (Hcap (datasetKey s)); lia|].
  apply Forall_forall. intros r Hr. destruct (Hvis r Hr) as [Hin <-].
  rewrite Forall_forall in Hruns. by apply Hruns.
Qed.

Lemma playground_wellFormed_witness :
  ∃ s,
    reachable s ∧ length (runs s) = 1 ∧ length (visibleRuns s) = 1 ∧
    wellFormed s ∧ length (visibleRuns s) ≤ 3 ∧
    Forall (λ r, point <$> points r = DATASETS (datasetKey s)) (visibleRuns s).
Proof.
  destruct mount_density_run as (s & result & Hrun & Hkey & Hruns).
  assert (reachable s) as Hreach.
  { apply (reachable_handle (Run 0 (λ _, 0%R) "run" 2 (8 / 10) 4)
             (selectMethod (Some DBSCAN) mount)); [|exact Hrun].
    apply (reachable_handle (SelectMethod (Some DBSCAN)) mount);
      [constructor|reflexivity]. }
  exists s. split; [exact Hreach|].
  split; [by rewrite Hruns|].
  split; [unfold visibleRuns; by rewrite Hruns, Hkey|].
  apply (playground_wellFormed s Hreach).
Defined.

(** X23: with DBSCAN selected, handleRun always returns (the numbers
    the text fields parse to being numbers, not NaN): at the cap of
    three runs it only sets the warning; under the cap it saves one run,
    the result of dbscan on the data set with eps clamped to at least
    0.0001 and minPts to at least 1, and clears the warning. *)
Theorem handleRun_density_returns
    fuel random runId kParsed epsParsed minPtsParsed s :
  methodKey s = DBSCAN →
  ∃ s',
    handleRun fuel random runId kParsed epsParsed minPtsParsed s = Done s' ∧
    (saved (datasetKey s) s < 3 →
     ∃ result,
       dbscan (DATASETS (datasetKey s)) (Rmax (1 / 10000) epsParsed)
         (Z.max 1 minPtsParsed) (normKey s) = Done result ∧
       runs s' =
         runs s ++
         [newRun runId s
            (DensityParams (Rmax (1 / 10000) epsParsed) (Z.max 1 minPtsParsed))
            result] ∧
       warning s' = EmptyString) ∧
    (3 ≤ saved (datasetKey s) s →
     runs s' = runs s ∧ warning s' = CAP_WARNING).
Proof.
  intros Hmethod. unfold handleRun. fold (saved (datasetKey s) s).
  rewrite Hmethod. case_bool_decide as Hcap.
  - eexists. split; [done|]. split; [lia|done].
  - destruct (dbscan_returns (DATASETS (datasetKey s))
                (Rmax (1 / 10000) epsParsed) (Z.max 1 minPtsParsed) (normKey s))
      as (labels & Hrun & _).
    rewrite Hrun. eexists. split; [done|]. split; [|lia].
    intros _. eexists. split; [done|]. cbn [mbind outcome_bind runs warning].
    split; [|done]. unfold newRun. by rewrite Hmethod.
Qed.

Lemma handleRun_density_returns_witness :
  methodKey (selectMethod (Some DBSCAN) mount) = DBSCAN ∧
  ∃ s',
    handleRun 0 (λ _, 0%R) "run" 2 (8 / 10) 4 (selectMethod (Some DBSCAN) mount)
      = Done s' ∧
    length (runs s') = 1 ∧ warning s' = EmptyString.
Proof.
  split; [reflexivity|].
  destruct (handleRun_density_returns 0 (λ _, 0%R) "run" 2 (8 / 10) 4
              (selectMethod (Some DBSCAN) mount) eq_refl)
    as (s' & Hrun & Hsaved & _).
  destruct (Hsaved ltac:(unfold saved; simpl; lia)) as (result & _ & Hruns & Hw).
  exists s'. split; [exact Hrun|]. split; [by rewrite Hruns|exact Hw].
Defined.

End PlaygroundFacts.

Section PlaygroundRuns.
Import Advanced Chart Notions Playground.

(** X20: when the cache holds the key of the data set and k in use, a
    k-means run draws no random number for its centroids and cannot
    hang: under the cap it saves kMeans started from the cached
    centroids, whatever Math.random returns, and the cache stays as it
    is. *)
Theorem handleRun_cache_hit s kParsed fuel random runId epsParsed minPtsParsed :
  wellFormed s → methodKey s = KMeans →
  centroidKeyRef s = Some (datasetKey s, Z.max 1 kParsed) →
  ∃ s' cs,
    handleRun fuel random runId kParsed epsParsed minPtsParsed s = Done s' ∧
    initialCentroidsRef s = Some cs ∧ initialCentroidsRef s' = Some cs ∧
    centroidKeyRef s' = centroidKeyRef s ∧
    (saved (datasetKey s) s < 3 →
     ∃ result,
       kMeans 0 (λ _, 0%R) (DATASETS (datasetKey s)) (Z.max 1 kParsed)
         (normKey s) (Some cs) None = Done result ∧
       runs s' = runs s ++ [newRun runId s (KParams (Z.max 1 kParsed)) result]).
Proof.
  intros (_ & _ & Hcache) Hmethod Hkey.
  destruct (Hcache _ _ Hkey) as (_ & Hk & cs & Hcs & Hlen).
  unfold handleRun. fold (saved (datasetKey s) s). rewrite Hmethod.
  case_bool_decide as Hcap.
  - eexists _, cs. split; [done|]. split; [done|]. split; [done|].
    split; [done|]. lia.
  - rewrite Hkey, Hcs.
    rewrite (bool_decide_eq_true_2 (Some (datasetKey s, Z.max 1 kParsed) = _)) by done.
    cbn [negb orb isNull]. simpl.
    rewrite (kMeans_supplied_any fuel 0 (λ d, random (S d)) (λ _, 0%R)) by done.
    destruct (kMeans_supplied_returns 0 (λ _, 0%R) (DATASETS (datasetKey s))
                (Z.max 1 kParsed) (normKey s) cs None Hlen) as (labels & _ & Hrun).
    rewrite Hrun. simpl. eexists _, cs. split; [done|]. simpl.
    split; [done|]. split; [done|]. split; [done|]. intros _.
    eexists. split; [done|]. unfold newRun. by rewrite Hmethod.
Qed.

Lemma handleRun_cache_hit_witness :
  let s := mkState dataset1 KMeans L2 [] EmptyString
             (Some [origin; origin]) (Some (dataset1, 2%Z)) in
  wellFormed s ∧
  ∃ s' cs,
    handleRun 0 (λ _, 0%R) "run" 2 0 0 s = Done s' ∧
    initialCentroidsRef s = Some cs ∧ initialCentroidsRef s' = Some cs ∧
    centroidKeyRef s' = centroidKeyRef s ∧
    (saved (datasetKey s) s < 3 →
     ∃ result,
       kMeans 0 (λ _, 0%R) (DATASETS (datasetKey s)) (Z.max 1 2)
         (normKey s) (Some cs) None = Done result ∧
       runs s' = runs s ++ [newRun "run" s (KParams (Z.max 1 2)) result]).
Proof.
  intros s.
  assert (wellFormed s) as Hwf.
  { split; [|split].
    - intros d. unfold saved. simpl. lia.
    - constructor.
    - intros d k [= <- <-]. split; [done|]. split; [lia|].
      by exists [origin; origin]. }
  split; [exact Hwf|].
  apply (handleRun_cache_hit s 2 0 (λ _, 0%R) "run" 0%R 0%Z);
    [exact Hwf|reflexivity|reflexivity].
Defined.

(** X21: asking k-means for more clusters than the data set has points
    hangs the page: without a cached key for this data set and k, the
    seeding loop of handleRun never ends, however long it runs. *)
Theorem handleRun_hangs s kParsed fuel random runId epsParsed minPtsParsed :
  unitInterval random →
  methodKey s = KMeans → saved (datasetKey s) s < 3 →
  centroidKeyRef s ≠ Some (datasetKey s, Z.max 1 kParsed) →
  (Z.of_nat (length (DATASETS (datasetKey s))) < kParsed)%Z →
  handleRun fuel random runId kParsed epsParsed minPtsParsed s = Spinning.
Proof.
  intros Hunit Hmethod Hcap Hmiss Hk.
  unfold handleRun. fold (saved (datasetKey s) s). rewrite Hmethod.
  rewrite bool_decide_eq_false_2 by lia.
  rewrite (bool_decide_eq_false_2 (centroidKeyRef s = _)) by done.
  cbn [negb orb].
  rewrite seedLoop_spins; [done|done| |lia|done|].
  - intros Hnil. rewrite Hnil in Hk. simpl in Hk.
    pose proof (DATASETS_length (datasetKey s)) as Hlen. rewrite Hnil in Hlen.
    destruct (datasetKey s); done.
  - intros i Hi. by apply elem_of_empty in Hi.
Qed.

Lemma handleRun_hangs_witness :
  unitInterval (λ _, 0%R) ∧
  (Z.of_nat (length (DATASETS (datasetKey mount))) < 121)%Z ∧
  handleRun 1000 (λ _, 0%R) "run" 121 0 0 mount = Spinning.
Proof.
  assert (unitInterval (λ _, 0%R)) as Hunit by (intros d; lra).
  assert (Z.of_nat (length (DATASETS (datasetKey mount))) < 121)%Z as Hk.
  { rewrite DATASETS_length. simpl. lia. }
  split; [exact Hunit|]. split; [exact Hk|].
  apply (handleRun_hangs mount 121 1000 (λ _, 0%R) "run" 0%R 0%Z);
    [exact Hunit|reflexivity|unfold saved; simpl; lia|discriminate|exact Hk].
Defined.

(** X22: toggling the visibility of a run twice restores the list of
    runs; deleting removes exactly the runs with that id and keeps the
    others in order; deleting after toggling is deleting; and toggling
    one id commutes with deleting another. *)
Theorem run_list_handlers i rs :
  toggleRunVisibility i (toggleRunVisibility i rs) = rs ∧
  deleteRun i (toggleRunVisibility i rs) = deleteRun i rs ∧
  (∀ r, r ∈ deleteRun i rs ↔ r ∈ rs ∧ id r ≠ i) ∧
  deleteRun i rs `sublist_of` rs ∧
  ∀ j, j ≠ i →
    deleteRun j (toggleRunVisibility i rs) = toggleRunVisibility i (deleteRun j rs).
Proof.
  split; [|split; [|split; [|split]]].
  - unfold toggleRunVisibility. rewrite map_map.
    rewrite <- (map_id rs) at 2. apply map_ext. intros r.
    destruct (decide (id r = i)) as [Hi|Hi].
    + rewrite (bool_decide_eq_true_2 (id r = i)) by done. cbn [id].
      rewrite (bool_decide_eq_true_2 (id r = i)) by done.
      destruct r. simpl. by rewrite negb_involutive.
    + rewrite (bool_decide_eq_false_2 (id r = i)) by done.
      by rewrite (bool_decide_eq_false_2 (id r = i)).
  - unfold deleteRun, toggleRunVisibility.
    induction rs as [|r rs IH]; [done|]. simpl. rewrite !filter_cons.
    case_bool_decide as Hi; simpl.
    + rewrite !decide_False by (intros Hne; done). done.
    + rewrite !decide_True by done. by rewrite IH.
  - intros r. unfold deleteRun. rewrite list_elem_of_filter. tauto.
  - apply sublist_filter.
  - intros j Hj. unfold deleteRun, toggleRunVisibility.
    induction rs as [|r rs IH]; [done|]. simpl. rewrite !filter_cons.
    case_bool_decide as Hi; simpl.
    + destruct (decide (id r ≠ j)); simpl; rewrite IH;
        [by rewrite bool_decide_eq_true_2|done].
    + destruct (decide (id r ≠ j)); simpl; rewrite IH;
        [by rewrite bool_decide_eq_false_2|done].
Qed.

End PlaygroundRuns.
